(** * Audio-Flow: the overlapping capture / transcription pipeline

    A shallow embedding of [terminal_app/audio.py]: the segment recorder
    ([RecordingSegment.run]), the scheduler, the transcription worker and the
    session controller ([OverlapAudioManager]); and of the callbacks of
    [terminal_app/main.py] that drive the controller.

    Modelling conventions.
    - Python [str] is a list of Unicode code points ([list N]).
    - A capture-start timestamp ([time.time()], a finite float) is an
      integer, a number of milliseconds; the pipeline itself only compares
      timestamps.  The shutdown sentinel's key [float('inf')] is the
      constructor [Inf].
    - A file path handed out by [tempfile.mkstemp] is a natural number; the
      state carries a counter of the names already handed out.
    - The transcription client [self.llm] is an oracle: its answer to the
      [k]-th request of the session, for a given path.
    - The amplitude levels pushed to the unbounded [amplitude_queue] are
      left out: nothing in the pipeline reads them.
    - Threads are interleaved at the granularity of the blocks of code that
      run without blocking: one block read of a segment, the watcher's
      critical section, the worker's dequeue, the worker's processing of the
      item it holds ([event], [step], [exec]).
    - A call of the controller ([start], [resume], [pause], [stop],
      [cancel]) is one step.  Inside it a [join] on the scheduler or on a
      segment thread completes: the scheduler leaves through
      [_stop_active_segments], a segment sees its stop flag at the top of
      its loop.  A [join] on the worker takes a budget, the number of steps
      the worker makes before the timeout of that [join]; with budget left
      over the join returns as soon as the worker has left.  A worker that
      outlives its join stays in the pool of threads and goes on taking
      steps.
    - [cancel] is one step too, but for the steps that the workers take
      while the call waits in [self._scheduler.join]: the scheduler files
      the active segments as it leaves, and a worker may take one of them,
      or an item that was queued, before the call empties the queue.  These
      steps are an argument of [cancel].
    - Text is written as UTF-8.  A string with a lone surrogate (U+D800 to
      U+DFFF) cannot be encoded: [open(path, "w")] has truncated the file
      when [fh.write] raises [UnicodeEncodeError], so that the file is left
      empty.  Nothing in [_transcriber_loop] catches the exception: the
      worker thread ends there.  Storage itself does not fail.
    - Files are read and written in text mode, with the line ending of the
      platform a line feed: writing translates nothing, and reading gives
      a line feed for every carriage return and for every carriage return
      followed by a line feed.
    - Where the clock matters (the number of segments recording at once),
      the events of a run carry the time at which they happen ([stamped],
      [punctual], [prompt]). *)

From Stdlib Require Import List ZArith NArith Bool Lia Arith PeanoNat.
From Stdlib Require Import Permutation Sorted String Ascii.
Import ListNotations.

Set Implicit Arguments.

(** ** Strings *)

Module PyStr.

Definition str := list N.

(** An ASCII literal as a Python string. *)
Definition lit (s : string) : str :=
  map N_of_ascii (list_ascii_of_string s).

(** [str.isspace] for one code point. *)
Definition is_space (c : N) : bool :=
  ((9 <=? c) && (c <=? 13) || (28 <=? c) && (c <=? 32)
   || (c =? 133) || (c =? 160) || (c =? 5760)
   || (8192 <=? c) && (c <=? 8202)
   || (c =? 8232) || (c =? 8233) || (c =? 8239) || (c =? 8287)
   || (c =? 12288))%N.

Fixpoint lstrip (s : str) : str :=
  match s with
  | c :: s' => if is_space c then lstrip s' else s
  | [] => []
  end.

Definition rstrip (s : str) : str := rev (lstrip (rev s)).

(** [s.strip()] *)
Definition strip (s : str) : str := rstrip (lstrip s).

(** [sep.join(parts)] *)
Fixpoint join (sep : str) (parts : list str) : str :=
  match parts with
  | [] => []
  | [p] => p
  | p :: rest => p ++ sep ++ join sep rest
  end.

(** Truthiness of a string: [if text:] *)
Definition truthy (s : str) : bool :=
  match s with [] => false | _ => true end.

Definition space : str := [32%N].

(** [s.encode("utf-8")] succeeds: no code point of [s] is a surrogate
    (U+D800 to U+DFFF), for which the codec raises [UnicodeEncodeError]. *)
Definition encodable_char (c : N) : bool :=
  negb ((55296 <=? c) && (c <=? 57343))%N.

Definition encodable (s : str) : bool := forallb encodable_char s.

(** What reading in text mode makes of the text of a file: with universal
    newlines a carriage return, alone or before a line feed, comes back as
    a line feed. *)
Fixpoint universal_newlines (s : str) : str :=
  match s with
  | [] => []
  | c :: rest =>
      if (c =? 13)%N
      then match rest with
           | d :: rest' =>
               if (d =? 10)%N then 10%N :: universal_newlines rest'
               else 10%N :: universal_newlines rest
           | [] => [10%N]
           end
      else c :: universal_newlines rest
  end.

End PyStr.
Import PyStr.

(** ** [sorted(xs, key=lambda x: x[0])]

    Python's [sorted] is stable; a stable sort has one possible result, the
    one this insertion sort computes. *)

Module Sorting.

(** The priority key of a handoff item: a float, finite for a segment's
    capture-start time, [float('inf')] for the shutdown sentinel. *)
Inductive key : Type :=
| Fin (t : Z)
| Inf.

Definition key_leb (a b : key) : bool :=
  match a, b with
  | Fin x, Fin y => (x <=? y)%Z
  | _, Inf => true
  | Inf, Fin _ => false
  end.

Definition key_eqb (a b : key) : bool :=
  match a, b with
  | Fin x, Fin y => (x =? y)%Z
  | Inf, Inf => true
  | _, _ => false
  end.

Section ByKey.
Variable A : Type.

Fixpoint insert_by_key (x : key * A) (l : list (key * A)) : list (key * A) :=
  match l with
  | [] => [x]
  | y :: l' =>
      if key_leb (fst x) (fst y) then x :: y :: l'
      else y :: insert_by_key x l'
  end.

Fixpoint sorted (l : list (key * A)) : list (key * A) :=
  match l with
  | [] => []
  | x :: l' => insert_by_key x (sorted l')
  end.

End ByKey.

End Sorting.
Import Sorting.

(** ** The session state *)

Definition path := nat.

(** What [self.llm.transcribe(path)] does on one request. *)
Inductive outcome : Type :=
| Text (t : option str)      (* returns a string, or None *)
| RateLimit                  (* raises GroqRateLimitError *)
| Failure.                   (* raises another Exception *)

(** One [RecordingSegment] thread object. *)
Record RecordingSegment : Type := mkSegment {
  seg_id : nat;                 (* object identity *)
  _started_at : Z;              (* time.time() at construction *)
  stop_event : bool;
  frames : nat;                 (* len(frames) *)
  seg_alive : bool;             (* the thread is still in run() *)
  file_path : option path
}.

(** A handoff item: [(start_ts, path)], or the sentinel [(inf, None)]. *)
Definition item : Type := key * option path.

(** The [OverlapAudioManager] and the world it acts on. *)
Record State : Type := mkState {
  (* configuration *)
  llm : nat -> path -> outcome;
  max_retries : Z;
  (* storage *)
  files : list path;                    (* segment artifacts that exist *)
  next_tmp : path;                      (* next name mkstemp hands out *)
  transcript_file : option str;         (* transcript_path, when it exists *)
  (* effects on the outside, logged *)
  llm_calls : list path;                (* requests made to the client *)
  deleted : list path;                  (* artifacts removed, in order *)
  slept : Z;                            (* seconds spent in time.sleep *)
  (* the manager's attributes *)
  _stop_all : bool;
  _scheduler : option bool;             (* the thread, and is_alive() *)
  _active : list RecordingSegment;
  _paused : bool;
  _pending_queue : list item;
  _results : list (key * str);
  _transcriber_thread : option nat;
  (* threads *)
  workers : list (nat * option (key * path)); (* live _transcriber_loop threads
                                                 and the item each one holds *)
  next_id : nat
}.

(** Field updates ([self.x = v]). *)

Definition set_files (v : list path) (st : State) : State :=
  mkState (llm st) (max_retries st) v (next_tmp st) (transcript_file st)
    (llm_calls st) (deleted st) (slept st) (_stop_all st) (_scheduler st)
    (_active st) (_paused st) (_pending_queue st) (_results st)
    (_transcriber_thread st) (workers st) (next_id st).

Definition set_next_tmp (v : path) (st : State) : State :=
  mkState (llm st) (max_retries st) (files st) v (transcript_file st)
    (llm_calls st) (deleted st) (slept st) (_stop_all st) (_scheduler st)
    (_active st) (_paused st) (_pending_queue st) (_results st)
    (_transcriber_thread st) (workers st) (next_id st).

Definition set_transcript_file (v : option str) (st : State) : State :=
  mkState (llm st) (max_retries st) (files st) (next_tmp st) v (llm_calls st)
    (deleted st) (slept st) (_stop_all st) (_scheduler st) (_active st)
    (_paused st) (_pending_queue st) (_results st) (_transcriber_thread st)
    (workers st) (next_id st).

Definition set_llm_calls (v : list path) (st : State) : State :=
  mkState (llm st) (max_retries st) (files st) (next_tmp st)
    (transcript_file st) v (deleted st) (slept st) (_stop_all st)
    (_scheduler st) (_active st) (_paused st) (_pending_queue st)
    (_results st) (_transcriber_thread st) (workers st) (next_id st).

Definition set_deleted (v : list path) (st : State) : State :=
  mkState (llm st) (max_retries st) (files st) (next_tmp st)
    (transcript_file st) (llm_calls st) v (slept st) (_stop_all st)
    (_scheduler st) (_active st) (_paused st) (_pending_queue st)
    (_results st) (_transcriber_thread st) (workers st) (next_id st).

Definition set_slept (v : Z) (st : State) : State :=
  mkState (llm st) (max_retries st) (files st) (next_tmp st)
    (transcript_file st) (llm_calls st) (deleted st) v (_stop_all st)
    (_scheduler st) (_active st) (_paused st) (_pending_queue st)
    (_results st) (_transcriber_thread st) (workers st) (next_id st).

Definition set_stop_all (v : bool) (st : State) : State :=
  mkState (llm st) (max_retries st) (files st) (next_tmp st)
    (transcript_file st) (llm_calls st) (deleted st) (slept st) v
    (_scheduler st) (_active st) (_paused st) (_pending_queue st)
    (_results st) (_transcriber_thread st) (workers st) (next_id st).

Definition set_scheduler (v : option bool) (st : State) : State :=
  mkState (llm st) (max_retries st) (files st) (next_tmp st)
    (transcript_file st) (llm_calls st) (deleted st) (slept st)
    (_stop_all st) v (_active st) (_paused st) (_pending_queue st)
    (_results st) (_transcriber_thread st) (workers st) (next_id st).

Definition set_active (v : list RecordingSegment) (st : State) : State :=
  mkState (llm st) (max_retries st) (files st) (next_tmp st)
    (transcript_file st) (llm_calls st) (deleted st) (slept st)
    (_stop_all st) (_scheduler st) v (_paused st) (_pending_queue st)
    (_results st) (_transcriber_thread st) (workers st) (next_id st).

Definition set_paused (v : bool) (st : State) : State :=
  mkState (llm st) (max_retries st) (files st) (next_tmp st)
    (transcript_file st) (llm_calls st) (deleted st) (slept st)
    (_stop_all st) (_scheduler st) (_active st) v (_pending_queue st)
    (_results st) (_transcriber_thread st) (workers st) (next_id st).

Definition set_pending_queue (v : list item) (st : State) : State :=
  mkState (llm st) (max_retries st) (files st) (next_tmp st)
    (transcript_file st) (llm_calls st) (deleted st) (slept st)
    (_stop_all st) (_scheduler st) (_active st) (_paused st) v (_results st)
    (_transcriber_thread st) (workers st) (next_id st).

Definition set_results (v : list (key * str)) (st : State) : State :=
  mkState (llm st) (max_retries st) (files st) (next_tmp st)
    (transcript_file st) (llm_calls st) (deleted st) (slept st)
    (_stop_all st) (_scheduler st) (_active st) (_paused st)
    (_pending_queue st) v (_transcriber_thread st) (workers st) (next_id st)
    .

Definition set_transcriber_thread (v : option nat) (st : State) : State :=
  mkState (llm st) (max_retries st) (files st) (next_tmp st)
    (transcript_file st) (llm_calls st) (deleted st) (slept st)
    (_stop_all st) (_scheduler st) (_active st) (_paused st)
    (_pending_queue st) (_results st) v (workers st) (next_id st).

Definition set_workers (v : list (nat * option (key * path))) (st : State) : State :=
  mkState (llm st) (max_retries st) (files st) (next_tmp st)
    (transcript_file st) (llm_calls st) (deleted st) (slept st)
    (_stop_all st) (_scheduler st) (_active st) (_paused st)
    (_pending_queue st) (_results st) (_transcriber_thread st) v (next_id st)
    .

Definition set_next_id (v : nat) (st : State) : State :=
  mkState (llm st) (max_retries st) (files st) (next_tmp st)
    (transcript_file st) (llm_calls st) (deleted st) (slept st)
    (_stop_all st) (_scheduler st) (_active st) (_paused st)
    (_pending_queue st) (_results st) (_transcriber_thread st) (workers st)
    v.

Definition set_stop_event (v : bool) (seg : RecordingSegment) : RecordingSegment :=
  mkSegment (seg_id seg) (_started_at seg) v (frames seg) (seg_alive seg)
    (file_path seg).

Definition set_frames (v : nat) (seg : RecordingSegment) : RecordingSegment :=
  mkSegment (seg_id seg) (_started_at seg) (stop_event seg) v (seg_alive seg)
    (file_path seg).

Definition set_seg_alive (v : bool) (seg : RecordingSegment) : RecordingSegment :=
  mkSegment (seg_id seg) (_started_at seg) (stop_event seg) (frames seg) v
    (file_path seg).

Definition set_file_path (v : option path) (seg : RecordingSegment) : RecordingSegment :=
  mkSegment (seg_id seg) (_started_at seg) (stop_event seg) (frames seg)
    (seg_alive seg) v.

(** ** Storage *)

(** [p.exists()] for a segment artifact. *)
Definition file_exists (p : path) (st : State) : bool :=
  existsb (Nat.eqb p) (files st).

(** [p.unlink(missing_ok=True)] *)
Definition unlink (p : path) (st : State) : State :=
  if file_exists p st
  then set_deleted (deleted st ++ [p])
         (set_files (remove Nat.eq_dec p (files st)) st)
  else st.

(** [clear_transcript]: the transcript file is removed when it exists. *)
Definition clear_transcript (st : State) : State :=
  match transcript_file st with
  | Some _ => set_transcript_file None st
  | None => st
  end.

(** [read_transcript]: [read_text] reads in text mode. *)
Definition read_transcript (st : State) : str :=
  match transcript_file st with
  | None => []
  | Some t => universal_newlines t
  end.

(** What a file opened with ["w"] holds once [fh.write(t)] has returned or
    raised: the text, or nothing when the text cannot be encoded (the file
    is truncated when it is opened, and the codec raises before anything is
    written). *)
Definition written (t : str) : str := if encodable t then t else [].

(** [_write_transcript]: the state the call leaves behind, and whether it
    raises [UnicodeEncodeError] instead of returning. *)
Definition _write_transcript (st : State) : State :=
  let sorted_results := sorted (_results st) in
  let texts := map snd sorted_results in
  match texts with
  | [] => st
  | _ :: _ => set_transcript_file (Some (written (join space texts))) st
  end.

Definition _write_transcript_raises (st : State) : bool :=
  let sorted_results := sorted (_results st) in
  let texts := map snd sorted_results in
  match texts with
  | [] => false
  | _ :: _ => negb (encodable (join space texts))
  end.

(** ** The transcription call with retries *)

Definition sleep (secs : Z) (st : State) : State :=
  set_slept (slept st + secs)%Z st.

(** [x or ""] *)
Definition or_empty (x : option str) : str :=
  match x with
  | Some s => if truthy s then s else []
  | None => []
  end.

(** The body of [for attempt in range(max_retries + 1)], from [attempt] on,
    with [n] values of the range left; falling out of the loop returns [""]. *)
Fixpoint transcribe_attempts (n : nat) (attempt : Z) (p : path) (st : State)
  : str * State :=
  match n with
  | O => ([], st)
  | S n' =>
      let r := llm st (List.length (llm_calls st)) p in
      let st1 := set_llm_calls (llm_calls st ++ [p]) st in
      match r with
      | Text t => (or_empty t, st1)
      | RateLimit =>
          if (attempt =? max_retries st)%Z then ([], st1)
          else transcribe_attempts n' (attempt + 1)%Z p (sleep 5 st1)
      | Failure =>
          if (attempt =? max_retries st)%Z then ([], st1)
          else transcribe_attempts n' (attempt + 1)%Z p (sleep 1 st1)
      end
  end.

(** [_transcribe_single] *)
Definition _transcribe_single (p : path) (st : State) : str * State :=
  transcribe_attempts (Z.to_nat (max_retries st + 1)) 0%Z p st.

(** ** The handoff queue ([queue.PriorityQueue])

    The queue holds a multiset of tuples and [get] removes a least one.
    Tuples compare by key, then by path; a tie between a path and [None]
    under one key does not arise (a path is filed under a finite key, [None]
    under [inf]). *)

Definition opath_leb (a b : option path) : bool :=
  match a, b with
  | Some x, Some y => Nat.leb x y
  | None, _ => true
  | Some _, None => false
  end.

Definition opath_eqb (a b : option path) : bool :=
  match a, b with
  | Some x, Some y => Nat.eqb x y
  | None, None => true
  | _, _ => false
  end.

Definition item_leb (a b : item) : bool :=
  if key_eqb (fst a) (fst b) then opath_leb (snd a) (snd b)
  else key_leb (fst a) (fst b).

Definition item_eqb (a b : item) : bool :=
  key_eqb (fst a) (fst b) && opath_eqb (snd a) (snd b).

Fixpoint pq_min (x : item) (q : list item) : item :=
  match q with
  | [] => x
  | y :: q' => pq_min (if item_leb x y then x else y) q'
  end.

Fixpoint remove_first (x : item) (q : list item) : list item :=
  match q with
  | [] => []
  | y :: q' => if item_eqb x y then q' else y :: remove_first x q'
  end.

(** [get]: [None] stands for [queue.Empty]. *)
Definition pq_get (q : list item) : option (item * list item) :=
  match q with
  | [] => None
  | x :: q' => let m := pq_min x q' in Some (m, remove_first m q)
  end.

(** [self._pending_queue.put(it)] *)
Definition put (it : item) (st : State) : State :=
  set_pending_queue (_pending_queue st ++ [it]) st.

(** ** The transcription worker ([_transcriber_loop]) *)

Definition worker_state (tid : nat) (st : State)
  : option (option (key * path)) :=
  option_map snd (find (fun w => Nat.eqb (fst w) tid) (workers st)).

(** [t.is_alive()] for a worker thread. *)
Definition worker_alive (tid : nat) (st : State) : bool :=
  existsb (fun w => Nat.eqb (fst w) tid) (workers st).

Definition set_worker (tid : nat) (h : option (key * path)) (st : State)
  : State :=
  set_workers
    (map (fun w => if Nat.eqb (fst w) tid then (tid, h) else w) (workers st))
    st.

Definition end_worker (tid : nat) (st : State) : State :=
  set_workers (filter (fun w => negb (Nat.eqb (fst w) tid)) (workers st)) st.

(** The top of the loop, for an idle worker: [get(timeout=0.5)], then the
    test for the sentinel.  On [queue.Empty] the loop continues. *)
Definition worker_take (tid : nat) (st : State) : State :=
  match worker_state tid st with
  | Some None =>
      match pq_get (_pending_queue st) with
      | None => st
      | Some ((_, None), q) => end_worker tid (set_pending_queue q st)
      | Some ((start_ts, Some p), q) =>
          set_worker tid (Some (start_ts, p)) (set_pending_queue q st)
      end
  | _ => st
  end.

(** The rest of the loop body, for the item [(start_ts, p)]: the state it
    leaves behind, and whether it ends in an exception.  Nothing catches
    what [_write_transcript] raises: the entry has been appended, the file
    is left as the failed write left it, and [path.unlink] is not
    reached. *)
Definition process_item (start_ts : key) (p : path) (st : State) : State :=
  let (text, st1) := _transcribe_single p st in
  if truthy text
  then
    let st2 := set_results (_results st1 ++ [(start_ts, strip text)]) st1 in
    if _write_transcript_raises st2 then _write_transcript st2
    else unlink p (_write_transcript st2)
  else unlink p st1.

Definition process_item_raises (start_ts : key) (p : path) (st : State)
  : bool :=
  let (text, st1) := _transcribe_single p st in
  if truthy text
  then _write_transcript_raises
         (set_results (_results st1 ++ [(start_ts, strip text)]) st1)
  else false.

(** A worker that holds an item goes through the loop body; an exception
    ends the thread. *)
Definition worker_process (tid : nat) (st : State) : State :=
  match worker_state tid st with
  | Some (Some (start_ts, p)) =>
      if process_item_raises start_ts p st
      then end_worker tid (process_item start_ts p st)
      else set_worker tid None (process_item start_ts p st)
  | _ => st
  end.

(** One step of a worker: finish the item it holds, or poll the queue. *)
Definition worker_step (tid : nat) (st : State) : State :=
  match worker_state tid st with
  | Some (Some _) => worker_process tid st
  | Some None => worker_take tid st
  | None => st
  end.

(** [t.join(timeout)] on a worker: the worker makes at most [budget] steps
    before the timeout, and the join returns at once when it has exited. *)
Fixpoint join_worker (budget : nat) (tid : nat) (st : State) : State :=
  match budget with
  | O => st
  | S b =>
      if worker_alive tid st then join_worker b tid (worker_step tid st)
      else st
  end.

(** ** The segment recorder ([RecordingSegment.run]) *)

(** What one [stream.read] gives, and whether [max_duration] has elapsed
    once the block is stored.  A failure to open the stream is a
    [DeviceError] before the first block. *)
Inductive read_result : Type :=
| Block (expired : bool)
| DeviceError.

(** The code after the loop: write the artifact unless no block was read. *)
Definition finalize (seg : RecordingSegment) (st : State)
  : RecordingSegment * State :=
  if Nat.eqb (frames seg) 0
  then (set_seg_alive false seg, st)
  else
    let p := next_tmp st in
    (set_file_path (Some p) (set_seg_alive false seg),
     set_next_tmp (S p) (set_files (p :: files st) st)).

(** One iteration of the capture loop. *)
Definition segment_iter (r : read_result) (seg : RecordingSegment)
  (st : State) : RecordingSegment * State :=
  if negb (seg_alive seg) then (seg, st)
  else if stop_event seg then finalize seg st
  else
    match r with
    | DeviceError => (set_seg_alive false seg, st)
    | Block expired =>
        let seg' := set_frames (S (frames seg)) seg in
        if expired then finalize seg' st else (seg', st)
    end.

(** [seg.stop_event.set(); seg.join(...)]: the thread sees the flag at the
    top of its loop and leaves. *)
Definition stop_and_join (seg : RecordingSegment) (st : State)
  : RecordingSegment * State :=
  let seg' := set_stop_event true seg in
  if seg_alive seg' then finalize seg' st else (seg', st).

(** A whole capture: the reads of [script], then the stop flag. *)
Fixpoint run (script : list read_result) (seg : RecordingSegment)
  (st : State) : RecordingSegment * State :=
  match script with
  | [] => stop_and_join seg st
  | r :: script' =>
      let (seg', st') := segment_iter r seg st in run script' seg' st'
  end.

(** [RecordingSegment(...)], created at time [now]. *)
Definition new_segment (id : nat) (now : Z) : RecordingSegment :=
  mkSegment id now false 0 true None.

(** ** The scheduler and the watchers *)

Definition find_segment (id : nat) (st : State) : option RecordingSegment :=
  find (fun s => Nat.eqb (seg_id s) id) (_active st).

(** [self._active.remove(segment)]: the first occurrence. *)
Fixpoint remove_segment (id : nat) (l : list RecordingSegment)
  : list RecordingSegment :=
  match l with
  | [] => []
  | s :: l' => if Nat.eqb (seg_id s) id then l' else s :: remove_segment id l'
  end.

(** [if seg.file_path and seg.file_path.exists(): put((seg._started_at,
    seg.file_path))] *)
Definition file_segment (seg : RecordingSegment) (st : State) : State :=
  match file_path seg with
  | Some p =>
      if file_exists p st then put (Fin (_started_at seg), Some p) st else st
  | None => st
  end.

(** The thread object [id] of the active list, as its thread leaves it. *)
Fixpoint replace_segment (id : nat) (seg' : RecordingSegment)
  (l : list RecordingSegment) : list RecordingSegment :=
  match l with
  | [] => []
  | s :: l' =>
      if Nat.eqb (seg_id s) id then seg' :: l'
      else s :: replace_segment id seg' l'
  end.

(** One block read by the segment thread [id]. *)
Definition segment_read (id : nat) (r : read_result) (st : State) : State :=
  match find_segment id st with
  | Some seg =>
      let (seg', st') := segment_iter r seg st in
      set_active (replace_segment id seg' (_active st')) st'
  | None => st
  end.

(** [_watch_segment]: once [segment.join()] has returned. *)
Definition _watch_segment (id : nat) (st : State) : State :=
  match find_segment id st with
  | Some seg =>
      if seg_alive seg then st
      else file_segment seg (set_active (remove_segment id (_active st)) st)
  | None => st
  end.

Fixpoint flush_segments (segs : list RecordingSegment) (st : State) : State :=
  match segs with
  | [] => st
  | seg :: rest =>
      let (seg', st1) := stop_and_join seg st in
      flush_segments rest (file_segment seg' st1)
  end.

(** [_stop_active_segments] *)
Definition _stop_active_segments (st : State) : State :=
  flush_segments (_active st) (set_active [] st).

(** [running] *)
Definition running (st : State) : bool :=
  match _scheduler st with
  | Some alive => alive
  | None => false
  end.

(** One turn of the loop of [_schedule], at time [now]. *)
Definition schedule_spawn (now : Z) (st : State) : State :=
  if running st && negb (_stop_all st)
  then set_next_id (S (next_id st))
         (set_active (_active st ++ [new_segment (next_id st) now]) st)
  else st.

(** The end of [_schedule], once [_stop_all] is set. *)
Definition schedule_exit (st : State) : State :=
  if running st && _stop_all st
  then set_scheduler (Some false) (_stop_active_segments st)
  else st.

(** [if self._scheduler: self._scheduler.join(timeout=2)] *)
Definition join_scheduler (st : State) : State := schedule_exit st.

(** ** The session controller *)

Definition spawn_worker (st : State) : State :=
  set_next_id (S (next_id st))
    (set_transcriber_thread (Some (next_id st))
       (set_workers (workers st ++ [(next_id st, None)]) st)).

(** [while not q.empty(): q.get_nowait()], with [fuel] turns. *)
Fixpoint discard_queue (fuel : nat) (st : State) : State :=
  match fuel with
  | O => st
  | S f =>
      match pq_get (_pending_queue st) with
      | None => st
      | Some (_, q) => discard_queue f (set_pending_queue q st)
      end
  end.

Definition start (st : State) : State :=
  if running st then st
  else
    let st1 := set_stop_all false (set_paused false st) in
    let st2 := set_results [] (clear_transcript st1) in
    let st3 := discard_queue (List.length (_pending_queue st2)) st2 in
    set_scheduler (Some true) (spawn_worker st3).

Definition resume (st : State) : State :=
  if running st then st
  else if negb (_paused st) then st
  else
    let st1 := set_stop_all false (set_paused false st) in
    let st2 :=
      match _transcriber_thread st1 with
      | None => spawn_worker st1
      | Some tid => if worker_alive tid st1 then st1 else spawn_worker st1
      end in
    set_scheduler (Some true) st2.

(** [if self._transcriber_thread: join(timeout); self._transcriber_thread =
    None] *)
Definition join_transcriber (budget : nat) (st : State) : State :=
  match _transcriber_thread st with
  | Some tid => set_transcriber_thread None (join_worker budget tid st)
  | None => st
  end.

(** [_shutdown] *)
Definition _shutdown (is_paused : bool) (budget : nat) (st : State) : State :=
  let st1 := set_stop_all true (set_paused is_paused st) in
  let st2 := join_scheduler st1 in
  let st3 := _stop_active_segments st2 in
  let st4 := put (Inf, None) st3 in
  join_transcriber budget st4.

Definition pause (budget : nat) (st : State) : State :=
  if running st then _shutdown true budget st else st.

Definition stop (budget : nat) (st : State) : State :=
  _shutdown false budget st.

Fixpoint discard_segments (segs : list RecordingSegment) (st : State)
  : State :=
  match segs with
  | [] => st
  | seg :: rest =>
      let (seg', st1) := stop_and_join seg st in
      let st2 :=
        match file_path seg' with
        | Some p => if file_exists p st1 then unlink p st1 else st1
        | None => st1
        end in
      discard_segments rest st2
  end.

(** The loop of [cancel] that empties the queue, with [fuel] turns. *)
Fixpoint drain_queue (fuel : nat) (st : State) : State :=
  match fuel with
  | O => st
  | S f =>
      match pq_get (_pending_queue st) with
      | None => st
      | Some ((_, opt_p), q) =>
          let st1 := set_pending_queue q st in
          drain_queue f
            match opt_p with
            | Some p => unlink p st1
            | None => st1
            end
      end
  end.

(** Steps of worker threads, in the order given. *)
Definition run_workers (tids : list nat) (st : State) : State :=
  fold_left (fun s tid => worker_step tid s) tids st.

(** [cancel].  While the call waits in [self._scheduler.join(timeout=2)]
    the scheduler thread files the active segments, and the workers go on:
    [during] are the steps they take before the call empties the queue. *)
Definition cancel (during : list nat) (budget : nat) (st : State) : State :=
  let st0 := join_scheduler (set_stop_all true st) in
  let st1 := run_workers during st0 in
  let st2 := discard_segments (_active st1) (set_active [] st1) in
  let st3 := drain_queue (List.length (_pending_queue st2)) st2 in
  let st4 := put (Inf, None) st3 in
  let st5 := join_transcriber budget st4 in
  set_paused false (clear_transcript (set_results [] st5)).

(** [OverlapAudioManager(llm, transcript_path, ..., max_retries)];
    [old] is what the transcript file holds from an earlier run. *)
Definition init (client : nat -> path -> outcome) (retries : Z)
  (old : option str) : State :=
  mkState client retries [] 0 old [] [] 0%Z false None [] false [] [] None
    [] 0.

(** ** Interleavings *)

Inductive event : Type :=
| Start
| Resume
| Pause (budget : nat)
| Stop (budget : nat)
| Cancel (during : list nat) (budget : nat)
| Spawn (now : Z)
| Read (id : nat) (r : read_result)
| Watch (id : nat)
| Work (tid : nat).

Definition step (st : State) (e : event) : State :=
  match e with
  | Start => start st
  | Resume => resume st
  | Pause b => pause b st
  | Stop b => stop b st
  | Cancel during b => cancel during b st
  | Spawn now => schedule_spawn now st
  | Read id r => segment_read id r st
  | Watch id => _watch_segment id st
  | Work tid => worker_step tid st
  end.

Definition exec (st : State) (es : list event) : State :=
  fold_left step es st.

(** ** Wall-clock time

    A run whose events carry the time (in milliseconds) at which they
    happen.  Two lines of the code tie events to the clock: the scheduler
    spawns again only when [self._stop_all.wait(self.segment_gap)] has timed
    out, and a capture leaves its loop only at a block read that finds
    [time.time() - start >= self.max_duration], where [start] is taken by
    [run()] and so is no earlier than the [_started_at] of the
    constructor ([punctual]).  How fast the threads of a capture go is not
    in the code: how long after the constructor [run()] takes its [start],
    how long a block read takes, and how long the watcher takes to remove
    a capture that has ended are bounds on the run ([prompt]). *)

Record stamped : Type := at_time {
  time_of : Z;
  what : event
}.

(** The test of [schedule_spawn]: the scheduler is in its loop. *)
Definition spawning (st : State) : bool := running st && negb (_stop_all st).

(** The event [x], in state [st], comes at a time the code allows, [last]
    being the time of the scheduler's previous spawn and [D], [G] the
    segment duration and the gap. *)
Definition well_timed (D G : Z) (last : option Z) (st : State) (x : stamped)
  : bool :=
  match what x with
  | Spawn now =>
      (now =? time_of x)%Z &&
      (if spawning st
       then match last with
            | Some l => (l + G <=? now)%Z
            | None => true
            end
       else true)
  | Read id (Block expired) =>
      match find_segment id st with
      | Some seg =>
          if expired then (D <=? time_of x - _started_at seg)%Z else true
      | None => true
      end
  | _ => true
  end.

(** The time of the scheduler's last spawn, after the event [x]; a
    scheduler that is started afresh has none. *)
Definition last_spawn (last : option Z) (st : State) (x : stamped)
  : option Z :=
  match what x with
  | Spawn now => if spawning st then Some now else last
  | Start | Resume => if running st then last else None
  | _ => last
  end.

(** Every event of the run comes at a time the code allows, and the clock
    does not go back. *)
Fixpoint punctual (D G : Z) (last : option Z) (clock : Z) (st : State)
  (run : list stamped) : bool :=
  match run with
  | [] => true
  | x :: rest =>
      (clock <=? time_of x)%Z && well_timed D G last st x
      && punctual D G (last_spawn last st x) (time_of x) (step st (what x))
           rest
  end.

(** Whenever the scheduler spawns, every segment still in the active list
    was created less than [L] ago. *)
Fixpoint timely (L : Z) (st : State) (run : list stamped) : bool :=
  match run with
  | [] => true
  | x :: rest =>
      match what x with
      | Spawn now =>
          forallb (fun seg => (now - _started_at seg <? L)%Z) (_active st)
      | _ => true
      end
      && timely L (step st (what x)) rest
  end.

(** The pace of the threads of a capture.  [marks] holds, for every segment
    of the active list and in the order of the list, the time of its last
    block read (the time of its creation, before the first read).  A read
    by the first segment with the id [id] moves its mark when the thread is
    in its loop; the watcher takes the mark away with the segment. *)
Fixpoint mark_read (id : nat) (t : Z) (segs : list RecordingSegment)
  (marks : list Z) : list Z :=
  match segs, marks with
  | s :: segs', m :: marks' =>
      if Nat.eqb (seg_id s) id
      then (if seg_alive s then t else m) :: marks'
      else m :: mark_read id t segs' marks'
  | _, _ => marks
  end.

Fixpoint mark_remove (id : nat) (segs : list RecordingSegment)
  (marks : list Z) : list Z :=
  match segs, marks with
  | s :: segs', m :: marks' =>
      if Nat.eqb (seg_id s) id
      then (if seg_alive s then marks else marks')
      else m :: mark_remove id segs' marks'
  | _, _ => marks
  end.

Definition marks_after (marks : list Z) (st : State) (x : stamped)
  : list Z :=
  match what x with
  | Spawn now => if spawning st then marks ++ [now] else marks
  | Read id _ => mark_read id (time_of x) (_active st) marks
  | Watch id => mark_remove id (_active st) marks
  | Pause _ => if running st then [] else marks
  | Stop _ | Cancel _ _ => []
  | Start | Resume | Work _ => marks
  end.

(** At time [t] the threads of the segment are on time: a capture in its
    loop has finished a block read (or was created) no more than [B] ago,
    and a capture that has ended did so no more than [W] ago, the time its
    watcher takes to remove it from the active list. *)
Definition on_time (B W t : Z) (seg : RecordingSegment) (m : Z) : bool :=
  if seg_alive seg then (t - m <=? B)%Z else (t - m <=? W)%Z.

Fixpoint all_on_time (B W t : Z) (segs : list RecordingSegment)
  (marks : list Z) : bool :=
  match segs, marks with
  | s :: segs', m :: marks' =>
      on_time B W t s m && all_on_time B W t segs' marks'
  | _, _ => true
  end.

(** The test [time.time() - start >= self.max_duration] of [run()] fails
    only while less than [D] has passed since [start], which [run()] takes
    no more than [J] after the constructor has taken [_started_at]. *)
Definition not_yet (D J : Z) (st : State) (x : stamped) : bool :=
  match what x with
  | Read id (Block false) =>
      match find_segment id st with
      | Some seg =>
          if seg_alive seg && negb (stop_event seg)
          then (time_of x - _started_at seg <? D + J)%Z
          else true
      | None => true
      end
  | _ => true
  end.

(** Along the run every thread of a capture is on time at every event, and
    no block read misses the end of its capture. *)
Fixpoint prompt (D J B W : Z) (marks : list Z) (st : State)
  (run : list stamped) : bool :=
  match run with
  | [] => true
  | x :: rest =>
      all_on_time B W (time_of x) (_active st) marks
      && not_yet D J st x
      && prompt D J B W (marks_after marks st x) (step st (what x)) rest
  end.

(** [ceil(a / b)] for positive [b]. *)
Definition ceil_div (a b : Z) : Z := ((a + b - 1) / b)%Z.

(** The number of active segments. *)
Definition crowd (st : State) : Z := Z.of_nat (List.length (_active st)).

(** Start times that are at least [G] apart, none after [t]. *)
Definition spaced (G : Z) (ts : list Z) (t : Z) : Prop :=
  StronglySorted (fun a b => a + G <= b)%Z ts
  /\ Forall (fun s => s <= t)%Z ts.

(** The mark [m] of a segment is no later than the code allows: a capture
    in its loop has not found its time up at its last read, and a capture
    that has ended did so at the first read that followed. *)
Definition fresh (D J B : Z) (seg : RecordingSegment) (m : Z) : Prop :=
  (m - _started_at seg < (if seg_alive seg then D + J else D + J + B))%Z.

(** What ties the active list to the scheduler's last spawn. *)
Definition on_schedule (G : Z) (last : option Z) (st : State) : Prop :=
  if running st
  then match last with
       | Some t => spaced G (map _started_at (_active st)) t
       | None => _active st = []
       end
  else _active st = [].

(** ** The hotkey callbacks ([main.py])

    The four closures of [main()] that drive the recorder:
    [start_recording], [pause_recording], [stop_and_process] and
    [cancel_all], over the [status] dict.  The collaborators whose code is
    not part of the pipeline are oracles: the formatter ([llm.format_text],
    [llm.generate_prompt]) answers its [k]-th call with a text or raises,
    and [safe_insert] returns an error or [None]; what reaches them, the
    status line of the window and [formatted.log] is logged.  The calls of
    [logging] are left out (the message of a failure only selects the line
    that is logged).  The append to [formatted.log] raises, inside the
    [try], on a text that cannot be encoded.  A callback is one step, like
    a call of the controller. *)

Inductive formatting : Type :=
| Formatted (text : str)     (* returns the text *)
| FormatRateLimit            (* raises GroqRateLimitError *)
| FormatError.               (* raises another Exception *)

Record App : Type := mkApp {
  (* the collaborators *)
  format_text : nat -> str -> formatting;     (* llm.format_text, k-th call *)
  generate_prompt : nat -> str -> formatting; (* llm.generate_prompt *)
  safe_insert : str -> option str;            (* the error, or None *)
  recorder : State;                           (* the OverlapAudioManager *)
  (* the status dict *)
  status_recording : bool;
  status_paused : bool;
  status_last_formatted : str;
  status_mode : string;
  (* effects on the outside, logged *)
  shown : list string;              (* texts given to visual.update_status *)
  formatted_log : str;              (* what formatted.log has gained *)
  inserted : list str;              (* texts given to safe_insert *)
  format_calls : list (bool * str)  (* calls of the formatter: for a prompt?,
                                       and the text *)
}.

Definition set_recorder (v : State) (a : App) : App :=
  mkApp (format_text a) (generate_prompt a) (safe_insert a) v
    (status_recording a) (status_paused a) (status_last_formatted a)
    (status_mode a) (shown a) (formatted_log a) (inserted a) (format_calls
    a).

Definition set_status_recording (v : bool) (a : App) : App :=
  mkApp (format_text a) (generate_prompt a) (safe_insert a) (recorder a) v
    (status_paused a) (status_last_formatted a) (status_mode a) (shown a)
    (formatted_log a) (inserted a) (format_calls a).

Definition set_status_paused (v : bool) (a : App) : App :=
  mkApp (format_text a) (generate_prompt a) (safe_insert a) (recorder a)
    (status_recording a) v (status_last_formatted a) (status_mode a)
    (shown a) (formatted_log a) (inserted a) (format_calls a).

Definition set_status_last_formatted (v : str) (a : App) : App :=
  mkApp (format_text a) (generate_prompt a) (safe_insert a) (recorder a)
    (status_recording a) (status_paused a) v (status_mode a) (shown a)
    (formatted_log a) (inserted a) (format_calls a).

Definition set_status_mode (v : string) (a : App) : App :=
  mkApp (format_text a) (generate_prompt a) (safe_insert a) (recorder a)
    (status_recording a) (status_paused a) (status_last_formatted a) v
    (shown a) (formatted_log a) (inserted a) (format_calls a).

Definition set_shown (v : list string) (a : App) : App :=
  mkApp (format_text a) (generate_prompt a) (safe_insert a) (recorder a)
    (status_recording a) (status_paused a) (status_last_formatted a)
    (status_mode a) v (formatted_log a) (inserted a) (format_calls a).

Definition set_formatted_log (v : str) (a : App) : App :=
  mkApp (format_text a) (generate_prompt a) (safe_insert a) (recorder a)
    (status_recording a) (status_paused a) (status_last_formatted a)
    (status_mode a) (shown a) v (inserted a) (format_calls a).

Definition set_inserted (v : list str) (a : App) : App :=
  mkApp (format_text a) (generate_prompt a) (safe_insert a) (recorder a)
    (status_recording a) (status_paused a) (status_last_formatted a)
    (status_mode a) (shown a) (formatted_log a) v (format_calls a).

Definition set_format_calls (v : list (bool * str)) (a : App) : App :=
  mkApp (format_text a) (generate_prompt a) (safe_insert a) (recorder a)
    (status_recording a) (status_paused a) (status_last_formatted a)
    (status_mode a) (shown a) (formatted_log a) (inserted a) v.

(** [visual.update_status(text)] *)
Definition update_status (text : string) (a : App) : App :=
  set_shown (shown a ++ [text]) a.

Definition start_recording (mode : string) (a : App) : App :=
  if status_recording a && status_paused a then
    let a1 := set_recorder (resume (recorder a)) a in
    let a2 := set_status_paused false a1 in
    update_status
      (String.append "recording"
         (if String.eqb (status_mode a2) "prompt" then " prompt" else ""))
      a2
  else if status_recording a then a
  else
    let a1 := set_status_mode mode a in
    let label :=
      if String.eqb mode "transcribe" then "recording"%string
      else "recording prompt"%string in
    let a2 := update_status label a1 in
    let a3 := set_recorder (start (recorder a2)) a2 in
    set_status_paused false (set_status_recording true a3).

Definition pause_recording (budget : nat) (a : App) : App :=
  if negb (status_recording a) then a
  else if status_paused a then a
  else
    let a1 := set_recorder (pause budget (recorder a)) a in
    update_status "paused" (set_status_paused true a1).

(** The two lines that end every path of [stop_and_process]:
    [visual.update_status("idle"); status["mode"] = "transcribe"]. *)
Definition back_to_idle (a : App) : App :=
  set_status_mode "transcribe" (update_status "idle" a).

Definition stop_and_process (budget : nat) (a : App) : App :=
  if negb (status_recording a) then a
  else
    let a1 := update_status "processing" a in
    let a2 := set_recorder (stop budget (recorder a1)) a1 in
    let a3 := set_status_paused false (set_status_recording false a2) in
    let mode := status_mode a3 in
    let raw_text := strip (read_transcript (recorder a3)) in
    if negb (truthy raw_text) then back_to_idle a3
    else
      let prompt := String.eqb mode "prompt" in
      let k := List.length (format_calls a3) in
      let r :=
        if prompt then generate_prompt a3 k raw_text
        else format_text a3 k raw_text in
      let a4 := set_format_calls (format_calls a3 ++ [(prompt, raw_text)]) a3 in
      match r with
      | Formatted formatted =>
          let a5 := set_status_last_formatted formatted a4 in
          if encodable formatted
          then
            let a6 :=
              set_formatted_log
                (formatted_log a5 ++ formatted ++ [10%N; 10%N]) a5 in
            let a7 := set_inserted (inserted a6 ++ [formatted]) a6 in
            back_to_idle a7
          else
            (* the append raises inside the [try]: [except Exception] *)
            back_to_idle a5
      | FormatRateLimit | FormatError => back_to_idle a4
      end.

Definition cancel_all (during : list nat) (budget : nat) (a : App) : App :=
  if negb (status_recording a) && negb (status_paused a) then a
  else
    let a1 := set_recorder (cancel during budget (recorder a)) a in
    let a2 := set_status_paused false (set_status_recording false a1) in
    update_status "idle" (set_status_mode "transcribe" a2).

(** The state in which [main()] installs the callbacks. *)
Definition boot (client : nat -> path -> outcome) (old : option str)
  (fmt gen : nat -> str -> formatting) (ins : str -> option str) : App :=
  mkApp fmt gen ins (init client 3 old) false false [] "transcribe" [] [] []
    [].

(** What happens to the application: a callback runs, or one of the
    recorder's threads takes a step. *)
Inductive action : Type :=
| StartRecording (mode : string)
| PauseRecording (budget : nat)
| StopAndProcess (budget : nat)
| CancelAll (during : list nat) (budget : nat)
| Scheduler (now : Z)
| SegmentRead (id : nat) (r : read_result)
| Watcher (id : nat)
| Worker (tid : nat).

Definition act (a : App) (x : action) : App :=
  match x with
  | StartRecording mode => start_recording mode a
  | PauseRecording b => pause_recording b a
  | StopAndProcess b => stop_and_process b a
  | CancelAll during b => cancel_all during b a
  | Scheduler now => set_recorder (step (recorder a) (Spawn now)) a
  | SegmentRead id r => set_recorder (step (recorder a) (Read id r)) a
  | Watcher id => set_recorder (step (recorder a) (Watch id)) a
  | Worker tid => set_recorder (step (recorder a) (Work tid)) a
  end.

Definition session (a : App) (xs : list action) : App := fold_left act xs a.

(** ** Vocabulary of the properties *)

(** The result set and the transcript file agree in two states. *)
Definition same_text (a b : State) : Prop :=
  _results a = _results b /\ transcript_file a = transcript_file b.

(** What a transcript computed from the result set [rs] holds. *)
Definition transcript_of (rs : list (key * str)) : str :=
  join space (map snd (sorted rs)).




(** The client raised: either failure class. *)
Definition fails (o : outcome) : bool :=
  match o with
  | Text _ => false
  | RateLimit | Failure => true
  end.

(** [st] with some groups of fields taken from [src]: a way to say which
    fields an operation may change. *)
Definition copy_capture (src st : State) : State :=
  set_pending_queue (_pending_queue src)
    (set_deleted (deleted src)
       (set_next_tmp (next_tmp src) (set_files (files src) st))).

Definition copy_work (src st : State) : State :=
  set_workers (workers src)
    (set_pending_queue (_pending_queue src)
       (set_deleted (deleted src)
          (set_files (files src)
             (set_transcript_file (transcript_file src)
                (set_results (_results src)
                   (set_slept (slept src)
                      (set_llm_calls (llm_calls src) st))))))).

(** The text one request gave the worker: [""] when it raised. *)
Definition answer (o : outcome) : str :=
  match o with
  | Text t => or_empty t
  | RateLimit | Failure => []
  end.

(** Every request logged in [st] from the [n]-th on came back empty. *)
Definition quiet_from (n : nat) (st : State) : Prop :=
  forall i p, n <= i -> nth_error (llm_calls st) i = Some p ->
    answer (llm st i p) = [].

(** [st'] has the client and the configuration of [st], and a request log
    that continues the one of [st]. *)
Definition extends (st st' : State) : Prop :=
  llm st' = llm st /\ max_retries st' = max_retries st
  /\ exists x, llm_calls st' = llm_calls st ++ x.

(** Nothing has been transcribed: no entry, no transcript file. *)
Definition blank (st : State) : Prop :=
  _results st = [] /\ transcript_file st = None.



(** A well-formed handoff item: a path under a finite key, or the
    sentinel. *)
Definition item_ok (it : item) : Prop :=
  match it with
  | (Fin _, Some _) | (Inf, None) => True
  | _ => False
  end.

Definition queue_ok (q : list item) : Prop := Forall item_ok q.


(** Who answers for an artifact: a handoff item, a finished segment still
    in the active list, a worker that holds it. *)
Definition queued (q : list item) (p : path) : Prop :=
  exists k, In (k, Some p) q.

Definition seg_owns (segs : list RecordingSegment) (p : path) : Prop :=
  exists seg, In seg segs /\ seg_alive seg = false /\ file_path seg = Some p.

Definition held (ws : list (nat * option (key * path))) (p : path) : Prop :=
  exists tid k, In (tid, Some (k, p)) ws.

(** Every artifact on storage has someone who answers for it. *)
Definition owned (st : State) : Prop :=
  forall p, In p (files st) ->
    seg_owns (_active st) p \/ queued (_pending_queue st) p
    \/ held (workers st) p.

(** An artifact on storage that nothing refers to any more: no segment of
    the active list, no handoff item, no worker. *)
Definition seg_refs (segs : list RecordingSegment) (p : path) : Prop :=
  exists seg, In seg segs /\ file_path seg = Some p.

Definition adrift (p : path) (st : State) : Prop :=
  In p (files st) /\ p < next_tmp st
  /\ ~ queued (_pending_queue st) p
  /\ ~ held (workers st) p.

Definition orphan (p : path) (st : State) : Prop :=
  adrift p st /\ ~ seg_refs (_active st) p.

(** Names are handed out once: what has been deleted is below the counter
    of names, is not on storage, and was deleted once. *)
Definition tidy (st : State) : Prop :=
  NoDup (deleted st)
  /\ (forall p, In p (deleted st) -> p < next_tmp st /\ ~ In p (files st))
  /\ (forall p, In p (files st) -> p < next_tmp st).

(** The artifacts the session refers to: through a segment of the active
    list, through a handoff item, through the item a worker holds. *)
Definition opt_list (o : option path) : list path :=
  match o with
  | Some p => [p]
  | None => []
  end.

Definition seg_paths (segs : list RecordingSegment) : list path :=
  flat_map (fun s => opt_list (file_path s)) segs.

Definition queue_paths (q : list item) : list path :=
  flat_map (fun it => opt_list (snd it)) q.

Definition held_paths (ws : list (nat * option (key * path))) : list path :=
  flat_map (fun w => opt_list (option_map snd (snd w))) ws.

Definition claims (st : State) : list path :=
  seg_paths (_active st) ++ queue_paths (_pending_queue st)
  ++ held_paths (workers st).

(** How many times [p] occurs in [l], and how many times the session
    refers to [p]. *)
Definition cnt (p : path) (l : list path) : nat := count_occ Nat.eq_dec l p.

Definition refs (p : path) (st : State) : nat := cnt p (claims st).

(** No artifact is referred to twice, none under a name that has not been
    handed out; [segs] are segments that a loop has taken off the active
    list and still has to go through. *)
Definition once_with (segs : list RecordingSegment) (st : State) : Prop :=
  (forall p, cnt p (seg_paths segs) + refs p st <= 1)
  /\ (forall p, next_tmp st <= p -> cnt p (seg_paths segs) + refs p st = 0).

(** The worker threads are distinct. *)
Definition workers_distinct (st : State) : Prop :=
  NoDup (map fst (workers st))
  /\ Forall (fun tid => tid < next_id st) (map fst (workers st)).

Definition handed_once (st : State) : Prop :=
  once_with [] st /\ workers_distinct st.

(** What a step of a capture does to its segment and to the session: the
    manager's lists are left alone, and the segment keeps the artifact it
    had or gets one under the next fresh name. *)
Definition capture_step (seg : RecordingSegment) (st : State)
  (r : RecordingSegment * State) : Prop :=
  _active (snd r) = _active st
  /\ _pending_queue (snd r) = _pending_queue st
  /\ workers (snd r) = workers st
  /\ next_id (snd r) = next_id st
  /\ ((file_path (fst r) = file_path seg /\ next_tmp (snd r) = next_tmp st)
      \/ (file_path (fst r) = Some (next_tmp st)
          /\ next_tmp (snd r) = S (next_tmp st))).






(** The [status] dict and the recorder tell the same story. *)
Definition agrees (a : App) : Prop :=
  (status_recording a = true -> status_paused a = false ->
   running (recorder a) = true)
  /\ (status_paused a = true ->
      status_recording a = true /\ running (recorder a) = false
      /\ _paused (recorder a) = true)
  /\ (status_recording a = false ->
      status_paused a = false /\ running (recorder a) = false
      /\ status_mode a = "transcribe"%string).

(** ** Sample sessions *)

Module Demo.

(** A client that hears "world" in artifact 0 and "hello" in any other. *)
Definition two_words (k : nat) (p : path) : outcome :=
  if Nat.eqb p 0 then Text (Some (lit "world")) else Text (Some (lit "hello")).


(** A client that is rate limited, fails twice, and then hears "hello". *)
Definition flaky (k : nat) (p : path) : outcome :=
  match k with
  | 0 => RateLimit
  | 1 | 2 => Failure
  | _ => Text (Some (lit "hello"))
  end.


(** A client that never answers. *)
Definition down (k : nat) (p : path) : outcome :=
  if Nat.even k then RateLimit else Failure.

(** One segment is recorded and its artifact reaches the worker. *)
Definition one_taken : list event :=
  [ Start; Spawn 0; Read 1 (Block false); Read 1 (Block true); Watch 1;
    Work 0 ].

(** The session is recording: one segment is active. *)
Definition recording : list event := [ Start; Spawn 0; Read 1 (Block false) ].

(** One segment is recorded, handed over and processed. *)
Definition one_processed : list event :=
  [ Spawn 0; Read 1 (Block false); Read 1 (Block true); Watch 1;
    Work 0; Work 0 ].

(** A client that hears "hello" in artifact 0 and "world" in any other. *)
Definition hello_world (k : nat) (p : path) : outcome :=
  if Nat.eqb p 0 then Text (Some (lit "hello")) else Text (Some (lit "world")).


(** Recording, with one artifact in the handoff queue and a second segment
    that holds audio. *)
Definition one_queued : list event :=
  [ Start; Spawn 0; Read 1 (Block true); Watch 1;
    Spawn 12; Read 2 (Block false) ].

(** Mid-recording: two active segments, one artifact in the handoff
    queue, the worker idle. *)
Definition mid_recording : list event :=
  [ Start; Spawn 0; Read 1 (Block true); Watch 1;
    Spawn 12; Read 2 (Block false); Spawn 24; Read 3 (Block false) ].

(** Mid-recording: the worker holds artifact 0, artifact 1 is queued, one
    segment is active. *)
Definition in_hand : list event :=
  [ Start; Spawn 0; Read 1 (Block true); Watch 1; Work 0;
    Spawn 12; Read 2 (Block true); Watch 2;
    Spawn 24; Read 3 (Block false) ].



(** A client that is always rate limited. *)
Definition limited (k : nat) (p : path) : outcome := RateLimit.

(** Four segments are recorded; the worker has the first artifact in hand
    and the other three are queued. *)
Definition four_recorded : list event :=
  [ Start; Spawn 0; Read 1 (Block true); Watch 1; Work 0;
    Spawn 12; Read 2 (Block true); Watch 2;
    Spawn 24; Read 3 (Block true); Watch 3;
    Spawn 36; Read 4 (Block true); Watch 4 ].

(** Block reads of 64 ms, the first one 10 ms after the start: the time of
    the [k]-th read, and the reads that the segments [segs] (thread and
    start time) finish at that time, each with the outcome of the test
    [time.time() - start >= D]. *)
Definition tick (k : nat) : Z := (10 + 64 * Z.of_nat k)%Z.

Definition reads (D : Z) (segs : list (nat * Z)) (k : nat) : list stamped :=
  map (fun s =>
         at_time (tick k) (Read (fst s) (Block (D <=? tick k - snd s)%Z)))
      segs.

Definition ticks (D : Z) (segs : list (nat * Z)) (from n : nat)
  : list stamped :=
  flat_map (reads D segs) (seq from n).

(** Duration 24 s, gap 12 s.  The scheduler spawns at 0 s, 12.001 s and
    24.002 s; every segment reads a block every 64 ms; the first segment
    would find its time up at the read of 24.010 s. *)
Definition double_gap : list stamped :=
  [ at_time 0 Start; at_time 0 (Spawn 0) ]
  ++ ticks 24000 [(1, 0%Z)] 0 188
  ++ [ at_time 12001 (Spawn 12001) ]
  ++ ticks 24000 [(1, 0%Z); (2, 12001%Z)] 188 187
  ++ [ at_time 24002 (Spawn 24002) ].

(** Duration 15 s, gap 12 s.  The first segment finds its time up at the
    read of 15.050 s and is collected by its watcher 10 ms later. *)
Definition default_pace : list stamped :=
  [ at_time 0 Start; at_time 0 (Spawn 0) ]
  ++ ticks 15000 [(1, 0%Z)] 0 188
  ++ [ at_time 12001 (Spawn 12001) ]
  ++ ticks 15000 [(1, 0%Z); (2, 12001%Z)] 188 48
  ++ [ at_time 15060 (Watch 1) ]
  ++ ticks 15000 [(2, 12001%Z)] 236 139
  ++ [ at_time 24002 (Spawn 24002) ].

(** A formatter that ends the text with a full stop, and one that is rate
    limited. *)
Definition polish (k : nat) (t : str) : formatting :=
  Formatted (t ++ lit ".").

Definition refuse (k : nat) (t : str) : formatting := FormatRateLimit.

(** One segment is dictated and transcribed; the session is recording. *)
Definition dictated : list action :=
  [ StartRecording "transcribe"; Scheduler 0; SegmentRead 1 (Block true);
    Watcher 1; Worker 0; Worker 0 ].

End Demo.

(* ================================================================= *)
(** * Properties *)

(** ** The order on keys and the stable sort *)

Section SortFacts.
Variable A : Type.
Implicit Types (x y : key * A) (l : list (key * A)).

Lemma key_leb_refl (k : key) : key_leb k k = true.
Proof. destruct k; simpl; auto using Z.leb_refl. Qed.

Lemma key_leb_total (a b : key) : key_leb a b = true \/ key_leb b a = true.
Proof.
  destruct a, b; simpl; auto.
  destruct (Z.leb_spec t t0); [left | right; apply Z.leb_le; lia]; auto.
Qed.

Lemma key_leb_trans (a b c : key) :
  key_leb a b = true -> key_leb b c = true -> key_leb a c = true.
Proof.
  destruct a, b, c; simpl; auto; try discriminate.
  rewrite !Z.leb_le; lia.
Qed.


Lemma insert_by_key_perm x l : Permutation (insert_by_key x l) (x :: l).
Proof.
  induction l as [|y l IH]; simpl; auto.
  destruct (key_leb (fst x) (fst y)); auto.
  rewrite IH. apply perm_swap.
Qed.

Lemma sorted_perm l : Permutation (sorted l) l.
Proof.
  induction l as [|x l IH]; simpl; auto.
  rewrite insert_by_key_perm. auto.
Qed.




End SortFacts.

(** ** Which fields an operation leaves alone *)

Ltac unfold_setters :=
  unfold set_files, set_next_tmp, set_transcript_file, set_llm_calls,
    set_deleted, set_slept, set_stop_all, set_scheduler, set_active,
    set_paused, set_pending_queue, set_results, set_transcriber_thread,
    set_workers, set_next_id, set_stop_event, set_frames, set_seg_alive,
    set_file_path in *.

Ltac break_match :=
  match goal with
  | |- context [match ?x with _ => _ end] => destruct x eqn:?
  | |- context [if ?x then _ else _] => destruct x eqn:?
  end.

Ltac frame_step :=
  first
    [ progress unfold_setters
    | progress simpl
    | break_match
    | split ].

Ltac frame := intros; repeat frame_step; auto.

Lemma same_text_refl st : same_text st st.
Proof. split; auto. Qed.

Lemma same_text_trans a b c : same_text a b -> same_text b c -> same_text a c.
Proof. unfold same_text; intuition congruence. Qed.

Lemma unlink_text p st : same_text (unlink p st) st.
Proof. unfold same_text, unlink. frame. Qed.

Lemma put_text it st : same_text (put it st) st.
Proof. unfold same_text, put. frame. Qed.

Lemma sleep_text n st : same_text (sleep n st) st.
Proof. unfold same_text, sleep. frame. Qed.

Lemma transcribe_attempts_text n : forall a p st,
  same_text (snd (transcribe_attempts n a p st)) st.
Proof.
  induction n as [|n IH]; intros a p st; simpl.
  - apply same_text_refl.
  - destruct (llm st (List.length (llm_calls st)) p); simpl.
    + split; auto.
    + destruct (a =? _)%Z; simpl; [split; auto|].
      eapply same_text_trans; [apply IH|]. split; auto.
    + destruct (a =? _)%Z; simpl; [split; auto|].
      eapply same_text_trans; [apply IH|]. split; auto.
Qed.

Lemma transcribe_single_text p st :
  same_text (snd (_transcribe_single p st)) st.
Proof. apply transcribe_attempts_text. Qed.

Lemma finalize_text seg st : same_text (snd (finalize seg st)) st.
Proof. unfold same_text, finalize. frame. Qed.

Lemma segment_iter_text r seg st : same_text (snd (segment_iter r seg st)) st.
Proof. unfold same_text, segment_iter, finalize. frame. Qed.

Lemma stop_and_join_text seg st : same_text (snd (stop_and_join seg st)) st.
Proof. unfold same_text, stop_and_join, finalize. frame. Qed.

Lemma file_segment_text seg st : same_text (file_segment seg st) st.
Proof. unfold same_text, file_segment, put. frame. Qed.

Lemma flush_segments_text segs : forall st,
  same_text (flush_segments segs st) st.
Proof.
  induction segs as [|seg segs IH]; intros st; simpl.
  - apply same_text_refl.
  - destruct (stop_and_join seg st) as [seg' st1] eqn:E.
    eapply same_text_trans; [apply IH|].
    eapply same_text_trans; [apply file_segment_text|].
    replace st1 with (snd (stop_and_join seg st)) by (rewrite E; auto).
    apply stop_and_join_text.
Qed.

Lemma stop_active_segments_text st : same_text (_stop_active_segments st) st.
Proof.
  unfold _stop_active_segments.
  eapply same_text_trans; [apply flush_segments_text|]. split; auto.
Qed.

Lemma schedule_exit_text st : same_text (schedule_exit st) st.
Proof.
  unfold schedule_exit. destruct (running st && _stop_all st).
  - eapply same_text_trans; [|apply stop_active_segments_text]. split; auto.
  - apply same_text_refl.
Qed.

Lemma schedule_spawn_text now st : same_text (schedule_spawn now st) st.
Proof. unfold same_text, schedule_spawn. frame. Qed.

Lemma segment_read_text id r st : same_text (segment_read id r st) st.
Proof.
  unfold segment_read. destruct (find_segment id st) as [seg|].
  - destruct (segment_iter r seg st) as [seg' st'] eqn:E.
    eapply same_text_trans with st'; [split; auto|].
    replace st' with (snd (segment_iter r seg st)) by (rewrite E; auto).
    apply segment_iter_text.
  - apply same_text_refl.
Qed.

Lemma watch_segment_text id st : same_text (_watch_segment id st) st.
Proof.
  unfold _watch_segment. destruct (find_segment id st) as [seg|].
  - destruct (seg_alive seg); [apply same_text_refl|].
    eapply same_text_trans; [apply file_segment_text|]. split; auto.
  - apply same_text_refl.
Qed.

Lemma worker_take_text tid st : same_text (worker_take tid st) st.
Proof.
  unfold same_text, worker_take, end_worker, set_worker. frame.
Qed.

Lemma discard_segments_text segs : forall st,
  same_text (discard_segments segs st) st.
Proof.
  induction segs as [|seg segs IH]; intros st; simpl.
  - apply same_text_refl.
  - destruct (stop_and_join seg st) as [seg' st1] eqn:E.
    eapply same_text_trans; [apply IH|].
    assert (H1 : same_text st1 st).
    { replace st1 with (snd (stop_and_join seg st)) by (rewrite E; auto).
      apply stop_and_join_text. }
    destruct (file_path seg'); auto.
    destruct (file_exists p st1); auto.
    eapply same_text_trans; [apply unlink_text|auto].
Qed.

Lemma drain_queue_text fuel : forall st, same_text (drain_queue fuel st) st.
Proof.
  induction fuel as [|f IH]; intros st; simpl.
  - apply same_text_refl.
  - destruct (pq_get (_pending_queue st)) as [[[k [p|]] q]|].
    + eapply same_text_trans; [apply IH|].
      eapply same_text_trans; [apply unlink_text|]. split; auto.
    + eapply same_text_trans; [apply IH|]. split; auto.
    + apply same_text_refl.
Qed.

Lemma discard_queue_text fuel : forall st,
  same_text (discard_queue fuel st) st.
Proof.
  induction fuel as [|f IH]; intros st; simpl.
  - apply same_text_refl.
  - destruct (pq_get (_pending_queue st)) as [[it q]|].
    + eapply same_text_trans; [apply IH|]. split; auto.
    + apply same_text_refl.
Qed.

Lemma spawn_worker_text st : same_text (spawn_worker st) st.
Proof. unfold same_text, spawn_worker. frame. Qed.

(** ** The transcript is the sorted join of the result set *)


Lemma sorted_length A (l : list (key * A)) :
  List.length (sorted l) = List.length l.
Proof. apply Permutation_length, sorted_perm. Qed.

Lemma write_transcript_spec st :
  _results st <> [] ->
  transcript_file (_write_transcript st)
  = Some (written (transcript_of (_results st)))
  /\ _results (_write_transcript st) = _results st
  /\ _write_transcript_raises st
     = negb (encodable (transcript_of (_results st))).
Proof.
  intros Hne. unfold _write_transcript, _write_transcript_raises, transcript_of.
  destruct (map snd (sorted (_results st))) eqn:E.
  - exfalso. apply Hne. apply (f_equal (@List.length _)) in E.
    rewrite length_map, sorted_length in E.
    destruct (_results st); auto; discriminate.
  - repeat split; auto.
Qed.

Lemma write_transcript_text st :
  _results (_write_transcript st) = _results st.
Proof.
  unfold _write_transcript. destruct (map snd _); reflexivity.
Qed.

(** The loop body: the entry and the write, and then the [unlink] unless
    the write has raised. *)
Lemma process_item_eq k p st :
  process_item k p st =
  let (text, st1) := _transcribe_single p st in
  let st2 :=
    if truthy text
    then _write_transcript
           (set_results (_results st1 ++ [(k, strip text)]) st1)
    else st1 in
  if process_item_raises k p st then st2 else unlink p st2.
Proof.
  unfold process_item, process_item_raises.
  destruct (_transcribe_single p st) as [text st1].
  destruct (truthy text); [|reflexivity].
  destruct (_write_transcript_raises _); reflexivity.
Qed.

Lemma process_item_results k p st :
  _results (process_item k p st) =
  let text := fst (_transcribe_single p st) in
  if truthy text then _results st ++ [(k, strip text)] else _results st.
Proof.
  rewrite process_item_eq.
  pose proof (transcribe_single_text p st) as [Hr Ht].
  destruct (_transcribe_single p st) as [text st1]; simpl in *.
  set (st2 := if truthy text then _ else st1).
  assert (E : _results st2
              = if truthy text then _results st ++ [(k, strip text)]
                else _results st).
  { unfold st2. destruct (truthy text); [|exact Hr].
    rewrite write_transcript_text. simpl. rewrite Hr. reflexivity. }
  destruct (process_item_raises k p st); [exact E|].
  destruct (unlink_text p st2) as [-> _]. exact E.
Qed.


Lemma set_worker_text tid h st : same_text (set_worker tid h st) st.
Proof. split; auto. Qed.

Lemma end_worker_text tid st : same_text (end_worker tid st) st.
Proof. split; auto. Qed.

Lemma worker_process_text tid k p st :
  worker_state tid st = Some (Some (k, p)) ->
  same_text (worker_process tid st) (process_item k p st).
Proof.
  intros Hw. unfold worker_process. rewrite Hw.
  destruct (process_item_raises k p st); split; reflexivity.
Qed.





Lemma start_results st : running st = false -> _results (start st) = []
  /\ transcript_file (start st) = None.
Proof.
  intros Hr. unfold start. rewrite Hr. cbv zeta.
  set (st2 := set_results [] _).
  assert (H : same_text (set_scheduler (Some true)
                (spawn_worker (discard_queue (List.length (_pending_queue st2)) st2)))
              st2).
  { apply same_text_trans with
      (b := spawn_worker (discard_queue (List.length (_pending_queue st2)) st2));
      [split; reflexivity|].
    eapply same_text_trans; [apply spawn_worker_text|].
    apply discard_queue_text. }
  destruct H as [-> ->]. subst st2. split; [reflexivity|].
  unfold clear_transcript.
  destruct (transcript_file (set_stop_all false (set_paused false st))) eqn:E;
    [reflexivity | exact E].
Qed.


Lemma resume_text st : same_text (resume st) st.
Proof.
  unfold resume. destruct (running st); [apply same_text_refl|].
  destruct (_paused st); simpl; [|apply same_text_refl].
  destruct (_transcriber_thread st) as [tid|]; simpl.
  - unfold worker_alive; simpl. destruct (existsb _ _); split; auto.
  - split; auto.
Qed.

Lemma cancel_results during budget st :
  _results (cancel during budget st) = []
  /\ transcript_file (cancel during budget st) = None.
Proof.
  unfold cancel. cbv zeta. set (st5 := join_transcriber _ _).
  unfold clear_transcript.
  destruct (transcript_file (set_results [] st5)) eqn:E;
    split; try reflexivity; exact E.
Qed.



(** ** Text that UTF-8 can encode *)





(** ** With no entry the transcript is the old one, or is not there *)








(** ** C1 *)




(** ** The retry budget *)

Lemma repeat_snoc (p : path) m : repeat p m ++ [p] = p :: repeat p m.
Proof. induction m; simpl; congruence. Qed.

Lemma attempts_bounded n : forall a p st,
  exists m, m <= n /\
    llm_calls (snd (transcribe_attempts n a p st)) = llm_calls st ++ repeat p m.
Proof.
  induction n as [|n IH]; intros a p st; simpl.
  - exists 0. rewrite app_nil_r. auto.
  - set (st1 := set_llm_calls (llm_calls st ++ [p]) st).
    assert (Hone : llm_calls st1 = llm_calls st ++ repeat p 1) by reflexivity.
    assert (Hrec : forall a' s, llm_calls s = llm_calls st1 ->
      exists m, m <= S n /\
        llm_calls (snd (transcribe_attempts n a' p s)) =
        llm_calls st ++ repeat p m).
    { intros a' s Hs. destruct (IH a' p s) as [m [Hm E]].
      exists (S m). split; [lia|].
      rewrite E, Hs, Hone. simpl. rewrite <- app_assoc. reflexivity. }
    destruct (llm st (List.length (llm_calls st)) p).
    + exists 1. split; [lia | exact Hone].
    + destruct (a =? max_retries st)%Z.
      * exists 1. split; [lia | exact Hone].
      * apply Hrec. reflexivity.
    + destruct (a =? max_retries st)%Z.
      * exists 1. split; [lia | exact Hone].
      * apply Hrec. reflexivity.
Qed.

(** [j] failures in a row, none of them on the last permitted attempt, then
    an answer. *)
Lemma attempts_recover j : forall n a p st t,
  j < n -> (a + Z.of_nat j <= max_retries st)%Z ->
  (forall i, i < j ->
     fails (llm st (List.length (llm_calls st) + i) p) = true) ->
  llm st (List.length (llm_calls st) + j) p = Text t ->
  fst (transcribe_attempts n a p st) = or_empty t /\
  llm_calls (snd (transcribe_attempts n a p st))
    = llm_calls st ++ repeat p (S j).
Proof.
  induction j as [|j IH]; intros n a p st t Hn Ha Hf Ht;
    (destruct n as [|n]; [lia|]); simpl.
  - rewrite Nat.add_0_r in Ht. rewrite Ht. simpl. auto.
  - pose proof (Hf 0 ltac:(lia)) as H0. rewrite Nat.add_0_r in H0.
    set (st1 := set_llm_calls (llm_calls st ++ [p]) st).
    assert (Hrec : forall d,
      fst (transcribe_attempts n (a + 1) p (sleep d st1)) = or_empty t /\
      llm_calls (snd (transcribe_attempts n (a + 1) p (sleep d st1)))
        = llm_calls st ++ repeat p (S (S j))).
    { intros d.
      assert (Hlen : List.length (llm_calls (sleep d st1))
                     = S (List.length (llm_calls st))).
      { simpl. rewrite length_app. simpl. lia. }
      destruct (IH n (a + 1)%Z p (sleep d st1) t) as [E1 E2].
      - lia.
      - simpl. lia.
      - intros i Hi. rewrite Hlen. simpl.
        specialize (Hf (S i) ltac:(lia)).
        rewrite Nat.add_succ_r in Hf. exact Hf.
      - rewrite Hlen. simpl. rewrite Nat.add_succ_r in Ht. exact Ht.
      - split; [exact E1|]. rewrite E2. simpl.
        rewrite <- app_assoc. reflexivity. }
    assert (Hne : (a =? max_retries st)%Z = false) by (apply Z.eqb_neq; lia).
    destruct (llm st (List.length (llm_calls st)) p);
      [discriminate | rewrite Hne; apply Hrec | rewrite Hne; apply Hrec].
Qed.

(** Every attempt fails: the budget is spent and [""] is returned. *)
Lemma attempts_exhaust n : forall a p st,
  (Z.of_nat n <= max_retries st - a + 1)%Z ->
  (forall i, fails (llm st (List.length (llm_calls st) + i) p) = true) ->
  fst (transcribe_attempts n a p st) = [] /\
  llm_calls (snd (transcribe_attempts n a p st)) = llm_calls st ++ repeat p n.
Proof.
  induction n as [|n IH]; intros a p st Hn Hf; simpl.
  - rewrite app_nil_r. auto.
  - pose proof (Hf 0) as H0. rewrite Nat.add_0_r in H0.
    set (st1 := set_llm_calls (llm_calls st ++ [p]) st).
    assert (Hrec : forall d, (a =? max_retries st)%Z = false ->
      fst (transcribe_attempts n (a + 1) p (sleep d st1)) = [] /\
      llm_calls (snd (transcribe_attempts n (a + 1) p (sleep d st1)))
        = llm_calls st ++ p :: repeat p n).
    { intros d Hne. apply Z.eqb_neq in Hne.
      assert (Hlen : List.length (llm_calls (sleep d st1))
                     = S (List.length (llm_calls st))).
      { simpl. rewrite length_app. simpl. lia. }
      destruct (IH (a + 1)%Z p (sleep d st1)) as [E1 E2].
      - simpl. lia.
      - intros i. rewrite Hlen. simpl.
        specialize (Hf (S i)). rewrite Nat.add_succ_r in Hf. exact Hf.
      - split; [exact E1|]. rewrite E2. simpl.
        rewrite <- app_assoc. reflexivity. }
    assert (Hlast : (a =? max_retries st)%Z = true ->
                    llm_calls st1 = llm_calls st ++ p :: repeat p n).
    { intros E. apply Z.eqb_eq in E.
      assert (n = 0) as -> by lia. reflexivity. }
    destruct (llm st (List.length (llm_calls st)) p); [discriminate| |];
      destruct (a =? max_retries st)%Z eqn:E; simpl; auto.
Qed.

(** The retry loop touches the request log and the time slept, nothing
    else. *)
Lemma transcribe_attempts_shape n : forall a p st,
  let st' := snd (transcribe_attempts n a p st) in
  st' = set_slept (slept st') (set_llm_calls (llm_calls st') st).
Proof.
  induction n as [|n IH]; intros a p st; simpl.
  - destruct st; reflexivity.
  - set (st1 := set_llm_calls (llm_calls st ++ [p]) st).
    assert (H1 : st1 = set_slept (slept st1) (set_llm_calls (llm_calls st1) st))
      by (destruct st; reflexivity).
    assert (Hrec : forall d,
      let X := snd (transcribe_attempts n (a + 1) p (sleep d st1)) in
      X = set_slept (slept X) (set_llm_calls (llm_calls X) st)).
    { intros d X. etransitivity; [apply IH|]. fold X.
      destruct st; reflexivity. }
    destruct (llm st (List.length (llm_calls st)) p); simpl; auto;
      destruct (a =? max_retries st)%Z; simpl; auto; apply Hrec.
Qed.

Lemma transcribe_single_shape p st :
  let st' := snd (_transcribe_single p st) in
  st' = set_slept (slept st') (set_llm_calls (llm_calls st') st).
Proof. apply transcribe_attempts_shape. Qed.

Lemma write_transcript_shape st :
  _write_transcript st
  = set_transcript_file (transcript_file (_write_transcript st)) st.
Proof.
  unfold _write_transcript. destruct (map snd (sorted (_results st)));
    destruct st; reflexivity.
Qed.

Lemma write_transcript_results st :
  _results (_write_transcript st) = _results st.
Proof. rewrite write_transcript_shape. reflexivity. Qed.

Lemma unlink_shape p st :
  unlink p st = set_deleted (deleted (unlink p st))
                  (set_files (remove Nat.eq_dec p (files st)) st).
Proof.
  unfold unlink, file_exists.
  destruct (existsb (Nat.eqb p) (files st)) eqn:E.
  - destruct st; reflexivity.
  - rewrite notin_remove; [destruct st; reflexivity|].
    intros Hin.
    assert (existsb (Nat.eqb p) (files st) = true); [|congruence].
    apply existsb_exists. exists p. split; auto. apply Nat.eqb_refl.
Qed.

(** What processing one item changes: the request log and the time slept
    (the retry loop), the result set and the transcript (on a non-empty
    text), the artifact and the log of deletions. *)
Lemma process_item_shape k p st :
  let st' := process_item k p st in
  st' = set_deleted (deleted st')
          (set_files (files st')
             (set_transcript_file (transcript_file st')
                (set_results (_results st')
                   (set_slept (slept st')
                      (set_llm_calls (llm_calls st') st))))).
Proof.
  rewrite process_item_eq.
  pose proof (transcribe_single_shape p st) as Hs.
  destruct (_transcribe_single p st) as [text st1]. simpl in Hs.
  remember (slept st1) as S1 eqn:HS. remember (llm_calls st1) as C1 eqn:HC.
  clear HS HC. subst st1. cbv zeta.
  set (st2 := if truthy text then _ else _).
  assert (E2 : exists T R,
    st2 = set_transcript_file T
            (set_results R (set_slept S1 (set_llm_calls C1 st)))).
  { unfold st2. destruct (truthy text).
    - rewrite write_transcript_shape.
      match goal with
      | |- context [transcript_file (_write_transcript ?X)] =>
          exists (transcript_file (_write_transcript X))
      end.
      eexists. destruct st; reflexivity.
    - exists (transcript_file st), (_results st). destruct st; reflexivity. }
  clearbody st2. destruct E2 as (T & R & ->).
  destruct (process_item_raises k p st).
  - destruct st; reflexivity.
  - rewrite unlink_shape.
    match goal with
    | |- context [deleted (unlink p ?Y)] => generalize (deleted (unlink p Y))
    end.
    intros D. destruct st; reflexivity.
Qed.

Lemma process_item_calls k p st :
  llm_calls (process_item k p st) = llm_calls (snd (_transcribe_single p st)).
Proof.
  rewrite process_item_eq. destruct (_transcribe_single p st) as [text st1].
  cbv zeta. set (st2 := if truthy text then _ else _).
  assert (E : llm_calls st2 = llm_calls st1).
  { unfold st2.
    destruct (truthy text); [rewrite write_transcript_shape|]; reflexivity. }
  destruct (process_item_raises k p st); [|rewrite unlink_shape]; exact E.
Qed.

Lemma process_item_transcript k p st :
  transcript_file (process_item k p st) =
  let text := fst (_transcribe_single p st) in
  if truthy text
  then Some (written (transcript_of (_results st ++ [(k, strip text)])))
  else transcript_file st.
Proof.
  rewrite process_item_eq.
  pose proof (transcribe_single_text p st) as [Hr1 Ht1].
  destruct (_transcribe_single p st) as [text st1]. simpl in *.
  set (st2 := if truthy text then _ else _).
  assert (E : transcript_file st2
              = if truthy text
                then Some (written
                             (transcript_of (_results st ++ [(k, strip text)])))
                else transcript_file st).
  { unfold st2. destruct (truthy text); [|exact Ht1].
    set (st3 := set_results _ st1).
    assert (Hne : _results st3 <> []).
    { simpl. destruct (_results st1); discriminate. }
    destruct (write_transcript_spec st3 Hne) as [-> _].
    simpl. rewrite Hr1. reflexivity. }
  destruct (process_item_raises k p st); [|rewrite unlink_shape]; exact E.
Qed.

(** The loop body raises when the text it has recorded makes a transcript
    that UTF-8 cannot encode. *)
Lemma process_item_raises_spec k p st :
  process_item_raises k p st =
  let text := fst (_transcribe_single p st) in
  truthy text
  && negb (encodable (transcript_of (_results st ++ [(k, strip text)]))).
Proof.
  unfold process_item_raises.
  pose proof (transcribe_single_text p st) as [Hr1 _].
  destruct (_transcribe_single p st) as [text st1]. simpl in *.
  destruct (truthy text); [|reflexivity].
  set (st3 := set_results _ st1).
  assert (Hne : _results st3 <> []).
  { simpl. destruct (_results st1); discriminate. }
  destruct (write_transcript_spec st3 Hne) as (_ & _ & ->).
  simpl. rewrite Hr1. reflexivity.
Qed.

(** The artifact is unlinked unless the loop body has raised. *)
Lemma process_item_storage k p st :
  files (process_item k p st)
  = (if process_item_raises k p st then files st
     else remove Nat.eq_dec p (files st))
  /\ (process_item_raises k p st = true ->
      deleted (process_item k p st) = deleted st).
Proof.
  rewrite process_item_eq.
  pose proof (transcribe_single_shape p st) as Hs.
  destruct (_transcribe_single p st) as [text st1]. simpl in Hs.
  cbv zeta. set (st2 := if truthy text then _ else _).
  assert (E : files st2 = files st /\ deleted st2 = deleted st).
  { unfold st2. destruct (truthy text);
      [rewrite write_transcript_shape|]; rewrite Hs; split; reflexivity. }
  destruct E as [Ef Ed].
  destruct (process_item_raises k p st).
  - auto.
  - rewrite unlink_shape. simpl. rewrite Ef. split; [reflexivity|discriminate].
Qed.

Lemma process_item_workers k p st : workers (process_item k p st) = workers st.
Proof. rewrite process_item_shape. reflexivity. Qed.

Lemma worker_state_set_worker tid h st :
  worker_state tid st <> None ->
  worker_state tid (set_worker tid h st) = Some h.
Proof.
  unfold worker_state, set_worker. simpl.
  induction (workers st) as [|[t w] l IH]; simpl; intros H.
  - contradiction.
  - destruct (Nat.eqb t tid) eqn:E; simpl.
    + rewrite Nat.eqb_refl. reflexivity.
    + rewrite E. auto.
Qed.

Lemma worker_state_end_worker tid st :
  worker_state tid (end_worker tid st) = None.
Proof.
  unfold worker_state, end_worker. simpl.
  induction (workers st) as [|[t w] l IH]; simpl; auto.
  destruct (Nat.eqb t tid) eqn:E; simpl; auto.
  rewrite E. auto.
Qed.

(** ** C3 *)




(** ** What the capture side and the worker may change *)

Ltac hide_fields X :=
  generalize (files X) (next_tmp X) (transcript_file X) (llm_calls X)
    (deleted X) (slept X) (_stop_all X) (_scheduler X) (_active X) (_paused X)
    (_pending_queue X) (_results X) (_transcriber_thread X) (workers X)
    (next_id X);
  intros.

Lemma copy_capture_id st : copy_capture st st = st.
Proof. destruct st; reflexivity. Qed.

Lemma copy_work_id st : copy_work st st = st.
Proof. destruct st; reflexivity. Qed.

Lemma finalize_shape seg st :
  snd (finalize seg st) = copy_capture (snd (finalize seg st)) st.
Proof. unfold finalize. destruct (Nat.eqb _ _); destruct st; reflexivity. Qed.

Lemma stop_and_join_shape seg st :
  snd (stop_and_join seg st) = copy_capture (snd (stop_and_join seg st)) st.
Proof.
  unfold stop_and_join. destruct (seg_alive _);
    [apply finalize_shape | destruct st; reflexivity].
Qed.

Lemma segment_iter_shape r seg st :
  snd (segment_iter r seg st) = copy_capture (snd (segment_iter r seg st)) st.
Proof.
  unfold segment_iter.
  destruct (negb _); [destruct st; reflexivity|].
  destruct (stop_event seg); [apply finalize_shape|].
  destruct r as [[|]|]; try apply finalize_shape; destruct st; reflexivity.
Qed.

Lemma file_segment_shape seg st :
  file_segment seg st = copy_capture (file_segment seg st) st.
Proof.
  unfold file_segment. destruct (file_path seg); [|destruct st; reflexivity].
  destruct (file_exists _ _); destruct st; reflexivity.
Qed.

Lemma flush_segments_shape segs : forall st,
  flush_segments segs st = copy_capture (flush_segments segs st) st.
Proof.
  induction segs as [|seg segs IH]; intros st; simpl.
  - destruct st; reflexivity.
  - pose proof (stop_and_join_shape seg st) as H1.
    destruct (stop_and_join seg st) as [seg' st1]. simpl in H1.
    pose proof (file_segment_shape seg' st1) as H2.
    etransitivity; [apply IH|].
    hide_fields (flush_segments segs (file_segment seg' st1)).
    rewrite H2. hide_fields (file_segment seg' st1).
    rewrite H1. destruct st; reflexivity.
Qed.

Lemma discard_segments_shape segs : forall st,
  discard_segments segs st = copy_capture (discard_segments segs st) st.
Proof.
  induction segs as [|seg segs IH]; intros st; simpl.
  - destruct st; reflexivity.
  - pose proof (stop_and_join_shape seg st) as H1.
    destruct (stop_and_join seg st) as [seg' st1]. simpl in H1.
    etransitivity; [apply IH|].
    match goal with |- copy_capture ?X _ = _ => hide_fields X end.
    destruct (file_path seg') as [p|];
      [destruct (file_exists p st1); [rewrite unlink_shape|]|];
      rewrite H1; destruct st; reflexivity.
Qed.

Lemma drain_queue_shape fuel : forall st,
  drain_queue fuel st = copy_capture (drain_queue fuel st) st.
Proof.
  induction fuel as [|f IH]; intros st; simpl.
  - destruct st; reflexivity.
  - destruct (pq_get (_pending_queue st)) as [[[k [p|]] q]|];
      try (destruct st; reflexivity);
      (etransitivity; [apply IH|]);
      match goal with |- copy_capture ?X _ = _ => hide_fields X end;
      try rewrite unlink_shape; destruct st; reflexivity.
Qed.

Lemma worker_take_shape tid st :
  worker_take tid st = copy_work (worker_take tid st) st.
Proof.
  unfold worker_take, end_worker, set_worker.
  repeat break_match; destruct st; reflexivity.
Qed.

Lemma worker_process_shape tid st :
  worker_process tid st = copy_work (worker_process tid st) st.
Proof.
  unfold worker_process, set_worker, end_worker.
  destruct (worker_state tid st) as [[[k p]|]|]; try (destruct st; reflexivity).
  pose proof (process_item_shape k p st) as H. cbv zeta in H.
  remember (process_item k p st) as X eqn:HX. clear HX.
  destruct (process_item_raises k p st);
    rewrite H; hide_fields X; destruct st; reflexivity.
Qed.

Lemma worker_step_shape tid st :
  worker_step tid st = copy_work (worker_step tid st) st.
Proof.
  unfold worker_step.
  destruct (worker_state tid st) as [[|]|];
    auto using worker_process_shape, worker_take_shape.
  destruct st; reflexivity.
Qed.

Lemma join_worker_shape budget : forall tid st,
  join_worker budget tid st = copy_work (join_worker budget tid st) st.
Proof.
  induction budget as [|b IH]; intros tid st; simpl.
  - destruct st; reflexivity.
  - destruct (worker_alive tid st); [|destruct st; reflexivity].
    etransitivity; [apply IH|].
    match goal with |- copy_work ?X _ = _ => hide_fields X end.
    rewrite worker_step_shape. destruct st; reflexivity.
Qed.

(** ** C6 *)

(** C6. [start()] on a session whose scheduler is alive returns the state
    it was given: transcript, result set, handoff queue and threads are the
    ones that were there. *)
Theorem start_while_recording_is_noop :
  forall st, running st = true -> start st = st.
Proof. intros st H. unfold start. rewrite H. reflexivity. Qed.

Lemma start_while_recording_is_noop_witness :
  let st := exec (init Demo.two_words 3 None) Demo.recording in
  running st = true /\ start st = st /\ List.length (_active (start st)) = 1
  /\ workers (start st) = [(0, None)].
Proof.
  intros st.
  assert (H : running st = true) by (vm_compute; reflexivity).
  split; [exact H|].
  rewrite (start_while_recording_is_noop st H).
  repeat split; vm_compute; reflexivity.
Defined.

(** ** C7 *)

Lemma finalize_frames seg st : frames (fst (finalize seg st)) = frames seg.
Proof. unfold finalize. destruct (Nat.eqb _ _); reflexivity. Qed.

Lemma segment_iter_frames r seg st :
  frames seg <= frames (fst (segment_iter r seg st)).
Proof.
  unfold segment_iter. destruct (negb _); simpl; auto.
  destruct (stop_event seg); [rewrite finalize_frames; auto|].
  destruct r as [[|]|]; simpl; try rewrite finalize_frames; simpl; auto.
Qed.

Lemma stop_and_join_frames seg st :
  frames (fst (stop_and_join seg st)) = frames seg.
Proof.
  unfold stop_and_join. destruct (seg_alive _); simpl; auto.
  rewrite finalize_frames. reflexivity.
Qed.

Lemma run_frames script : forall seg st,
  frames seg <= frames (fst (run script seg st)).
Proof.
  induction script as [|r script IH]; intros seg st; simpl.
  - rewrite stop_and_join_frames. auto.
  - pose proof (segment_iter_frames r seg st) as H.
    destruct (segment_iter r seg st) as [seg' st']. simpl in H.
    specialize (IH seg' st'). lia.
Qed.

Lemma finalize_silent seg st :
  frames seg = 0 -> file_path seg = None ->
  file_path (fst (finalize seg st)) = None /\ snd (finalize seg st) = st.
Proof. intros Hf Hp. unfold finalize. rewrite Hf. simpl. auto. Qed.

Lemma run_silent script : forall seg st,
  file_path seg = None ->
  frames (fst (run script seg st)) = 0 ->
  file_path (fst (run script seg st)) = None
  /\ seg_alive (fst (run script seg st)) = false
  /\ snd (run script seg st) = st.
Proof.
  induction script as [|r script IH]; intros seg st Hp H0; simpl in *.
  - rewrite stop_and_join_frames in H0.
    unfold stop_and_join. simpl. destruct (seg_alive seg) eqn:Ha; simpl; auto.
    unfold finalize. simpl. rewrite H0. simpl. auto.
  - pose proof (segment_iter_frames r seg st) as Hm.
    destruct (segment_iter r seg st) as [seg' st'] eqn:E. simpl in Hm.
    pose proof (run_frames script seg' st') as Hm'.
    assert (Hs : frames seg = 0) by lia.
    assert (Hs' : frames seg' = 0) by lia.
    assert (Hst : file_path seg' = None /\ st' = st).
    { unfold segment_iter in E. destruct (negb (seg_alive seg)).
      - inversion E; subst; auto.
      - destruct (stop_event seg).
        + destruct (finalize_silent seg st Hs Hp) as [A B].
          rewrite E in A, B. auto.
        + destruct r as [[|]|].
          * apply (f_equal (fun x => frames (fst x))) in E.
            rewrite finalize_frames in E. simpl in E. lia.
          * inversion E; subst. discriminate.
          * inversion E; subst; auto. }
    destruct Hst as [Hp' ->]. apply IH; auto.
Qed.

(** C7. A segment whose capture ends with no block read, whatever the
    device did, has no artifact: its [file_path] is still [None], storage
    is as it was, and neither its watcher, nor [_stop_active_segments], nor
    [cancel] files or deletes anything for it; the handoff queue, the result
    set and the transcript are what they were. *)
Theorem silent_segment_contributes_nothing :
  forall (script : list read_result) (id : nat) (now : Z) (st : State),
    let seg := fst (run script (new_segment id now) st) in
    let st' := snd (run script (new_segment id now) st) in
    frames seg = 0 ->
    file_path seg = None
    /\ st' = st
    /\ (forall s, file_segment seg s = s)
    /\ (forall s, find_segment id s = Some seg ->
          _pending_queue (_watch_segment id s) = _pending_queue s
          /\ same_text (_watch_segment id s) s
          /\ files (_watch_segment id s) = files s)
    /\ (forall s, flush_segments [seg] s = s)
    /\ (forall s, discard_segments [seg] s = s).
Proof.
  intros script id now st seg st' H0.
  destruct (@run_silent script (new_segment id now) st eq_refl H0)
    as (Hp & Ha & Hst).
  fold seg in Hp, Ha.
  assert (Hfile : forall s, file_segment seg s = s).
  { intros s. unfold file_segment. rewrite Hp. reflexivity. }
  assert (Hjoin : forall s, stop_and_join seg s = (set_stop_event true seg, s)).
  { intros s. unfold stop_and_join. simpl. rewrite Ha. reflexivity. }
  repeat split; auto.
  - unfold _watch_segment. rewrite H, Ha, Hfile. reflexivity.
  - unfold _watch_segment. rewrite H, Ha, Hfile. reflexivity.
  - unfold _watch_segment. rewrite H, Ha, Hfile. reflexivity.
  - unfold _watch_segment. rewrite H, Ha, Hfile. reflexivity.
  - intros s. simpl. rewrite Hjoin. unfold file_segment. simpl.
    rewrite Hp. reflexivity.
  - intros s. simpl. rewrite Hjoin. simpl. rewrite Hp. reflexivity.
Qed.

Lemma silent_segment_contributes_nothing_witness :
  let st := init Demo.two_words 3 None in
  file_path (fst (run [DeviceError] (new_segment 1 0) st)) = None
  /\ snd (run [DeviceError] (new_segment 1 0) st) = st.
Proof.
  intros st.
  destruct (@silent_segment_contributes_nothing [DeviceError] 1 0%Z st)
    as (H1 & H2 & _).
  - vm_compute. reflexivity.
  - split; [exact H1 | exact H2].
Defined.

(** ** The request log only grows *)

Lemma extends_refl st : extends st st.
Proof. repeat split. exists []. rewrite app_nil_r. reflexivity. Qed.

Lemma extends_trans a b c : extends a b -> extends b c -> extends a c.
Proof.
  intros (L1 & M1 & x & C1) (L2 & M2 & y & C2). repeat split; try congruence.
  exists (x ++ y). rewrite C2, C1, app_assoc. reflexivity.
Qed.

Lemma extends_capture st st' : st' = copy_capture st' st -> extends st st'.
Proof.
  intros H. rewrite H. repeat split. exists []. rewrite app_nil_r. reflexivity.
Qed.

Lemma extends_same st st' :
  llm st' = llm st -> max_retries st' = max_retries st ->
  llm_calls st' = llm_calls st -> extends st st'.
Proof.
  intros H1 H2 H3. repeat split; auto. exists []. rewrite app_nil_r. auto.
Qed.

Lemma process_item_extends k p st : extends st (process_item k p st).
Proof.
  repeat split; try (rewrite process_item_shape; reflexivity).
  rewrite process_item_calls.
  destruct (attempts_bounded (Z.to_nat (max_retries st + 1)) 0%Z p st)
    as (m & _ & E).
  exists (repeat p m). exact E.
Qed.

Lemma worker_step_extends tid st : extends st (worker_step tid st).
Proof.
  unfold worker_step, worker_process.
  destruct (worker_state tid st) as [[[k p]|]|]; try apply extends_refl.
  - eapply extends_trans; [apply process_item_extends|].
    destruct (process_item_raises k p st); apply extends_same; reflexivity.
  - apply extends_same; unfold worker_take, end_worker, set_worker;
      repeat break_match; reflexivity.
Qed.

Lemma join_worker_extends budget : forall tid st,
  extends st (join_worker budget tid st).
Proof.
  induction budget as [|b IH]; intros tid st; simpl.
  - apply extends_refl.
  - destruct (worker_alive tid st); [|apply extends_refl].
    eapply extends_trans; [apply worker_step_extends | apply IH].
Qed.

Lemma join_transcriber_extends budget st :
  extends st (join_transcriber budget st).
Proof.
  unfold join_transcriber. destruct (_transcriber_thread st) as [tid|];
    [|apply extends_refl].
  eapply extends_trans; [apply join_worker_extends|].
  apply extends_same; reflexivity.
Qed.

Lemma stop_active_segments_extends st : extends st (_stop_active_segments st).
Proof.
  unfold _stop_active_segments.
  apply extends_trans with (b := set_active [] st);
    [apply extends_same; reflexivity|].
  apply extends_capture, flush_segments_shape.
Qed.

Lemma schedule_exit_extends st : extends st (schedule_exit st).
Proof.
  unfold schedule_exit. destruct (_ && _); [|apply extends_refl].
  eapply extends_trans; [apply stop_active_segments_extends|].
  apply extends_same; reflexivity.
Qed.

Lemma shutdown_pre_extends f st :
  extends st
    (put (Inf, None)
       (_stop_active_segments
          (join_scheduler (set_stop_all true (set_paused f st))))).
Proof.
  apply extends_trans with (b := set_stop_all true (set_paused f st));
    [apply extends_same; reflexivity|].
  eapply extends_trans; [apply schedule_exit_extends|].
  eapply extends_trans; [apply stop_active_segments_extends|].
  apply extends_same; reflexivity.
Qed.

Lemma shutdown_extends f budget st : extends st (_shutdown f budget st).
Proof.
  unfold _shutdown.
  eapply extends_trans; [apply shutdown_pre_extends|].
  apply join_transcriber_extends.
Qed.

Lemma discard_queue_shape fuel : forall st,
  discard_queue fuel st = copy_capture (discard_queue fuel st) st.
Proof.
  induction fuel as [|f IH]; intros st; simpl.
  - destruct st; reflexivity.
  - destruct (pq_get (_pending_queue st)) as [[it q]|];
      [|destruct st; reflexivity].
    etransitivity; [apply IH|].
    match goal with |- copy_capture ?X _ = _ => hide_fields X end.
    destruct st; reflexivity.
Qed.

Lemma start_extends st : extends st (start st).
Proof.
  unfold start. destruct (running st); [apply extends_refl|]. cbv zeta.
  set (st2 := set_results [] _).
  apply extends_trans with (b := st2).
  { subst st2. apply extends_same; try reflexivity;
      unfold clear_transcript; simpl; destruct (transcript_file st);
      reflexivity. }
  eapply extends_trans; [apply extends_capture, discard_queue_shape|].
  apply extends_same; reflexivity.
Qed.

Lemma resume_extends st : extends st (resume st).
Proof.
  unfold resume. destruct (running st); [apply extends_refl|].
  destruct (negb (_paused st)); [apply extends_refl|]. cbv zeta.
  apply extends_same;
    (destruct (_transcriber_thread _) as [tid|]; simpl;
     [destruct (worker_alive _ _)|]; reflexivity).
Qed.

(** Steps of the workers, one after the other: what every step keeps, and
    what relates the states before and after every step. *)
Lemma run_workers_keeps (P : State -> Prop) :
  (forall tid s, P s -> P (worker_step tid s)) ->
  forall tids st, P st -> P (run_workers tids st).
Proof.
  intros H tids. unfold run_workers.
  induction tids as [|tid tids IH]; intros st Hp; simpl; auto.
Qed.

Lemma run_workers_related (R : State -> State -> Prop) :
  (forall s, R s s) ->
  (forall a b c, R a b -> R b c -> R a c) ->
  (forall tid s, R s (worker_step tid s)) ->
  forall tids st, R st (run_workers tids st).
Proof.
  intros Hr Ht Hs tids. unfold run_workers.
  induction tids as [|tid tids IH]; intros st; simpl; eauto.
Qed.

Lemma run_workers_extends tids st : extends st (run_workers tids st).
Proof.
  apply run_workers_related;
    eauto using extends_refl, extends_trans, worker_step_extends.
Qed.

Lemma cancel_pre_extends during st :
  let st0 := join_scheduler (set_stop_all true st) in
  let st1 := run_workers during st0 in
  let st2 := discard_segments (_active st1) (set_active [] st1) in
  let st3 := drain_queue (List.length (_pending_queue st2)) st2 in
  extends st (put (Inf, None) st3).
Proof.
  intros st0 st1 st2 st3.
  apply extends_trans with (b := st0).
  { apply extends_trans with (b := set_stop_all true st);
      [apply extends_same; reflexivity | apply schedule_exit_extends]. }
  apply extends_trans with (b := st1); [apply run_workers_extends|].
  apply extends_trans with (b := st2).
  { apply extends_trans with (b := set_active [] st1);
      [apply extends_same; reflexivity|].
    apply extends_capture, discard_segments_shape. }
  apply extends_trans with (b := st3);
    [apply extends_capture, drain_queue_shape|].
  apply extends_same; reflexivity.
Qed.

Lemma cancel_extends during budget st :
  extends st (cancel during budget st).
Proof.
  unfold cancel. cbv zeta.
  eapply extends_trans; [apply (cancel_pre_extends during)|]. cbv zeta.
  eapply extends_trans; [apply join_transcriber_extends|].
  apply extends_same; try reflexivity;
    unfold clear_transcript; simpl;
    match goal with |- context [match ?x with _ => _ end] => destruct x end;
    reflexivity.
Qed.

Lemma segment_read_extends id r st : extends st (segment_read id r st).
Proof.
  unfold segment_read. destruct (find_segment id st) as [seg|];
    [|apply extends_refl].
  pose proof (segment_iter_shape r seg st) as H.
  destruct (segment_iter r seg st) as [seg' st']. simpl in H.
  eapply extends_trans; [apply extends_capture, H|].
  apply extends_same; reflexivity.
Qed.

Lemma watch_segment_extends id st : extends st (_watch_segment id st).
Proof.
  unfold _watch_segment. destruct (find_segment id st) as [seg|];
    [|apply extends_refl].
  destruct (seg_alive seg); [apply extends_refl|].
  apply extends_trans with (b := set_active (remove_segment id (_active st)) st);
    [apply extends_same; reflexivity|].
  apply extends_capture, file_segment_shape.
Qed.

Lemma step_extends st e : extends st (step st e).
Proof.
  destruct e; simpl.
  - apply start_extends.
  - apply resume_extends.
  - unfold pause. destruct (running st);
      [apply shutdown_extends | apply extends_refl].
  - apply shutdown_extends.
  - apply cancel_extends.
  - unfold schedule_spawn. destruct (_ && _);
      [apply extends_same; reflexivity | apply extends_refl].
  - apply segment_read_extends.
  - apply watch_segment_extends.
  - apply worker_step_extends.
Qed.

Lemma exec_extends es : forall st, extends st (exec st es).
Proof.
  induction es as [|e es IH]; intros st; simpl.
  - apply extends_refl.
  - eapply extends_trans; [apply step_extends | apply IH].
Qed.

(** ** Requests that come back empty leave the session blank *)

Lemma quiet_from_mono n m st : n <= m -> quiet_from n st -> quiet_from m st.
Proof. intros H Q i p Hi. apply Q. lia. Qed.

Lemma quiet_from_prefix n st st' :
  extends st st' -> quiet_from n st' -> quiet_from n st.
Proof.
  intros (L & _ & x & C) Q i p Hi Hn. rewrite <- L. apply Q; auto.
  rewrite C. rewrite nth_error_app1; auto.
  apply nth_error_Some. congruence.
Qed.

Lemma extends_length st st' :
  extends st st' -> List.length (llm_calls st) <= List.length (llm_calls st').
Proof. intros (_ & _ & x & C). rewrite C, length_app. lia. Qed.

Lemma attempts_quiet n : forall a p st,
  quiet_from (List.length (llm_calls st)) (snd (transcribe_attempts n a p st)) ->
  fst (transcribe_attempts n a p st) = [].
Proof.
  induction n as [|n IH]; intros a p st Q; simpl in *; auto.
  set (st1 := set_llm_calls (llm_calls st ++ [p]) st) in *.
  assert (Hrec : forall d,
    quiet_from (List.length (llm_calls st))
      (snd (transcribe_attempts n (a + 1) p (sleep d st1))) ->
    fst (transcribe_attempts n (a + 1) p (sleep d st1)) = []).
  { intros d Q'. apply IH. eapply quiet_from_mono; [|exact Q'].
    simpl. rewrite length_app. lia. }
  destruct (llm st (List.length (llm_calls st)) p) eqn:E; simpl in *.
  - specialize (Q (List.length (llm_calls st)) p (le_n _)).
    simpl in Q. rewrite nth_error_app2, Nat.sub_diag in Q by lia.
    rewrite E in Q. apply Q. reflexivity.
  - destruct (a =? max_retries st)%Z; simpl in *; auto.
  - destruct (a =? max_retries st)%Z; simpl in *; auto.
Qed.

Lemma process_item_blank k p st :
  blank st ->
  quiet_from (List.length (llm_calls st)) (process_item k p st) ->
  blank (process_item k p st).
Proof.
  intros [Hr Ht] Q.
  assert (E : fst (_transcribe_single p st) = []).
  { apply attempts_quiet. intros i q Hi Hn.
    pose proof (transcribe_single_shape p st) as Hs. cbv zeta in Hs.
    fold (_transcribe_single p st) in *.
    rewrite Hs. simpl.
    replace (llm st) with (llm (process_item k p st))
      by (rewrite process_item_shape; reflexivity).
    apply Q; auto. rewrite process_item_calls. exact Hn. }
  split.
  - rewrite process_item_results. cbv zeta. rewrite E. exact Hr.
  - rewrite process_item_transcript. cbv zeta. rewrite E. exact Ht.
Qed.

Lemma blank_same_text a b : same_text a b -> blank b -> blank a.
Proof. intros [R T] [Hr Ht]. split; congruence. Qed.

Lemma worker_step_blank tid st :
  blank st ->
  quiet_from (List.length (llm_calls st)) (worker_step tid st) ->
  blank (worker_step tid st).
Proof.
  intros B Q. unfold worker_step, worker_process in *.
  destruct (worker_state tid st) as [[[k p]|]|]; auto.
  - destruct (process_item_raises k p st);
      (eapply blank_same_text;
       [first [apply end_worker_text | apply set_worker_text]|]);
      apply process_item_blank; auto.
  - eapply blank_same_text; [apply worker_take_text|auto].
Qed.

Lemma join_worker_blank budget : forall tid st,
  blank st ->
  quiet_from (List.length (llm_calls st)) (join_worker budget tid st) ->
  blank (join_worker budget tid st).
Proof.
  induction budget as [|b IH]; intros tid st B Q; simpl in *; auto.
  destruct (worker_alive tid st); auto.
  apply IH.
  - apply worker_step_blank; auto.
    eapply quiet_from_prefix; [apply join_worker_extends | exact Q].
  - eapply quiet_from_mono; [|exact Q].
    apply extends_length, worker_step_extends.
Qed.

Lemma join_transcriber_blank budget st :
  blank st ->
  quiet_from (List.length (llm_calls st)) (join_transcriber budget st) ->
  blank (join_transcriber budget st).
Proof.
  intros B Q. unfold join_transcriber in *.
  destruct (_transcriber_thread st) as [tid|]; auto.
  eapply blank_same_text with (b := join_worker budget tid st);
    [split; reflexivity|].
  apply join_worker_blank; auto.
Qed.

Lemma shutdown_blank f budget st :
  blank st ->
  quiet_from (List.length (llm_calls st)) (_shutdown f budget st) ->
  blank (_shutdown f budget st).
Proof.
  intros B Q. unfold _shutdown in *. cbv zeta in *.
  apply join_transcriber_blank.
  - eapply blank_same_text; [apply put_text|].
    eapply blank_same_text; [apply stop_active_segments_text|].
    eapply blank_same_text; [apply schedule_exit_text|].
    eapply blank_same_text; [|exact B]. split; reflexivity.
  - eapply quiet_from_mono; [|exact Q].
    apply extends_length, shutdown_pre_extends.
Qed.

Lemma step_blank st e :
  blank st ->
  quiet_from (List.length (llm_calls st)) (step st e) ->
  blank (step st e).
Proof.
  intros B Q. destruct e; simpl in *.
  - destruct (running st) eqn:R.
    + unfold start. rewrite R. exact B.
    + apply start_results, R.
  - eapply blank_same_text; [apply resume_text | exact B].
  - unfold pause in *. destruct (running st); auto using shutdown_blank.
  - apply shutdown_blank; auto.
  - apply cancel_results.
  - eapply blank_same_text; [apply schedule_spawn_text | exact B].
  - eapply blank_same_text; [apply segment_read_text | exact B].
  - eapply blank_same_text; [apply watch_segment_text | exact B].
  - apply worker_step_blank; auto.
Qed.

Lemma exec_blank es : forall st,
  blank st ->
  quiet_from (List.length (llm_calls st)) (exec st es) ->
  blank (exec st es).
Proof.
  induction es as [|e es IH]; intros st B Q; simpl in *; auto.
  apply IH.
  - apply step_blank; auto.
    eapply quiet_from_prefix; [apply exec_extends | exact Q].
  - eapply quiet_from_mono; [|exact Q].
    apply extends_length, step_extends.
Qed.

(** ** C10 *)

(** C10. With an empty result set [_write_transcript] returns the state it
    was given, so the transcript file is neither created nor rewritten.  An
    attempt that yields [""], as one that has used up its retries does, adds
    no entry and leaves the transcript alone.  Hence, from a [start()] that
    took effect, [read_transcript()] gives [""] for as long as every request
    made since has come back empty. *)
Theorem empty_results_write_nothing :
  (forall st, _results st = [] -> _write_transcript st = st)
  /\ (forall k p st,
        fst (_transcribe_single p st) = [] ->
        same_text (process_item k p st) st)
  /\ (forall k p st,
        (0 <= max_retries st)%Z ->
        (forall i, fails (llm st (List.length (llm_calls st) + i) p) = true) ->
        fst (_transcribe_single p st) = []
        /\ same_text (process_item k p st) st)
  /\ (forall st es,
        running st = false ->
        let s0 := start st in
        read_transcript s0 = []
        /\ (quiet_from (List.length (llm_calls s0)) (exec s0 es) ->
            read_transcript (exec s0 es) = [] /\ _results (exec s0 es) = [])).
Proof.
  assert (Hempty : forall k p st,
    fst (_transcribe_single p st) = [] -> same_text (process_item k p st) st).
  { intros k p st E. split.
    - rewrite process_item_results. cbv zeta. rewrite E. reflexivity.
    - rewrite process_item_transcript. cbv zeta. rewrite E. reflexivity. }
  split; [|split; [exact Hempty|split]].
  - intros st E. unfold _write_transcript. rewrite E. reflexivity.
  - intros k p st Hmax Hf.
    assert (E : fst (_transcribe_single p st) = []).
    { unfold _transcribe_single.
      apply attempts_exhaust; auto. lia. }
    split; auto.
  - intros st es R s0.
    destruct (start_results st R) as [Hr Ht]. fold s0 in Hr, Ht.
    split.
    + unfold read_transcript. rewrite Ht. reflexivity.
    + intros Q. destruct (@exec_blank es s0 (conj Hr Ht) Q) as [Hr' Ht'].
      unfold read_transcript. rewrite Ht'. auto.
Qed.

Lemma empty_results_write_nothing_witness :
  let st := init Demo.down 3 (Some (lit "left over")) in
  read_transcript st = lit "left over"
  /\ read_transcript (exec (start st) Demo.one_processed) = []
  /\ llm_calls (exec (start st) Demo.one_processed) = [0; 0; 0; 0]
  /\ files (exec (start st) Demo.one_processed) = [].
Proof.
  intros st. split; [reflexivity|].
  destruct empty_results_write_nothing as (_ & _ & _ & H).
  destruct (H st Demo.one_processed eq_refl) as [_ H2].
  destruct H2 as [H3 _].
  - intros i p _ _. change (answer (Demo.down i p) = []).
    unfold Demo.down. destruct (Nat.even i); reflexivity.
  - split; [exact H3|]. split; vm_compute; reflexivity.
Defined.

(** ** The result set grows by appending *)











(** ** C5 *)

Lemma join_transcriber_shape budget st :
  let st' := join_transcriber budget st in
  st' = set_transcriber_thread (_transcriber_thread st') (copy_work st' st).
Proof.
  unfold join_transcriber. destruct (_transcriber_thread st) as [tid|] eqn:E.
  - simpl. rewrite join_worker_shape at 1.
    hide_fields (join_worker budget tid st). destruct st; reflexivity.
  - simpl. rewrite E. destruct st; simpl in *; subst; reflexivity.
Qed.

Lemma join_transcriber_handle budget st :
  _transcriber_thread (join_transcriber budget st) = None.
Proof.
  unfold join_transcriber. destruct (_transcriber_thread st) eqn:E; auto.
Qed.

Lemma shutdown_fields f budget st :
  running st = true ->
  let st' := _shutdown f budget st in
  _scheduler st' = Some false /\ _paused st' = f /\ _active st' = []
  /\ _transcriber_thread st' = None /\ _stop_all st' = true
  /\ next_id st' = next_id st.
Proof.
  intros R st'. unfold st', _shutdown. cbv zeta.
  rewrite join_transcriber_shape. cbv zeta.
  rewrite join_transcriber_handle. simpl.
  unfold _stop_active_segments, join_scheduler, schedule_exit.
  simpl. unfold running in *. simpl. rewrite R. simpl.
  unfold _stop_active_segments.
  rewrite flush_segments_shape. simpl.
  rewrite flush_segments_shape. simpl. repeat split; reflexivity.
Qed.





(** ** The handoff queue hands out a least item *)

Lemma key_eqb_eq a b : key_eqb a b = true <-> a = b.
Proof.
  destruct a, b; simpl; split; intros H; try discriminate; auto.
  - apply Z.eqb_eq in H. congruence.
  - inversion H. apply Z.eqb_refl.
Qed.

Lemma opath_eqb_eq a b : opath_eqb a b = true <-> a = b.
Proof.
  destruct a, b; simpl; split; intros H; try discriminate; auto.
  - apply Nat.eqb_eq in H. congruence.
  - inversion H. apply Nat.eqb_refl.
Qed.

Lemma item_eqb_eq (a b : item) : item_eqb a b = true <-> a = b.
Proof.
  destruct a as [ka pa], b as [kb pb]. unfold item_eqb. simpl.
  rewrite andb_true_iff, key_eqb_eq, opath_eqb_eq.
  split; [intros [-> ->]; reflexivity | intros H; inversion H; auto].
Qed.

Lemma item_leb_key (a b : item) :
  item_leb a b = true -> key_leb (fst a) (fst b) = true.
Proof.
  unfold item_leb. destruct (key_eqb (fst a) (fst b)) eqn:E; auto.
  apply key_eqb_eq in E. rewrite E. intros _. apply key_leb_refl.
Qed.

Lemma item_leb_key_false (a b : item) :
  item_leb a b = false -> key_leb (fst b) (fst a) = true.
Proof.
  unfold item_leb. destruct (key_eqb (fst a) (fst b)) eqn:E.
  - apply key_eqb_eq in E. rewrite E. intros _. apply key_leb_refl.
  - intros H. destruct (key_leb_total (fst a) (fst b)); congruence.
Qed.

Lemma pq_min_in q : forall x, In (pq_min x q) (x :: q).
Proof.
  induction q as [|y q IH]; intros x; simpl; auto.
  destruct (IH (if item_leb x y then x else y)) as [H|H]; auto.
  destruct (item_leb x y); auto.
Qed.

Lemma pq_min_least q : forall x y,
  In y (x :: q) -> key_leb (fst (pq_min x q)) (fst y) = true.
Proof.
  induction q as [|z q IH]; intros x y Hy; simpl.
  - destruct Hy as [<-|[]]. apply key_leb_refl.
  - set (m := if item_leb x z then x else z).
    assert (Hm : key_leb (fst (pq_min m q)) (fst m) = true)
      by (apply IH; left; reflexivity).
    assert (Hx : key_leb (fst m) (fst x) = true).
    { unfold m. destruct (item_leb x z) eqn:E;
        [apply key_leb_refl | apply item_leb_key_false, E]. }
    assert (Hz : key_leb (fst m) (fst z) = true).
    { unfold m. destruct (item_leb x z) eqn:E;
        [apply item_leb_key, E | apply key_leb_refl]. }
    destruct Hy as [<-|[<-|Hy]]; eauto using key_leb_trans.
    apply IH. right. exact Hy.
Qed.

Lemma remove_first_in m q : forall y,
  In y q -> y = m \/ In y (remove_first m q).
Proof.
  induction q as [|z q IH]; intros y Hy; simpl in *; [contradiction|].
  destruct (item_eqb m z) eqn:E.
  - apply item_eqb_eq in E. subst z. destruct Hy; auto.
  - destruct Hy as [<-|Hy]; [right; left; reflexivity|].
    destruct (IH y Hy); auto. right. right. assumption.
Qed.

Lemma remove_first_subset m q : forall y, In y (remove_first m q) -> In y q.
Proof.
  induction q as [|z q IH]; intros y Hy; simpl in *; auto.
  destruct (item_eqb m z); auto. destruct Hy; auto.
Qed.

Lemma remove_first_length m q :
  In m q -> S (List.length (remove_first m q)) = List.length q.
Proof.
  induction q as [|z q IH]; intros Hm; simpl in *; [contradiction|].
  destruct (item_eqb m z) eqn:E; auto. simpl. f_equal. apply IH.
  destruct Hm as [->|Hm]; auto.
  assert (item_eqb m m = true) by (apply item_eqb_eq; reflexivity).
  congruence.
Qed.

Lemma pq_get_spec q m q' :
  pq_get q = Some (m, q') ->
  In m q
  /\ (forall y, In y q -> key_leb (fst m) (fst y) = true)
  /\ (forall y, In y q -> y = m \/ In y q')
  /\ (forall y, In y q' -> In y q)
  /\ S (List.length q') = List.length q.
Proof.
  destruct q as [|x q0]; simpl; [discriminate|].
  intros H. inversion H; subst. clear H.
  pose proof (pq_min_in q0 x) as Hin.
  repeat split.
  - exact Hin.
  - intros y Hy. apply pq_min_least, Hy.
  - intros y Hy. apply (remove_first_in (pq_min x q0) (x :: q0)), Hy.
  - intros y Hy. apply (remove_first_subset (pq_min x q0) (x :: q0)), Hy.
  - apply (remove_first_length (pq_min x q0) (x :: q0)), Hin.
Qed.

Lemma pq_get_none q : pq_get q = None -> q = [].
Proof. destruct q; simpl; [auto | discriminate]. Qed.

(** ** The pool of worker threads *)

Lemma worker_alive_state tid st :
  worker_alive tid st = true <-> worker_state tid st <> None.
Proof.
  unfold worker_alive, worker_state.
  induction (workers st) as [|[t w] l IH]; simpl.
  - split; [discriminate | intros H; contradiction].
  - destruct (Nat.eqb t tid); simpl; [|exact IH].
    split; [discriminate | reflexivity].
Qed.

Lemma worker_alive_set_worker tid h st :
  worker_alive tid (set_worker tid h st) = worker_alive tid st.
Proof.
  unfold worker_alive, set_worker. simpl.
  induction (workers st) as [|[t w] l IH]; simpl; auto.
  destruct (Nat.eqb t tid) eqn:E; simpl.
  - rewrite Nat.eqb_refl. reflexivity.
  - rewrite E, IH. reflexivity.
Qed.

Lemma worker_alive_end_worker tid st :
  worker_alive tid (end_worker tid st) = false.
Proof.
  unfold worker_alive, end_worker. simpl.
  induction (workers st) as [|[t w] l IH]; simpl; auto.
  destruct (Nat.eqb t tid) eqn:E; simpl; auto.
  rewrite E. exact IH.
Qed.


Lemma worker_state_workers tid a b :
  workers a = workers b -> worker_state tid a = worker_state tid b.
Proof. unfold worker_state. intros ->. reflexivity. Qed.


(** ** A client whose text UTF-8 can encode *)









(** ** Requests made while the worker is joined *)





Lemma item_ok_sentinel k : item_ok (k, None) -> k = Inf.
Proof. destruct k; simpl; [contradiction | reflexivity]. Qed.




(** ** What [_shutdown] puts in the queue *)

Lemma stop_and_join_storage seg st :
  let st' := snd (stop_and_join seg st) in
  st' = set_next_tmp (next_tmp st') (set_files (files st') st).
Proof.
  unfold stop_and_join, finalize. simpl.
  repeat break_match; destruct st; reflexivity.
Qed.

Lemma file_segment_queue seg st :
  exists extra,
    _pending_queue (file_segment seg st) = _pending_queue st ++ extra
    /\ List.length extra <= 1 /\ queue_ok extra.
Proof.
  unfold file_segment. destruct (file_path seg) as [p|].
  - destruct (file_exists p st).
    + exists [(Fin (_started_at seg), Some p)]. simpl.
      repeat split; auto. repeat constructor.
    + exists []. rewrite app_nil_r. repeat split; auto. constructor.
  - exists []. rewrite app_nil_r. repeat split; auto. constructor.
Qed.

Lemma flush_segments_queue segs : forall st,
  exists extra,
    _pending_queue (flush_segments segs st) = _pending_queue st ++ extra
    /\ List.length extra <= List.length segs /\ queue_ok extra.
Proof.
  induction segs as [|seg segs IH]; intros st; simpl.
  - exists []. rewrite app_nil_r. repeat split; auto. constructor.
  - pose proof (stop_and_join_storage seg st) as H1.
    destruct (stop_and_join seg st) as [seg' st1]. simpl in H1.
    assert (Hq : _pending_queue st1 = _pending_queue st)
      by (rewrite H1; reflexivity).
    destruct (file_segment_queue seg' st1) as (x & Ex & Lx & Ox).
    destruct (IH (file_segment seg' st1)) as (y & Ey & Ly & Oy).
    exists (x ++ y). rewrite Ey, Ex, <- app_assoc.
    rewrite Hq. repeat split; auto.
    + rewrite length_app. lia.
    + apply Forall_app. auto.
Qed.

Lemma stop_active_segments_queue st :
  exists extra,
    _pending_queue (_stop_active_segments st) = _pending_queue st ++ extra
    /\ List.length extra <= List.length (_active st) /\ queue_ok extra
    /\ _active (_stop_active_segments st) = [].
Proof.
  unfold _stop_active_segments.
  destruct (flush_segments_queue (_active st) (set_active [] st))
    as (x & E & L & O).
  exists x. repeat split; auto.
  rewrite flush_segments_shape. reflexivity.
Qed.

Lemma schedule_exit_queue st :
  exists extra,
    _pending_queue (schedule_exit st) = _pending_queue st ++ extra
    /\ queue_ok extra
    /\ List.length extra + List.length (_active (schedule_exit st))
       <= List.length (_active st).
Proof.
  unfold schedule_exit. destruct (running st && _stop_all st).
  - destruct (stop_active_segments_queue st) as (x & E & L & O & A).
    exists x. simpl. rewrite A. simpl. repeat split; auto. lia.
  - exists []. rewrite app_nil_r. repeat split; auto. constructor.
Qed.

Lemma stop_active_segments_workers st :
  workers (_stop_active_segments st) = workers st
  /\ _transcriber_thread (_stop_active_segments st) = _transcriber_thread st.
Proof.
  unfold _stop_active_segments. rewrite flush_segments_shape.
  split; reflexivity.
Qed.

Lemma schedule_exit_workers st :
  workers (schedule_exit st) = workers st
  /\ _transcriber_thread (schedule_exit st) = _transcriber_thread st.
Proof.
  unfold schedule_exit. destruct (running st && _stop_all st);
    [|split; reflexivity].
  destruct (stop_active_segments_workers st) as [W T]. split; simpl; auto.
Qed.



(** ** Who deletes what *)

Lemma file_exists_In p st : file_exists p st = true <-> In p (files st).
Proof.
  unfold file_exists. rewrite existsb_exists. split.
  - intros (x & H & E). apply Nat.eqb_eq in E. subst. exact H.
  - intros H. exists p. split; [exact H | apply Nat.eqb_refl].
Qed.

Lemma unlink_files p st q :
  In q (files (unlink p st)) <-> In q (files st) /\ q <> p.
Proof.
  rewrite unlink_shape. simpl. split.
  - intros H. apply in_remove in H. exact H.
  - intros [H N]. apply in_in_remove; auto.
Qed.

Lemma unlink_queue p st : _pending_queue (unlink p st) = _pending_queue st.
Proof. rewrite unlink_shape. reflexivity. Qed.

(** What [stop_event.set(); join()] does to one segment. *)
Lemma stop_and_join_cases seg st :
  let seg' := fst (stop_and_join seg st) in
  let st' := snd (stop_and_join seg st) in
  seg_alive seg' = false
  /\ _pending_queue st' = _pending_queue st
  /\ ((file_path seg' = file_path seg /\ files st' = files st
       /\ (seg_alive seg = false \/ frames seg = 0))
      \/ (seg_alive seg = true /\ file_path seg' = Some (next_tmp st)
          /\ files st' = next_tmp st :: files st)).
Proof.
  unfold stop_and_join, finalize. simpl.
  destruct (seg_alive seg) eqn:A; simpl.
  - destruct (Nat.eqb (frames seg) 0) eqn:F; simpl.
    + apply Nat.eqb_eq in F. repeat split; auto.
    + repeat split; auto.
  - repeat split; auto.
Qed.

Lemma file_segment_files seg st : files (file_segment seg st) = files st.
Proof.
  unfold file_segment. destruct (file_path seg); [|reflexivity].
  destruct (file_exists _ _); reflexivity.
Qed.

Lemma file_segment_keeps seg st p :
  queued (_pending_queue st) p -> queued (_pending_queue (file_segment seg st)) p.
Proof.
  intros [k H]. destruct (file_segment_queue seg st) as (x & E & _).
  exists k. rewrite E. apply in_or_app. auto.
Qed.

Lemma file_segment_files_it seg st p :
  file_path seg = Some p -> In p (files st) ->
  queued (_pending_queue (file_segment seg st)) p.
Proof.
  intros F H. unfold file_segment. rewrite F.
  apply file_exists_In in H. rewrite H.
  exists (Fin (_started_at seg)). simpl. apply in_or_app. right. left.
  reflexivity.
Qed.

(** After the flush, an artifact that a flushed segment answered for is in
    the queue. *)
Lemma flush_segments_path (K : Prop) p segs : forall st,
  (In p (files st) ->
   K \/ queued (_pending_queue st) p \/ seg_owns segs p) ->
  In p (files (flush_segments segs st)) ->
  K \/ queued (_pending_queue (flush_segments segs st)) p.
Proof.
  induction segs as [|seg segs IH]; intros st H Hin; simpl in *.
  - destruct (H Hin) as [HK|[HQ|(s & [] & _)]]; auto.
  - pose proof (stop_and_join_cases seg st) as Hc. cbv zeta in Hc.
    destruct (stop_and_join seg st) as [seg' st1]. simpl in Hc.
    destruct Hc as (Ha' & Hq1 & Hc).
    apply IH; auto. rewrite file_segment_files. intros Hp1.
    assert (Hnew : file_path seg' = Some p ->
                   queued (_pending_queue (file_segment seg' st1)) p).
    { intros F. apply file_segment_files_it; auto. }
    destruct Hc as [(Fp & Ff & _)|(Al & Fp & Ff)].
    + rewrite Ff in Hp1. destruct (H Hp1) as [HK|[HQ|(s & [<-|Hs] & As & Fs)]].
      * auto.
      * right. left. apply file_segment_keeps. rewrite Hq1. exact HQ.
      * right. left. apply Hnew. congruence.
      * right. right. exists s. auto.
    + rewrite Ff in Hp1. destruct Hp1 as [<-|Hp1].
      * right. left. apply Hnew. exact Fp.
      * destruct (H Hp1) as [HK|[HQ|(s & [<-|Hs] & As & Fs)]].
        -- auto.
        -- right. left. apply file_segment_keeps. rewrite Hq1. exact HQ.
        -- congruence.
        -- right. right. exists s. auto.
Qed.

Lemma discard_segments_queue segs : forall st,
  _pending_queue (discard_segments segs st) = _pending_queue st.
Proof.
  induction segs as [|seg segs IH]; intros st; simpl; auto.
  pose proof (stop_and_join_cases seg st) as Hc. cbv zeta in Hc.
  destruct (stop_and_join seg st) as [seg' st1]. simpl in Hc.
  destruct Hc as (_ & Hq & _).
  rewrite IH. destruct (file_path seg') as [p|]; auto.
  destruct (file_exists p st1); auto.
  rewrite unlink_queue. exact Hq.
Qed.

(** After the loop of [cancel] over the active segments, an artifact that
    one of them answered for is gone. *)
Lemma discard_segments_path (K : Prop) p segs : forall st,
  (In p (files st) -> K \/ seg_owns segs p) ->
  In p (files (discard_segments segs st)) -> K.
Proof.
  induction segs as [|seg segs IH]; intros st H Hin; simpl in *.
  - destruct (H Hin) as [HK|(s & [] & _)]; auto.
  - pose proof (stop_and_join_cases seg st) as Hc. cbv zeta in Hc.
    destruct (stop_and_join seg st) as [seg' st1]. simpl in Hc.
    destruct Hc as (Ha' & Hq1 & Hc).
    eapply IH; [|exact Hin]. intros Hp2.
    assert (Hp1 : In p (files st1) /\ file_path seg' <> Some p).
    { destruct (file_path seg') as [q|] eqn:F.
      - destruct (file_exists q st1) eqn:Ex.
        + apply unlink_files in Hp2. destruct Hp2 as [A B].
          split; auto. congruence.
        + split; auto. intros E. inversion E; subst.
          apply file_exists_In in Hp2. congruence.
      - split; auto. discriminate. }
    destruct Hp1 as [Hp1 Hne].
    destruct Hc as [(Fp & Ff & _)|(Al & Fp & Ff)].
    + rewrite Ff in Hp1. destruct (H Hp1) as [HK|(s & [<-|Hs] & As & Fs)].
      * auto.
      * congruence.
      * right. exists s. auto.
    + rewrite Ff in Hp1. destruct Hp1 as [<-|Hp1]; [congruence|].
      destruct (H Hp1) as [HK|(s & [<-|Hs] & As & Fs)].
      * auto.
      * congruence.
      * right. exists s. auto.
Qed.

(** The loop of [cancel] over the queue, given enough turns, leaves the
    queue empty and no artifact that was queued. *)
Lemma drain_queue_spec fuel : forall st,
  List.length (_pending_queue st) <= fuel ->
  _pending_queue (drain_queue fuel st) = []
  /\ forall p, In p (files (drain_queue fuel st)) ->
       In p (files st) /\ ~ queued (_pending_queue st) p.
Proof.
  induction fuel as [|f IH]; intros st Hl; simpl.
  - destruct (_pending_queue st); [|simpl in Hl; lia].
    split; auto. intros p H. split; auto. intros [k []].
  - destruct (pq_get (_pending_queue st)) as [[[k o] q]|] eqn:Hg.
    + destruct (pq_get_spec _ Hg) as (Hin & _ & Hsplit & _ & Hlen).
      assert (Hstep : forall st2,
        _pending_queue st2 = q ->
        (forall p, In p (files st2) -> In p (files st) /\ o <> Some p) ->
        _pending_queue (drain_queue f st2) = []
        /\ forall p, In p (files (drain_queue f st2)) ->
             In p (files st) /\ ~ queued (_pending_queue st) p).
      { intros st2 Hq2 Hf2.
        destruct (IH st2) as [E F]; [rewrite Hq2; lia|].
        split; [exact E|]. intros p Hp.
        destruct (F p Hp) as [Hp2 Hnq]. rewrite Hq2 in Hnq.
        destruct (Hf2 p Hp2) as [Hp0 Hne]. split; auto.
        intros [k' Hk']. destruct (Hsplit _ Hk') as [E'|Hq'].
        - inversion E'; subst. congruence.
        - apply Hnq. exists k'. exact Hq'. }
      destruct o as [p0|]; apply Hstep.
      * rewrite unlink_queue. reflexivity.
      * intros p Hp. apply unlink_files in Hp. destruct Hp as [A B].
        split; [exact A | congruence].
      * reflexivity.
      * intros p Hp. split; [exact Hp | discriminate].
    + apply pq_get_none in Hg. rewrite Hg. split; auto.
      intros p H. split; auto. intros [k' []].
Qed.

(** The loop body takes its artifact off storage unless it raises, and
    leaves the others. *)
Lemma process_item_files k p st q :
  (In q (files (process_item k p st)) ->
   In q (files st) /\ (q <> p \/ process_item_raises k p st = true))
  /\ (In q (files st) -> q <> p -> In q (files (process_item k p st))).
Proof.
  destruct (process_item_storage k p st) as [-> _].
  destruct (process_item_raises k p st); split; auto.
  - intros H. apply in_remove in H. tauto.
  - intros H N. apply in_in_remove; auto.
Qed.

Lemma worker_step_files tid st q :
  In q (files (worker_step tid st)) -> In q (files st).
Proof.
  unfold worker_step, worker_process, worker_take, end_worker, set_worker.
  destruct (worker_state tid st) as [[[k p]|]|]; auto.
  - destruct (process_item_raises k p st) eqn:E; simpl; intros H;
      apply process_item_files in H; tauto.
  - repeat break_match; auto.
Qed.

Lemma run_workers_files tids st q :
  In q (files (run_workers tids st)) -> In q (files st).
Proof.
  apply (@run_workers_related
           (fun a b => In q (files b) -> In q (files a))); auto.
  intros tid s. apply worker_step_files.
Qed.



(** ** The worker joined by [cancel] finds only the sentinel *)




(** ** The phases of [cancel] *)

Lemma schedule_exit_path (K : Prop) p st :
  (In p (files st) ->
   K \/ queued (_pending_queue st) p \/ seg_owns (_active st) p) ->
  In p (files (schedule_exit st)) ->
  K \/ queued (_pending_queue (schedule_exit st)) p
  \/ seg_owns (_active (schedule_exit st)) p.
Proof.
  unfold schedule_exit. destruct (running st && _stop_all st); [|auto].
  intros H Hin. simpl in *. unfold _stop_active_segments in *.
  destruct (@flush_segments_path K p (_active st) (set_active [] st)); auto.
Qed.

Lemma schedule_exit_calls st : llm_calls (schedule_exit st) = llm_calls st.
Proof.
  unfold schedule_exit. destruct (running st && _stop_all st); auto.
  simpl. unfold _stop_active_segments. rewrite flush_segments_shape.
  reflexivity.
Qed.

Lemma run_workers_shape tids st :
  run_workers tids st = copy_work (run_workers tids st) st.
Proof.
  unfold run_workers. revert st.
  induction tids as [|tid tids IH]; intros st; simpl.
  - destruct st; reflexivity.
  - etransitivity; [apply IH|].
    match goal with |- copy_work ?X _ = _ => hide_fields X end.
    rewrite worker_step_shape. destruct st; reflexivity.
Qed.

(** Once the scheduler has been joined, the steps the workers took in the
    meantime can be told apart from the rest of [cancel]. *)
Lemma cancel_split during budget st :
  cancel during budget st
  = cancel [] budget
      (run_workers during (join_scheduler (set_stop_all true st))).
Proof.
  set (st1 := run_workers during (join_scheduler (set_stop_all true st))).
  assert (H : join_scheduler (set_stop_all true st1) = st1).
  { assert (Hs : _stop_all st1 = true /\ running st1 = false).
    { unfold st1. rewrite run_workers_shape. unfold running. simpl.
      unfold join_scheduler, schedule_exit, running. simpl.
      destruct (_scheduler st) as [[|]|] eqn:E; simpl;
        try (rewrite E; auto).
      unfold _stop_active_segments. rewrite flush_segments_shape. auto. }
    destruct Hs as [Hs Hr].
    unfold join_scheduler, schedule_exit.
    change (running (set_stop_all true st1)) with (running st1).
    rewrite Hr. simpl. destruct st1; simpl in *; subst; reflexivity. }
  unfold cancel at 2. cbv zeta. rewrite H. reflexivity.
Qed.

(** What the scheduler's exit, a step of a worker and the rest of [cancel]
    keep, [cancel] keeps. *)
Lemma cancel_with_workers (P : State -> Prop) during budget st :
  P (join_scheduler (set_stop_all true st)) ->
  (forall tid s, P s -> P (worker_step tid s)) ->
  (forall s, P s -> P (cancel [] budget s)) ->
  P (cancel during budget st).
Proof.
  intros H0 Hw Hc. rewrite cancel_split. apply Hc, run_workers_keeps; auto.
Qed.

Lemma cancel_quiet budget st :
  cancel [] budget st =
  let st1 := join_scheduler (set_stop_all true st) in
  let st2 := discard_segments (_active st1) (set_active [] st1) in
  let st3 := drain_queue (List.length (_pending_queue st2)) st2 in
  let st4 := put (Inf, None) st3 in
  let st5 := join_transcriber budget st4 in
  set_paused false (clear_transcript (set_results [] st5)).
Proof. reflexivity. Qed.

(** The state in which [cancel] joins the worker, when no worker has taken
    a step while the scheduler was joined. *)
Lemma cancel_pre_spec st :
  let st1 := join_scheduler (set_stop_all true st) in
  let st2 := discard_segments (_active st1) (set_active [] st1) in
  let st3 := drain_queue (List.length (_pending_queue st2)) st2 in
  let st4 := put (Inf, None) st3 in
  _pending_queue st4 = [(Inf, None)]
  /\ workers st4 = workers st
  /\ _transcriber_thread st4 = _transcriber_thread st
  /\ llm_calls st4 = llm_calls st
  /\ _active st4 = []
  /\ (forall (K : Prop) p,
        (In p (files st) ->
         K \/ queued (_pending_queue st) p \/ seg_owns (_active st) p) ->
        In p (files st4) -> K /\ ~ queued (_pending_queue st) p).
Proof.
  intros st1 st2 st3 st4.
  destruct (@drain_queue_spec (List.length (_pending_queue st2)) st2 (le_n _))
    as [Hq3 Hf3]. fold st3 in Hq3, Hf3.
  assert (Hq2 : _pending_queue st2 = _pending_queue st1).
  { unfold st2. rewrite discard_segments_queue. reflexivity. }
  destruct (schedule_exit_workers (set_stop_all true st)) as [W1 T1].
  destruct (schedule_exit_queue (set_stop_all true st)) as (x & Ex & _).
  fold (join_scheduler (set_stop_all true st)) in W1, T1, Ex. fold st1 in W1, T1, Ex.
  split; [unfold st4; simpl; rewrite Hq3; reflexivity|].
  split.
  { unfold st4, st3. simpl. rewrite drain_queue_shape. simpl.
    unfold st2. rewrite discard_segments_shape. simpl. exact W1. }
  split.
  { unfold st4, st3. simpl. rewrite drain_queue_shape. simpl.
    unfold st2. rewrite discard_segments_shape. simpl. exact T1. }
  split.
  { unfold st4, st3. simpl. rewrite drain_queue_shape. simpl.
    unfold st2. rewrite discard_segments_shape. simpl.
    exact (schedule_exit_calls (set_stop_all true st)). }
  split.
  { unfold st4, st3. simpl. rewrite drain_queue_shape. simpl.
    unfold st2. rewrite discard_segments_shape. reflexivity. }
  intros K p H Hin.
  destruct (Hf3 p Hin) as [Hp2 Hnq]. rewrite Hq2 in Hnq.
  assert (Hnq0 : ~ queued (_pending_queue st) p).
  { intros [k Hk]. apply Hnq. exists k. rewrite Ex. simpl.
    apply in_or_app. left. exact Hk. }
  split; [|exact Hnq0].
  assert (HK : K \/ queued (_pending_queue st1) p).
  { apply (@discard_segments_path (K \/ queued (_pending_queue st1) p) p
             (_active st1) (set_active [] st1)); [|exact Hp2].
    simpl. intros Hp1.
    assert (H' : In p (files (set_stop_all true st)) ->
                 K \/ queued (_pending_queue (set_stop_all true st)) p
                 \/ seg_owns (_active (set_stop_all true st)) p) by exact H.
    destruct (@schedule_exit_path K p (set_stop_all true st) H' Hp1)
      as [A|[A|A]]; auto. }
  destruct HK as [HK|HQ]; [exact HK | contradiction].
Qed.


Lemma worker_state_held tid st k p :
  worker_state tid st = Some (Some (k, p)) -> held (workers st) p.
Proof.
  unfold worker_state. destruct (find _ (workers st)) as [[t w]|] eqn:F;
    [|discriminate].
  simpl. intros E. inversion E; subst. apply find_some in F.
  exists t, k. apply F.
Qed.


(** ** An artifact nothing refers to is never deleted *)

Lemma orphan_unlink p q st :
  q <> p -> In p (files st) -> In p (files (unlink q st)).
Proof. intros N H. apply unlink_files. auto. Qed.

Lemma finalize_orphan p seg st :
  p < next_tmp st -> In p (files st) -> file_path seg <> Some p ->
  let seg' := fst (finalize seg st) in
  let st' := snd (finalize seg st) in
  p < next_tmp st' /\ In p (files st') /\ file_path seg' <> Some p
  /\ _pending_queue st' = _pending_queue st /\ workers st' = workers st
  /\ _active st' = _active st /\ deleted st' = deleted st.
Proof.
  intros L H N. unfold finalize. destruct (Nat.eqb (frames seg) 0); simpl.
  - repeat split; auto.
  - repeat split; auto. intros E. inversion E. lia.
Qed.

Lemma stop_and_join_orphan p seg st :
  p < next_tmp st -> In p (files st) -> file_path seg <> Some p ->
  let seg' := fst (stop_and_join seg st) in
  let st' := snd (stop_and_join seg st) in
  p < next_tmp st' /\ In p (files st') /\ file_path seg' <> Some p
  /\ _pending_queue st' = _pending_queue st /\ workers st' = workers st
  /\ _active st' = _active st /\ deleted st' = deleted st.
Proof.
  intros L H N. unfold stop_and_join. simpl.
  destruct (seg_alive seg); [|repeat split; auto].
  apply finalize_orphan; auto.
Qed.

Lemma segment_iter_orphan p r seg st :
  p < next_tmp st -> In p (files st) -> file_path seg <> Some p ->
  let seg' := fst (segment_iter r seg st) in
  let st' := snd (segment_iter r seg st) in
  p < next_tmp st' /\ In p (files st') /\ file_path seg' <> Some p
  /\ _pending_queue st' = _pending_queue st /\ workers st' = workers st
  /\ _active st' = _active st /\ deleted st' = deleted st.
Proof.
  intros L H N. unfold segment_iter.
  destruct (negb (seg_alive seg)); [repeat split; auto|].
  destruct (stop_event seg); [apply finalize_orphan; auto|].
  destruct r as [[|]|]; try (repeat split; auto; fail).
  apply finalize_orphan; auto.
Qed.

Lemma file_segment_orphan p seg st :
  file_path seg <> Some p -> ~ queued (_pending_queue st) p ->
  ~ queued (_pending_queue (file_segment seg st)) p.
Proof.
  intros N Q. unfold file_segment. destruct (file_path seg) as [q|]; auto.
  destruct (file_exists q st); auto.
  simpl. intros [k H]. apply in_app_or in H. destruct H as [H|[H|[]]].
  - apply Q. exists k. exact H.
  - inversion H; subst. apply N. reflexivity.
Qed.

Lemma file_segment_rest seg st :
  files (file_segment seg st) = files st
  /\ next_tmp (file_segment seg st) = next_tmp st
  /\ workers (file_segment seg st) = workers st
  /\ _active (file_segment seg st) = _active st.
Proof.
  unfold file_segment. destruct (file_path seg); [|repeat split].
  destruct (file_exists _ _); repeat split.
Qed.

Lemma adrift_same p st st' :
  files st' = files st -> next_tmp st' = next_tmp st ->
  _pending_queue st' = _pending_queue st -> workers st' = workers st ->
  adrift p st -> adrift p st'.
Proof. unfold adrift. intros -> -> -> ->. auto. Qed.

Lemma flush_segments_adrift p segs : forall st,
  ~ seg_refs segs p -> adrift p st ->
  adrift p (flush_segments segs st)
  /\ _active (flush_segments segs st) = _active st.
Proof.
  induction segs as [|seg segs IH]; intros st N A; simpl; auto.
  destruct A as (Hf & Hl & Hq & Hh).
  assert (Ns : file_path seg <> Some p).
  { intros E. apply N. exists seg. split; [left; reflexivity | exact E]. }
  pose proof (@stop_and_join_orphan p seg st Hl Hf Ns) as H. cbv zeta in H.
  destruct (stop_and_join seg st) as [seg' st1]. simpl in H.
  destruct H as (Hl1 & Hf1 & Ns1 & Q1 & W1 & A1 & _).
  destruct (file_segment_rest seg' st1) as (F2 & T2 & W2 & A2).
  destruct (IH (file_segment seg' st1)) as [IA IB].
  - intros (s & Hs & Es). apply N. exists s. split; [right; exact Hs | exact Es].
  - repeat split.
    + rewrite F2. exact Hf1.
    + rewrite T2. exact Hl1.
    + apply file_segment_orphan; auto. rewrite Q1. exact Hq.
    + rewrite W2, W1. exact Hh.
  - split; [exact IA|]. rewrite IB, A2, A1. reflexivity.
Qed.

Lemma discard_segments_adrift p segs : forall st,
  ~ seg_refs segs p -> adrift p st ->
  adrift p (discard_segments segs st)
  /\ _active (discard_segments segs st) = _active st.
Proof.
  induction segs as [|seg segs IH]; intros st N A; simpl; auto.
  destruct A as (Hf & Hl & Hq & Hh).
  assert (Ns : file_path seg <> Some p).
  { intros E. apply N. exists seg. split; [left; reflexivity | exact E]. }
  pose proof (@stop_and_join_orphan p seg st Hl Hf Ns) as H. cbv zeta in H.
  destruct (stop_and_join seg st) as [seg' st1]. simpl in H.
  destruct H as (Hl1 & Hf1 & Ns1 & Q1 & W1 & A1 & _).
  assert (Nrest : ~ seg_refs segs p).
  { intros (s & Hs & Es). apply N. exists s.
    split; [right; exact Hs | exact Es]. }
  assert (A1' : adrift p st1).
  { repeat split; auto; [rewrite Q1; exact Hq | rewrite W1; exact Hh]. }
  destruct (file_path seg') as [q|]; [|rewrite <- A1; apply IH; auto].
  destruct (file_exists q st1); [|rewrite <- A1; apply IH; auto].
  assert (Hq' : q <> p) by (intros E; apply Ns1; rewrite E; reflexivity).
  destruct (IH (unlink q st1)) as [IA IB]; auto.
  - destruct A1' as (X1 & X2 & X3 & X4). repeat split.
    + apply orphan_unlink; auto.
    + rewrite unlink_shape. exact X2.
    + rewrite unlink_queue. exact X3.
    + rewrite unlink_shape. exact X4.
  - split; [exact IA|]. rewrite IB, unlink_shape. exact A1.
Qed.

Lemma held_set_worker tid h st p :
  held (workers (set_worker tid h st)) p ->
  held (workers st) p \/ exists k, h = Some (k, p).
Proof.
  unfold set_worker. simpl. intros (t & k & H).
  apply in_map_iff in H. destruct H as ([t0 w0] & E & H). simpl in E.
  destruct (Nat.eqb t0 tid).
  - right. inversion E; subst. exists k. reflexivity.
  - left. inversion E; subst. exists t, k. exact H.
Qed.

Lemma held_end_worker tid st p :
  held (workers (end_worker tid st)) p -> held (workers st) p.
Proof.
  unfold end_worker. simpl. intros (t & k & H).
  apply filter_In in H. destruct H as [H _]. exists t, k. exact H.
Qed.

Lemma held_spawn_worker st p :
  held (workers (spawn_worker st)) p -> held (workers st) p.
Proof.
  unfold spawn_worker. simpl. intros (t & k & H).
  apply in_app_or in H. destruct H as [H|[H|[]]].
  - exists t, k. exact H.
  - discriminate.
Qed.

Lemma worker_take_adrift p tid st :
  adrift p st ->
  adrift p (worker_take tid st) /\ _active (worker_take tid st) = _active st.
Proof.
  intros (Hf & Hl & Hq & Hh). unfold worker_take.
  destruct (worker_state tid st) as [[it|]|]; try (repeat split; auto; fail).
  destruct (pq_get (_pending_queue st)) as [[[k [q|]] rest]|] eqn:Hg;
    try (repeat split; auto; fail).
  - destruct (pq_get_spec _ Hg) as (Hin & _ & _ & Hsub & _).
    repeat split; auto.
    + simpl. intros [k' H]. apply Hq. exists k'. apply Hsub, H.
    + intros H. apply held_set_worker in H. destruct H as [H|[k' E]].
      * apply Hh. exact H.
      * inversion E; subst. apply Hq. exists k'. exact Hin.
  - destruct (pq_get_spec _ Hg) as (Hin & _ & _ & Hsub & _).
    repeat split; auto.
    + simpl. intros [k' H]. apply Hq. exists k'. apply Hsub, H.
    + intros H. apply held_end_worker in H. apply Hh. exact H.
Qed.

Lemma worker_process_adrift p tid st :
  adrift p st ->
  adrift p (worker_process tid st)
  /\ _active (worker_process tid st) = _active st.
Proof.
  intros (Hf & Hl & Hq & Hh). unfold worker_process.
  destruct (worker_state tid st) as [[[k q]|]|] eqn:Hw;
    try (repeat split; auto; fail).
  assert (Nq : q <> p).
  { intros ->. apply Hh. eapply worker_state_held, Hw. }
  destruct (process_item_raises k q st);
    (repeat split;
     [ simpl; apply process_item_files; auto
     | simpl; rewrite process_item_shape; exact Hl
     | simpl; rewrite process_item_shape; exact Hq
     |
     | simpl; rewrite process_item_shape; reflexivity ]).
  - intros H. apply held_end_worker in H.
    rewrite process_item_workers in H. apply Hh. exact H.
  - intros H. apply held_set_worker in H. destruct H as [H|[k' E]];
      [|discriminate].
    rewrite process_item_workers in H. apply Hh. exact H.
Qed.

Lemma worker_step_adrift p tid st :
  adrift p st ->
  adrift p (worker_step tid st) /\ _active (worker_step tid st) = _active st.
Proof.
  intros A. unfold worker_step.
  destruct (worker_state tid st) as [[it|]|];
    auto using worker_process_adrift, worker_take_adrift.
Qed.

Lemma join_worker_adrift p budget : forall tid st,
  adrift p st ->
  adrift p (join_worker budget tid st)
  /\ _active (join_worker budget tid st) = _active st.
Proof.
  induction budget as [|b IH]; intros tid st A; simpl; auto.
  destruct (worker_alive tid st); auto.
  destruct (worker_step_adrift tid A) as [A1 E1].
  destruct (IH tid _ A1) as [A2 E2]. split; [exact A2 | congruence].
Qed.

Lemma join_transcriber_adrift p budget st :
  adrift p st ->
  adrift p (join_transcriber budget st)
  /\ _active (join_transcriber budget st) = _active st.
Proof.
  intros A. unfold join_transcriber.
  destruct (_transcriber_thread st) as [tid|]; auto.
  destruct (@join_worker_adrift p budget tid st A) as [A1 E1].
  split; [exact A1 | exact E1].
Qed.

Lemma drain_queue_adrift p fuel : forall st,
  adrift p st ->
  adrift p (drain_queue fuel st) /\ _active (drain_queue fuel st) = _active st.
Proof.
  induction fuel as [|f IH]; intros st A; simpl; auto.
  destruct (pq_get (_pending_queue st)) as [[[k o] rest]|] eqn:Hg; auto.
  destruct (pq_get_spec _ Hg) as (Hin & _ & _ & Hsub & _).
  destruct A as (Hf & Hl & Hq & Hh).
  assert (Hq' : ~ queued rest p).
  { intros [k' H]. apply Hq. exists k'. apply Hsub, H. }
  destruct o as [q|].
  - assert (Nq : q <> p).
    { intros ->. apply Hq. exists k. exact Hin. }
    destruct (IH (unlink q (set_pending_queue rest st))) as [A1 E1].
    + repeat split.
      * apply orphan_unlink; auto.
      * rewrite unlink_shape. exact Hl.
      * rewrite unlink_queue. exact Hq'.
      * rewrite unlink_shape. exact Hh.
    + split; [exact A1|]. rewrite E1, unlink_shape. reflexivity.
  - destruct (IH (set_pending_queue rest st)) as [A1 E1].
    + repeat split; auto.
    + split; [exact A1 | exact E1].
Qed.

Lemma discard_queue_adrift p fuel : forall st,
  adrift p st ->
  adrift p (discard_queue fuel st)
  /\ _active (discard_queue fuel st) = _active st.
Proof.
  induction fuel as [|f IH]; intros st A; simpl; auto.
  destruct (pq_get (_pending_queue st)) as [[it rest]|] eqn:Hg; auto.
  destruct (pq_get_spec _ Hg) as (_ & _ & _ & Hsub & _).
  destruct A as (Hf & Hl & Hq & Hh).
  destruct (IH (set_pending_queue rest st)) as [A1 E1].
  - repeat split; auto. intros [k' H]. apply Hq. exists k'. apply Hsub, H.
  - split; [exact A1 | exact E1].
Qed.

Lemma no_refs_nil p : ~ seg_refs [] p.
Proof. intros (s & [] & _). Qed.

Lemma stop_active_segments_orphan p st :
  orphan p st -> orphan p (_stop_active_segments st).
Proof.
  intros [A N]. unfold _stop_active_segments.
  destruct (@flush_segments_adrift p (_active st) (set_active [] st) N)
    as [A1 E1].
  - eapply adrift_same; [| | | |exact A]; reflexivity.
  - split; [exact A1|]. rewrite E1. apply no_refs_nil.
Qed.

Lemma schedule_exit_orphan p st : orphan p st -> orphan p (schedule_exit st).
Proof.
  intros O. unfold schedule_exit. destruct (running st && _stop_all st); auto.
  destruct (stop_active_segments_orphan O) as [A N].
  split; [|exact N]. eapply adrift_same; [| | | |exact A]; reflexivity.
Qed.

Lemma put_sentinel_orphan p st : orphan p st -> orphan p (put (Inf, None) st).
Proof.
  intros [(Hf & Hl & Hq & Hh) N]. repeat split; auto.
  simpl. intros [k H]. apply in_app_or in H. destruct H as [H|[H|[]]].
  - apply Hq. exists k. exact H.
  - discriminate.
Qed.

Lemma join_transcriber_orphan p budget st :
  orphan p st -> orphan p (join_transcriber budget st).
Proof.
  intros [A N]. destruct (@join_transcriber_adrift p budget st A) as [A1 E1].
  split; [exact A1 | rewrite E1; exact N].
Qed.

Lemma orphan_same p st st' :
  files st' = files st -> next_tmp st' = next_tmp st ->
  _pending_queue st' = _pending_queue st -> workers st' = workers st ->
  _active st' = _active st ->
  orphan p st -> orphan p st'.
Proof.
  intros F T Q W A [Ad N]. split.
  - eapply adrift_same; eauto.
  - rewrite A. exact N.
Qed.

Lemma shutdown_orphan p f budget st :
  orphan p st -> orphan p (_shutdown f budget st).
Proof.
  intros O. unfold _shutdown, join_scheduler. cbv zeta.
  apply join_transcriber_orphan, put_sentinel_orphan,
    stop_active_segments_orphan, schedule_exit_orphan.
  eapply orphan_same; [| | | | |exact O]; reflexivity.
Qed.

Lemma clear_transcript_orphan p st :
  orphan p st -> orphan p (clear_transcript st).
Proof.
  unfold clear_transcript. destruct (transcript_file st); auto.
Qed.

Lemma cancel_rest_orphan p budget st :
  orphan p st -> orphan p (cancel [] budget st).
Proof.
  intros O. rewrite cancel_quiet. unfold join_scheduler. cbv zeta.
  set (st1 := schedule_exit (set_stop_all true st)).
  assert (O1 : orphan p st1).
  { apply schedule_exit_orphan.
    eapply orphan_same; [| | | | |exact O]; reflexivity. }
  set (st2 := discard_segments (_active st1) (set_active [] st1)).
  assert (O2 : orphan p st2).
  { destruct O1 as [A1 N1].
    destruct (@discard_segments_adrift p (_active st1) (set_active [] st1) N1)
      as [A2 E2].
    - eapply adrift_same; [| | | |exact A1]; reflexivity.
    - split; [exact A2|]. fold st2 in E2. rewrite E2. apply no_refs_nil. }
  set (st3 := drain_queue (List.length (_pending_queue st2)) st2).
  assert (O3 : orphan p st3).
  { destruct O2 as [A2 N2].
    destruct (@drain_queue_adrift p (List.length (_pending_queue st2)) st2 A2)
      as [A3 E3].
    split; [exact A3|]. fold st3 in E3. rewrite E3. exact N2. }
  eapply orphan_same with
    (st := clear_transcript
             (set_results [] (join_transcriber budget (put (Inf, None) st3))));
    try reflexivity.
  apply clear_transcript_orphan.
  eapply orphan_same with (st := join_transcriber budget (put (Inf, None) st3));
    try reflexivity.
  apply join_transcriber_orphan, put_sentinel_orphan, O3.
Qed.

Lemma worker_step_orphan p tid st :
  orphan p st -> orphan p (worker_step tid st).
Proof.
  intros [A N]. destruct (@worker_step_adrift p tid st A) as [A1 E1].
  split; [exact A1 | rewrite E1; exact N].
Qed.

Lemma cancel_orphan p during budget st :
  orphan p st -> orphan p (cancel during budget st).
Proof.
  intros O. apply cancel_with_workers.
  - apply schedule_exit_orphan.
    eapply orphan_same; [| | | | |exact O]; reflexivity.
  - intros tid s. apply worker_step_orphan.
  - intros s. apply cancel_rest_orphan.
Qed.

Lemma spawn_worker_orphan p st : orphan p st -> orphan p (spawn_worker st).
Proof.
  intros [(Hf & Hl & Hq & Hh) N]. repeat split; auto.
  intros H. apply Hh. apply held_spawn_worker. exact H.
Qed.

Lemma start_orphan p st : orphan p st -> orphan p (start st).
Proof.
  intros O. unfold start. destruct (running st); auto. cbv zeta.
  set (st2 := set_results [] _).
  assert (O2 : orphan p st2).
  { unfold st2.
    eapply orphan_same with
      (st := clear_transcript (set_stop_all false (set_paused false st)));
      try reflexivity.
    apply clear_transcript_orphan.
    eapply orphan_same; [| | | | |exact O]; reflexivity. }
  destruct O2 as [A2 N2].
  destruct (@discard_queue_adrift p (List.length (_pending_queue st2)) st2 A2)
    as [A3 E3].
  eapply orphan_same with
    (st := spawn_worker (discard_queue (List.length (_pending_queue st2)) st2));
    try reflexivity.
  apply spawn_worker_orphan. split; [exact A3 | rewrite E3; exact N2].
Qed.

Lemma resume_orphan p st : orphan p st -> orphan p (resume st).
Proof.
  intros O. unfold resume. destruct (running st); auto.
  destruct (negb (_paused st)); auto. cbv zeta.
  set (st1 := set_stop_all false (set_paused false st)).
  assert (O1 : orphan p st1).
  { eapply orphan_same; [| | | | |exact O]; reflexivity. }
  assert (O2 : orphan p (spawn_worker st1)) by apply spawn_worker_orphan, O1.
  destruct (_transcriber_thread st1) as [tid|].
  - destruct (worker_alive tid st1).
    + eapply orphan_same; [| | | | |exact O1]; reflexivity.
    + eapply orphan_same; [| | | | |exact O2]; reflexivity.
  - eapply orphan_same; [| | | | |exact O2]; reflexivity.
Qed.

Lemma schedule_spawn_orphan p now st :
  orphan p st -> orphan p (schedule_spawn now st).
Proof.
  intros O. unfold schedule_spawn.
  destruct (running st && negb (_stop_all st)); auto.
  destruct O as [A N]. split.
  - eapply adrift_same; [| | | |exact A]; reflexivity.
  - simpl. intros (s & Hs & Es). apply in_app_or in Hs.
    destruct Hs as [Hs|[<-|[]]].
    + apply N. exists s. auto.
    + discriminate.
Qed.

Lemma find_segment_In id st seg :
  find_segment id st = Some seg -> In seg (_active st).
Proof. unfold find_segment. intros H. apply find_some in H. apply H. Qed.

Lemma replace_segment_In id seg' l s :
  In s (replace_segment id seg' l) -> s = seg' \/ In s l.
Proof.
  induction l as [|x l IH]; simpl; [contradiction|].
  destruct (Nat.eqb (seg_id x) id); simpl.
  - intros [<-|H]; auto.
  - intros [<-|H]; auto. destruct (IH H); auto.
Qed.

Lemma segment_read_orphan p id r st :
  orphan p st -> orphan p (segment_read id r st).
Proof.
  intros O. unfold segment_read.
  destruct (find_segment id st) as [seg|] eqn:F; auto.
  destruct O as [(Hf & Hl & Hq & Hh) N].
  assert (Ns : file_path seg <> Some p).
  { intros E. apply N. exists seg. split; [|exact E].
    eapply find_segment_In, F. }
  pose proof (@segment_iter_orphan p r seg st Hl Hf Ns) as H. cbv zeta in H.
  destruct (segment_iter r seg st) as [seg' st']. simpl in H.
  destruct H as (Hl1 & Hf1 & Ns1 & Q1 & W1 & A1 & _).
  repeat split; simpl; auto.
  - rewrite Q1. exact Hq.
  - rewrite W1. exact Hh.
  - intros (s & Hs & Es). apply replace_segment_In in Hs.
    destruct Hs as [->|Hs]; [contradiction|].
    apply N. exists s. rewrite <- A1. auto.
Qed.

Lemma remove_segment_subset id l s :
  In s (remove_segment id l) -> In s l.
Proof.
  induction l as [|x l IH]; simpl; auto.
  destruct (Nat.eqb (seg_id x) id); auto.
  intros [H|H]; auto.
Qed.

Lemma watch_segment_orphan p id st :
  orphan p st -> orphan p (_watch_segment id st).
Proof.
  intros O. unfold _watch_segment.
  destruct (find_segment id st) as [seg|] eqn:F; auto.
  destruct (seg_alive seg); auto.
  destruct O as [(Hf & Hl & Hq & Hh) N].
  assert (Ns : file_path seg <> Some p).
  { intros E. apply N. exists seg. split; [|exact E].
    eapply find_segment_In, F. }
  set (st1 := set_active (remove_segment id (_active st)) st).
  destruct (file_segment_rest seg st1) as (F2 & T2 & W2 & A2).
  repeat split.
  - rewrite F2. exact Hf.
  - rewrite T2. exact Hl.
  - apply file_segment_orphan; auto.
  - rewrite W2. exact Hh.
  - rewrite A2. simpl. intros (s & Hs & Es). apply N. exists s.
    split; [|exact Es]. eapply remove_segment_subset, Hs.
Qed.

Lemma step_orphan p st e : orphan p st -> orphan p (step st e).
Proof.
  intros O. destruct e; simpl.
  - apply start_orphan, O.
  - apply resume_orphan, O.
  - unfold pause. destruct (running st); auto using shutdown_orphan.
  - apply shutdown_orphan, O.
  - apply cancel_orphan, O.
  - apply schedule_spawn_orphan, O.
  - apply segment_read_orphan, O.
  - apply watch_segment_orphan, O.
  - apply worker_step_orphan, O.
Qed.

Lemma exec_orphan p es : forall st, orphan p st -> orphan p (exec st es).
Proof.
  induction es as [|e es IH]; intros st O; simpl; auto.
  apply IH, step_orphan, O.
Qed.


(** X12.  The worker's path.  The loop body raises exactly when the answer is
    not empty and UTF-8 cannot encode the transcript that includes it.
    When it does not raise, whatever the client does, the artifact of the
    item in hand is gone after the attempt, the log of deletions has one
    entry more for it when the file was there, and the worker is idle.
    When it raises, [path.unlink] is not reached: storage and the log of
    deletions are as they were, and the worker thread has ended. *)
Lemma worker_process_deletes tid k p st :
  worker_state tid st = Some (Some (k, p)) ->
  let st' := worker_process tid st in
  let text := fst (_transcribe_single p st) in
  process_item_raises k p st
  = truthy text
    && negb (encodable (transcript_of (_results st ++ [(k, strip text)])))
  /\ (process_item_raises k p st = false ->
      ~ In p (files st')
      /\ deleted st' = deleted st ++ (if file_exists p st then [p] else [])
      /\ worker_state tid st' = Some None)
  /\ (process_item_raises k p st = true ->
      files st' = files st /\ deleted st' = deleted st
      /\ worker_state tid st' = None).
Proof.
  intros Hw st' text. split; [apply process_item_raises_spec|].
  unfold st', worker_process. rewrite Hw.
  destruct (process_item_storage k p st) as [Hf Hd].
  split; intros E; rewrite E in *.
  - split; [|split].
    + simpl. rewrite Hf. apply remove_In.
    + simpl. rewrite process_item_eq, E.
      pose proof (transcribe_single_shape p st) as Hs. cbv zeta in Hs.
      destruct (_transcribe_single p st) as [txt st1]. simpl in Hs.
      set (st2 := if truthy txt then _ else st1).
      assert (H2 : files st2 = files st /\ deleted st2 = deleted st).
      { unfold st2. destruct (truthy txt).
        - rewrite write_transcript_shape. simpl. rewrite Hs.
          split; reflexivity.
        - rewrite Hs. split; reflexivity. }
      destruct H2 as [F2 D2].
      unfold unlink, file_exists. rewrite F2.
      destruct (existsb (Nat.eqb p) (files st)); simpl.
      * rewrite D2. reflexivity.
      * rewrite D2, app_nil_r. reflexivity.
    + apply worker_state_set_worker.
      rewrite (worker_state_workers tid (process_item k p st) st);
        [rewrite Hw; discriminate | apply process_item_workers].
  - split; [exact Hf|]. split; [apply Hd; reflexivity|].
    apply worker_state_end_worker.
Qed.

(** ** Every handoff item the session files is well formed *)

Lemma queue_ok_subset q q' :
  queue_ok q -> (forall y, In y q' -> In y q) -> queue_ok q'.
Proof.
  unfold queue_ok. rewrite !Forall_forall. intros H S y Hy. apply H, S, Hy.
Qed.

Lemma queue_ok_app q x : queue_ok q -> queue_ok x -> queue_ok (q ++ x).
Proof. unfold queue_ok. intros. apply Forall_app. auto. Qed.

Lemma stop_active_segments_ok st :
  queue_ok (_pending_queue st) ->
  queue_ok (_pending_queue (_stop_active_segments st)).
Proof.
  intros H. destruct (stop_active_segments_queue st) as (x & E & _ & O & _).
  rewrite E. apply queue_ok_app; auto.
Qed.

Lemma schedule_exit_ok st :
  queue_ok (_pending_queue st) -> queue_ok (_pending_queue (schedule_exit st)).
Proof.
  intros H. destruct (schedule_exit_queue st) as (x & E & O & _).
  rewrite E. apply queue_ok_app; auto.
Qed.

Lemma put_sentinel_ok st :
  queue_ok (_pending_queue st) -> queue_ok (_pending_queue (put (Inf, None) st)).
Proof.
  intros H. simpl. apply queue_ok_app; auto. repeat constructor.
Qed.

Lemma worker_step_queue tid st y :
  In y (_pending_queue (worker_step tid st)) -> In y (_pending_queue st).
Proof.
  unfold worker_step, worker_process, worker_take.
  destruct (worker_state tid st) as [[[k p]|]|]; auto.
  - destruct (process_item_raises k p st); simpl;
      rewrite process_item_shape; auto.
  - destruct (pq_get (_pending_queue st)) as [[[k [p|]] q]|] eqn:Hg; auto;
      destruct (pq_get_spec _ Hg) as (_ & _ & _ & Hsub & _);
      simpl; apply Hsub.
Qed.

Lemma join_worker_queue budget : forall tid st y,
  In y (_pending_queue (join_worker budget tid st)) ->
  In y (_pending_queue st).
Proof.
  induction budget as [|b IH]; intros tid st y H; simpl in *; auto.
  destruct (worker_alive tid st); auto.
  eapply worker_step_queue, IH, H.
Qed.

Lemma join_transcriber_ok budget st :
  queue_ok (_pending_queue st) ->
  queue_ok (_pending_queue (join_transcriber budget st)).
Proof.
  intros H. unfold join_transcriber.
  destruct (_transcriber_thread st) as [tid|]; auto.
  simpl. eapply queue_ok_subset; [exact H|].
  intros y. apply join_worker_queue.
Qed.

Lemma shutdown_ok f budget st :
  queue_ok (_pending_queue st) ->
  queue_ok (_pending_queue (_shutdown f budget st)).
Proof.
  intros H. unfold _shutdown, join_scheduler. cbv zeta.
  apply join_transcriber_ok, put_sentinel_ok, stop_active_segments_ok,
    schedule_exit_ok.
  exact H.
Qed.

Lemma cancel_ok during budget st :
  queue_ok (_pending_queue (cancel during budget st)).
Proof.
  rewrite cancel_split.
  generalize (run_workers during (join_scheduler (set_stop_all true st))).
  clear st. intros st.
  pose proof (cancel_pre_spec st) as H. cbv zeta in H.
  destruct H as (Hq & _).
  rewrite cancel_quiet. unfold clear_transcript. cbv zeta.
  set (st4 := put (Inf, None) _) in *.
  assert (O : queue_ok (_pending_queue (join_transcriber budget st4))).
  { apply join_transcriber_ok. rewrite Hq. repeat constructor. }
  simpl. match goal with |- context [match ?x with _ => _ end] =>
    destruct x end; exact O.
Qed.

Lemma discard_queue_subset fuel : forall st y,
  In y (_pending_queue (discard_queue fuel st)) -> In y (_pending_queue st).
Proof.
  induction fuel as [|f IH]; intros st y H; simpl in *; auto.
  destruct (pq_get (_pending_queue st)) as [[it q]|] eqn:Hg; auto.
  destruct (pq_get_spec _ Hg) as (_ & _ & _ & Hsub & _).
  apply Hsub. apply (IH _ _ H).
Qed.

Lemma start_ok st :
  queue_ok (_pending_queue st) -> queue_ok (_pending_queue (start st)).
Proof.
  intros H. unfold start. destruct (running st); auto. cbv zeta. simpl.
  eapply queue_ok_subset; [exact H|].
  intros y Hy. apply discard_queue_subset in Hy.
  unfold clear_transcript in Hy. simpl in Hy.
  destruct (transcript_file st); exact Hy.
Qed.

Lemma resume_ok st :
  queue_ok (_pending_queue st) -> queue_ok (_pending_queue (resume st)).
Proof.
  intros H. unfold resume. destruct (running st); auto.
  destruct (negb (_paused st)); auto. cbv zeta. simpl.
  destruct (_transcriber_thread st) as [tid|]; simpl;
    [destruct (worker_alive _ _)|]; exact H.
Qed.

Lemma step_ok st e :
  queue_ok (_pending_queue st) -> queue_ok (_pending_queue (step st e)).
Proof.
  intros H. destruct e; simpl.
  - apply start_ok, H.
  - apply resume_ok, H.
  - unfold pause. destruct (running st); auto using shutdown_ok.
  - apply shutdown_ok, H.
  - apply cancel_ok.
  - unfold schedule_spawn. destruct (_ && _); exact H.
  - unfold segment_read. destruct (find_segment id st) as [seg|]; auto.
    pose proof (segment_iter_shape r seg st) as Hs.
    destruct (segment_iter r seg st) as [seg' st'] eqn:E. simpl in *.
    assert (Q : _pending_queue st' = _pending_queue st).
    { unfold segment_iter, finalize in E.
      repeat match type of E with
             | context [if ?c then _ else _] => destruct c
             | context [match ?c with _ => _ end] => destruct c
             end; inversion E; reflexivity. }
    rewrite Q. exact H.
  - unfold _watch_segment. destruct (find_segment id st) as [seg|]; auto.
    destruct (seg_alive seg); auto.
    destruct (file_segment_queue seg
                (set_active (remove_segment id (_active st)) st))
      as (x & E & _ & O).
    rewrite E. apply queue_ok_app; auto.
  - eapply queue_ok_subset; [exact H|]. intros y. apply worker_step_queue.
Qed.

(** In every state the session reaches, a queued path has a finite key and
    [None] has the key [inf]. *)
Lemma exec_ok es : forall st,
  queue_ok (_pending_queue st) -> queue_ok (_pending_queue (exec st es)).
Proof.
  induction es as [|e es IH]; intros st H; simpl; auto.
  apply IH, step_ok, H.
Qed.

(** ** C4 *)





(** ** No artifact is deleted twice *)

Lemma tidy_same st st' :
  files st' = files st -> deleted st' = deleted st ->
  next_tmp st' = next_tmp st -> tidy st -> tidy st'.
Proof. unfold tidy. intros -> -> ->. auto. Qed.

Lemma unlink_tidy p st : tidy st -> tidy (unlink p st).
Proof.
  intros T. unfold unlink.
  destruct (file_exists p st) eqn:E; [|exact T].
  destruct T as (Hn & Hd & Hf).
  apply file_exists_In in E. unfold tidy. simpl.
  split; [|split].
  - apply NoDup_app; [exact Hn | repeat constructor; intros [] |].
    intros q Hq [->|[]]. destruct (Hd q Hq) as [_ N]. contradiction.
  - intros q Hq. apply in_app_or in Hq. destruct Hq as [Hq|[<-|[]]].
    + destruct (Hd q Hq) as [L N]. split; [exact L|].
      intros Hr. apply in_remove in Hr. apply N, Hr.
    + split; [apply Hf, E|]. intros Hr. apply in_remove in Hr.
      destruct Hr as [_ Ne]. apply Ne. reflexivity.
  - intros q Hq. apply in_remove in Hq. apply Hf, Hq.
Qed.

Lemma finalize_tidy seg st : tidy st -> tidy (snd (finalize seg st)).
Proof.
  intros T. unfold finalize.
  destruct (Nat.eqb (frames seg) 0); [exact T|].
  destruct T as (Hn & Hd & Hf).
  unfold tidy. simpl. split; [exact Hn|split].
  - intros q Hq. destruct (Hd q Hq) as [L N]. split; [lia|].
    intros [E|Hin]; [lia | contradiction].
  - intros q [<-|Hq]; [lia|]. specialize (Hf q Hq). lia.
Qed.

Lemma stop_and_join_tidy seg st : tidy st -> tidy (snd (stop_and_join seg st)).
Proof.
  intros T. unfold stop_and_join. simpl.
  destruct (seg_alive seg); [apply finalize_tidy|]; exact T.
Qed.

Lemma segment_iter_tidy r seg st :
  tidy st -> tidy (snd (segment_iter r seg st)).
Proof.
  intros T. unfold segment_iter.
  destruct (negb (seg_alive seg)); auto.
  destruct (stop_event seg); [apply finalize_tidy, T|].
  destruct r as [[|]|]; auto. apply finalize_tidy, T.
Qed.

Lemma file_segment_tidy seg st : tidy st -> tidy (file_segment seg st).
Proof.
  intros T. unfold file_segment. destruct (file_path seg); auto.
  destruct (file_exists _ _); auto.
Qed.

Lemma flush_segments_tidy segs : forall st,
  tidy st -> tidy (flush_segments segs st).
Proof.
  induction segs as [|seg segs IH]; intros st T; simpl; auto.
  pose proof (stop_and_join_tidy seg T) as T1.
  destruct (stop_and_join seg st) as [seg' st1]. simpl in T1.
  apply IH, file_segment_tidy, T1.
Qed.

Lemma discard_segments_tidy segs : forall st,
  tidy st -> tidy (discard_segments segs st).
Proof.
  induction segs as [|seg segs IH]; intros st T; simpl; auto.
  pose proof (stop_and_join_tidy seg T) as T1.
  destruct (stop_and_join seg st) as [seg' st1]. simpl in T1.
  apply IH. destruct (file_path seg'); auto.
  destruct (file_exists _ _); auto using unlink_tidy.
Qed.

Lemma drain_queue_tidy fuel : forall st, tidy st -> tidy (drain_queue fuel st).
Proof.
  induction fuel as [|f IH]; intros st T; simpl; auto.
  destruct (pq_get (_pending_queue st)) as [[[k [p|]] q]|]; auto.
  apply IH, unlink_tidy. exact T.
Qed.

Lemma discard_queue_tidy fuel : forall st,
  tidy st -> tidy (discard_queue fuel st).
Proof.
  induction fuel as [|f IH]; intros st T; simpl; auto.
  destruct (pq_get (_pending_queue st)) as [[it q]|]; auto.
Qed.

Lemma process_item_tidy k p st : tidy st -> tidy (process_item k p st).
Proof.
  intros T. rewrite process_item_eq.
  pose proof (transcribe_single_shape p st) as Hs. cbv zeta in Hs.
  destruct (_transcribe_single p st) as [text st1]. simpl in Hs.
  assert (T1 : tidy st1).
  { rewrite Hs. eapply tidy_same; [| | |exact T]; reflexivity. }
  cbv zeta. set (st2 := if truthy text then _ else _).
  assert (T2 : tidy st2).
  { unfold st2. destruct (truthy text); auto.
    rewrite write_transcript_shape.
    eapply tidy_same; [| | |exact T1]; reflexivity. }
  destruct (process_item_raises k p st); [exact T2 | apply unlink_tidy, T2].
Qed.

Lemma worker_step_tidy tid st : tidy st -> tidy (worker_step tid st).
Proof.
  intros T. unfold worker_step, worker_process, worker_take.
  destruct (worker_state tid st) as [[[k p]|]|]; auto.
  - destruct (process_item_raises k p st);
      (eapply tidy_same with (st := process_item k p st); try reflexivity;
       apply process_item_tidy, T).
  - destruct (pq_get (_pending_queue st)) as [[[k [p|]] q]|]; auto.
Qed.

Lemma join_worker_tidy budget : forall tid st,
  tidy st -> tidy (join_worker budget tid st).
Proof.
  induction budget as [|b IH]; intros tid st T; simpl; auto.
  destruct (worker_alive tid st); auto using worker_step_tidy.
Qed.

Lemma join_transcriber_tidy budget st :
  tidy st -> tidy (join_transcriber budget st).
Proof.
  intros T. unfold join_transcriber.
  destruct (_transcriber_thread st) as [tid|]; auto.
  eapply tidy_same with (st := join_worker budget tid st); try reflexivity.
  apply join_worker_tidy, T.
Qed.

Lemma stop_active_segments_tidy st : tidy st -> tidy (_stop_active_segments st).
Proof.
  intros T. unfold _stop_active_segments. apply flush_segments_tidy.
  exact T.
Qed.

Lemma schedule_exit_tidy st : tidy st -> tidy (schedule_exit st).
Proof.
  intros T. unfold schedule_exit. destruct (_ && _); auto.
  eapply tidy_same with (st := _stop_active_segments st); try reflexivity.
  apply stop_active_segments_tidy, T.
Qed.

Lemma shutdown_tidy f budget st : tidy st -> tidy (_shutdown f budget st).
Proof.
  intros T. unfold _shutdown, join_scheduler. cbv zeta.
  apply join_transcriber_tidy.
  eapply tidy_same with
    (st := _stop_active_segments
             (schedule_exit (set_stop_all true (set_paused f st))));
    try reflexivity.
  apply stop_active_segments_tidy, schedule_exit_tidy. exact T.
Qed.

Lemma clear_transcript_tidy st : tidy st -> tidy (clear_transcript st).
Proof. unfold clear_transcript. destruct (transcript_file st); auto. Qed.

Lemma cancel_tidy during budget st :
  tidy st -> tidy (cancel during budget st).
Proof.
  intros T0. apply cancel_with_workers;
    [apply schedule_exit_tidy; exact T0 | apply worker_step_tidy|].
  clear T0 st. intros st T.
  rewrite cancel_quiet. unfold join_scheduler. cbv zeta.
  set (st1 := schedule_exit (set_stop_all true st)).
  assert (T1 : tidy st1) by (apply schedule_exit_tidy; exact T).
  set (st2 := discard_segments (_active st1) (set_active [] st1)).
  assert (T2 : tidy st2) by (apply discard_segments_tidy; exact T1).
  set (st3 := drain_queue (List.length (_pending_queue st2)) st2).
  assert (T3 : tidy st3) by (apply drain_queue_tidy; exact T2).
  eapply tidy_same with
    (st := clear_transcript
             (set_results [] (join_transcriber budget (put (Inf, None) st3))));
    try reflexivity.
  apply clear_transcript_tidy.
  eapply tidy_same with (st := join_transcriber budget (put (Inf, None) st3));
    try reflexivity.
  apply join_transcriber_tidy. exact T3.
Qed.

Lemma start_tidy st : tidy st -> tidy (start st).
Proof.
  intros T. unfold start. destruct (running st); auto. cbv zeta.
  set (st2 := set_results [] _).
  assert (T2 : tidy st2).
  { unfold st2.
    eapply tidy_same with
      (st := clear_transcript (set_stop_all false (set_paused false st)));
      try reflexivity.
    apply clear_transcript_tidy. exact T. }
  eapply tidy_same with
    (st := discard_queue (List.length (_pending_queue st2)) st2);
    try reflexivity.
  apply discard_queue_tidy, T2.
Qed.

Lemma resume_tidy st : tidy st -> tidy (resume st).
Proof.
  intros T. unfold resume. destruct (running st); auto.
  destruct (negb (_paused st)); auto. cbv zeta.
  destruct (_transcriber_thread _) as [tid|]; simpl;
    [destruct (worker_alive _ _)|]; exact T.
Qed.

Lemma step_tidy st e : tidy st -> tidy (step st e).
Proof.
  intros T. destruct e; simpl.
  - apply start_tidy, T.
  - apply resume_tidy, T.
  - unfold pause. destruct (running st); auto using shutdown_tidy.
  - apply shutdown_tidy, T.
  - apply cancel_tidy, T.
  - unfold schedule_spawn. destruct (_ && _); exact T.
  - unfold segment_read. destruct (find_segment id st) as [seg|]; auto.
    pose proof (segment_iter_tidy r seg T) as T1.
    destruct (segment_iter r seg st) as [seg' st']. exact T1.
  - unfold _watch_segment. destruct (find_segment id st) as [seg|]; auto.
    destruct (seg_alive seg); auto.
    apply file_segment_tidy. exact T.
  - apply worker_step_tidy, T.
Qed.

(** In every state the session reaches, the log of deletions has no path
    twice, and no deleted path is on storage again. *)
Lemma exec_tidy es : forall st, tidy st -> tidy (exec st es).
Proof.
  induction es as [|e es IH]; intros st T; simpl; auto.
  apply IH, step_tidy, T.
Qed.

Lemma init_tidy client retries old : tidy (init client retries old).
Proof.
  unfold tidy. simpl. repeat split; try contradiction. constructor.
Qed.

(** ** C8 *)

(** C8 at a session the code can run.  Four artifacts wait for a client
    that is always rate limited.  [stop()] joins the worker, which sleeps
    thirty seconds over artifacts 0 and 1 and has taken artifact 2 when the
    join times out; artifact 3 is still queued.  The next [start()] empties
    the queue without deleting what it drops, as [cancel()] would: from
    then on nothing refers to artifact 3, and no run of the session deletes
    it, although no run deletes any artifact twice. *)
Theorem start_orphans_queued_artifact :
  let s0 := exec (init Demo.limited 3 None) Demo.four_recorded in
  let s1 := stop 4 s0 in
  let s2 := start s1 in
  queued (_pending_queue s0) 3
  /\ (slept s1 - slept s0 = 30)%Z
  /\ _pending_queue s1 = [(Fin 36, Some 3); (Inf, None)]
  /\ files s1 = [3; 2]
  /\ _pending_queue s2 = []
  /\ orphan 3 s2
  /\ (forall es, In 3 (files (exec s2 es)))
  /\ (forall es, NoDup (deleted (exec s2 es)))
  /\ ~ In 3 (files (cancel [] 4 s1)).
Proof.
  intros s0 s1 s2.
  assert (Ef : files s2 = [3; 2]) by (vm_compute; reflexivity).
  assert (Et : next_tmp s2 = 4) by (vm_compute; reflexivity).
  assert (Eq : _pending_queue s2 = []) by (vm_compute; reflexivity).
  assert (Ew : workers s2 = [(0, Some (Fin 24, 2)); (5, None)])
    by (vm_compute; reflexivity).
  assert (Ea : _active s2 = []) by (vm_compute; reflexivity).
  assert (Eq0 : _pending_queue s0
                = [(Fin 12, Some 1); (Fin 24, Some 2); (Fin 36, Some 3)])
    by (vm_compute; reflexivity).
  assert (Es : (slept s1 - slept s0 = 30)%Z) by (vm_compute; reflexivity).
  assert (Eq1 : _pending_queue s1 = [(Fin 36, Some 3); (Inf, None)])
    by (vm_compute; reflexivity).
  assert (Ef1 : files s1 = [3; 2]) by (vm_compute; reflexivity).
  assert (Ec : files (cancel [] 4 s1) = [2]) by (vm_compute; reflexivity).
  assert (T2 : tidy s2).
  { unfold s2, s1, s0. apply start_tidy. apply (shutdown_tidy false 4).
    apply exec_tidy, init_tidy. }
  clearbody s2 s1 s0.
  assert (O : orphan 3 s2).
  { unfold orphan, adrift. rewrite Ef, Et, Eq, Ew, Ea.
    split; [split; [|split; [|split]]|].
    - left. reflexivity.
    - lia.
    - intros [k []].
    - intros (t & k & [H|[H|[]]]); discriminate.
    - apply no_refs_nil. }
  split.
  { exists (Fin 36). rewrite Eq0. right. right. left. reflexivity. }
  split; [exact Es|].
  split; [exact Eq1|].
  split; [exact Ef1|].
  split; [exact Eq|].
  split; [exact O|].
  split.
  - intros es. destruct (@exec_orphan 3 es s2 O) as [(H & _) _]. exact H.
  - split; [intros es; apply (@exec_tidy es s2 T2)|].
    rewrite Ec. intros [H|[]]. discriminate.
Qed.

(** ** The scheduler's pace and the size of the active list *)

Lemma spaced_nil G t : spaced G [] t.
Proof. split; constructor. Qed.

Lemma spaced_snoc G ts t now :
  (0 <= G)%Z -> spaced G ts t -> (t + G <= now)%Z ->
  spaced G (ts ++ [now]) now.
Proof.
  intros HG [S F] Hn. split.
  - clear -S F Hn HG. induction S as [|a l S IH Ha]; simpl.
    + repeat constructor.
    + inversion F; subst. constructor; auto.
      apply Forall_app. split; [exact Ha|].
      constructor; [lia | constructor].
  - apply Forall_app. split.
    + eapply Forall_impl; [|exact F]. simpl. intros a Ha. lia.
    + constructor; [lia | constructor].
Qed.

Lemma spaced_single G now : spaced G [now] now.
Proof.
  split; repeat constructor. lia.
Qed.

Lemma spaced_remove G id l t :
  spaced G (map _started_at l) t ->
  spaced G (map _started_at (remove_segment id l)) t.
Proof.
  intros [S F]. induction l as [|a l IH]; simpl in *; [split; auto|].
  inversion S as [|? ? S' Ha]; subst. inversion F as [|? ? Fa F']; subst.
  destruct (Nat.eqb (seg_id a) id); [split; auto|].
  destruct (IH S' F') as [S2 F2]. split; simpl.
  - constructor; auto.
    rewrite Forall_forall in *. intros x Hx.
    apply in_map_iff in Hx. destruct Hx as (s & <- & Hs).
    apply Ha. apply in_map. eapply remove_segment_subset, Hs.
  - constructor; auto.
Qed.

(** [n] start times at least [G] apart, all after [lo] and none after
    [hi], span [(n - 1) * G] at least. *)
Lemma spaced_span G : forall ts lo hi,
  (0 <= G)%Z ->
  StronglySorted (fun a b => a + G <= b)%Z ts ->
  Forall (fun s => lo < s)%Z ts -> Forall (fun s => s <= hi)%Z ts ->
  ts <> [] ->
  ((Z.of_nat (List.length ts) - 1) * G <= hi - lo - 1)%Z.
Proof.
  induction ts as [|s ts IH]; intros lo hi HG Hsort Flo Fhi Hne;
    [contradiction|].
  inversion Hsort as [|? ? S' Hs]; subst.
  inversion Flo as [|? ? Hlo Flo']; subst.
  inversion Fhi as [|? ? Hhi Fhi']; subst.
  destruct ts as [|s' ts'].
  - simpl. lia.
  - assert (H : ((Z.of_nat (List.length (s' :: ts')) - 1) * G
                 <= hi - (lo + G) - 1)%Z).
    { apply IH; auto; [|discriminate].
      rewrite Forall_forall in *. intros x Hx. specialize (Hs x Hx). lia. }
    change (List.length (s :: s' :: ts'))
      with (Datatypes.S (List.length (s' :: ts'))).
    rewrite Nat2Z.inj_succ. lia.
Qed.

Lemma ceil_div_bound n G L :
  (0 < G)%Z -> ((n - 1) * G <= L - 1)%Z -> (n <= ceil_div L G)%Z.
Proof.
  intros HG H. unfold ceil_div.
  assert (E : (n - 1 <= (L - 1) / G)%Z).
  { apply Z.div_le_lower_bound; lia. }
  replace (L + G - 1)%Z with ((L - 1) + 1 * G)%Z by lia.
  rewrite Z.div_add by lia. lia.
Qed.

Lemma join_transcriber_scheduler budget st :
  _scheduler (join_transcriber budget st) = _scheduler st
  /\ _active (join_transcriber budget st) = _active st.
Proof. rewrite join_transcriber_shape. split; reflexivity. Qed.

Lemma stop_active_segments_scheduler st :
  _scheduler (_stop_active_segments st) = _scheduler st
  /\ _active (_stop_active_segments st) = [].
Proof.
  unfold _stop_active_segments. rewrite flush_segments_shape.
  split; reflexivity.
Qed.

Lemma schedule_exit_running st :
  _stop_all st = true -> running (schedule_exit st) = false.
Proof.
  intros H. unfold schedule_exit. rewrite H, andb_true_r.
  destruct (running st) eqn:R; [reflexivity | exact R].
Qed.

Lemma shutdown_stops f budget st :
  _active (_shutdown f budget st) = []
  /\ running (_shutdown f budget st) = false.
Proof.
  unfold _shutdown, join_scheduler. cbv zeta.
  set (st1 := set_stop_all true (set_paused f st)).
  destruct (join_transcriber_scheduler budget
              (put (Inf, None) (_stop_active_segments (schedule_exit st1))))
    as [S A].
  destruct (stop_active_segments_scheduler (schedule_exit st1)) as [S2 A2].
  split.
  - rewrite A. simpl. exact A2.
  - unfold running. rewrite S. simpl. rewrite S2.
    apply (schedule_exit_running st1). reflexivity.
Qed.

Lemma cancel_stops during budget st :
  _active (cancel during budget st) = []
  /\ running (cancel during budget st) = false.
Proof.
  rewrite cancel_split.
  generalize (run_workers during (join_scheduler (set_stop_all true st))).
  clear st. intros st.
  pose proof (cancel_pre_spec st) as H. cbv zeta in H.
  destruct H as (_ & _ & _ & _ & A4 & _).
  rewrite cancel_quiet. unfold join_scheduler, clear_transcript in *.
  cbv zeta.
  set (st1 := schedule_exit (set_stop_all true st)) in *.
  set (st4 := put (Inf, None) _) in *.
  destruct (join_transcriber_scheduler budget st4) as [S A].
  assert (R4 : running st4 = false).
  { unfold running, st4. simpl. rewrite drain_queue_shape. simpl.
    rewrite discard_segments_shape. simpl.
    apply (schedule_exit_running (set_stop_all true st)). reflexivity. }
  set (st5 := join_transcriber budget st4) in *.
  assert (E : _active st5 = [] /\ running st5 = false).
  { split; [rewrite A; exact A4|]. unfold running. rewrite S. exact R4. }
  simpl.
  destruct (transcript_file st5); exact E.
Qed.

Lemma start_starts st :
  running st = false ->
  _active (start st) = _active st /\ running (start st) = true.
Proof.
  intros R. unfold start. rewrite R. cbv zeta. split; [|reflexivity].
  simpl. rewrite discard_queue_shape. simpl.
  unfold clear_transcript. destruct (transcript_file _); reflexivity.
Qed.

Lemma resume_cases st :
  resume st = st
  \/ (running st = false
      /\ _active (resume st) = _active st /\ running (resume st) = true).
Proof.
  unfold resume. destruct (running st) eqn:R; auto.
  destruct (negb (_paused st)); auto. right. cbv zeta.
  split; [reflexivity|]. split; [|reflexivity].
  destruct (_transcriber_thread _) as [tid|]; simpl;
    [destruct (worker_alive _ _)|]; reflexivity.
Qed.

Lemma worker_step_scheduler tid st :
  _active (worker_step tid st) = _active st
  /\ running (worker_step tid st) = running st.
Proof.
  rewrite worker_step_shape. split; reflexivity.
Qed.

Lemma segment_iter_identity r seg st :
  _started_at (fst (segment_iter r seg st)) = _started_at seg
  /\ _active (snd (segment_iter r seg st)) = _active st
  /\ _scheduler (snd (segment_iter r seg st)) = _scheduler st.
Proof.
  unfold segment_iter, finalize.
  repeat break_match; simpl; repeat split; reflexivity.
Qed.

Lemma replace_segment_times id seg seg' l :
  find (fun s => Nat.eqb (seg_id s) id) l = Some seg ->
  _started_at seg' = _started_at seg ->
  map _started_at (replace_segment id seg' l) = map _started_at l.
Proof.
  intros F E. induction l as [|x l IH]; simpl in *; [reflexivity|].
  destruct (Nat.eqb (seg_id x) id); simpl.
  - inversion F; subst. rewrite E. reflexivity.
  - rewrite IH; auto.
Qed.

Lemma segment_read_schedule id r st :
  map _started_at (_active (segment_read id r st))
  = map _started_at (_active st)
  /\ running (segment_read id r st) = running st.
Proof.
  unfold segment_read. destruct (find_segment id st) as [seg|] eqn:F;
    [|split; reflexivity].
  destruct (segment_iter_identity r seg st) as (E & A & S).
  destruct (segment_iter r seg st) as [seg' st']. simpl in *.
  split.
  - rewrite A. apply replace_segment_times with (seg := seg); auto.
  - unfold running. simpl. rewrite S. reflexivity.
Qed.

Lemma watch_segment_schedule id st :
  (_active (_watch_segment id st) = _active st
   \/ _active (_watch_segment id st) = remove_segment id (_active st))
  /\ running (_watch_segment id st) = running st.
Proof.
  unfold _watch_segment. destruct (find_segment id st) as [seg|]; auto.
  destruct (seg_alive seg); auto.
  rewrite file_segment_shape. split; [right|]; reflexivity.
Qed.

Lemma remove_segment_length id l :
  List.length (remove_segment id l) <= List.length l.
Proof.
  induction l as [|x l IH]; simpl; auto.
  destruct (Nat.eqb (seg_id x) id); simpl; lia.
Qed.

Lemma on_schedule_transfer G last st st' :
  running st' = running st ->
  (_active st = [] -> _active st' = []) ->
  (forall t, spaced G (map _started_at (_active st)) t ->
             spaced G (map _started_at (_active st')) t) ->
  on_schedule G last st -> on_schedule G last st'.
Proof.
  unfold on_schedule. intros -> He Hs.
  destruct (running st); [|exact He]. destruct last; auto.
Qed.

Lemma on_schedule_stopped G last st :
  running st = false -> _active st = [] -> on_schedule G last st.
Proof. unfold on_schedule. intros -> H. exact H. Qed.

Lemma crowd_nonneg st : (0 <= crowd st)%Z.
Proof. unfold crowd. lia. Qed.

Lemma crowd_nil st : _active st = [] -> crowd st = 0%Z.
Proof. unfold crowd. intros ->. reflexivity. Qed.

(** One event of a punctual, timely run keeps the active list on schedule
    and within the bound. *)
Lemma step_on_schedule D G L last st x :
  (0 < G)%Z -> (0 < L)%Z ->
  on_schedule G last st -> (crowd st <= ceil_div L G)%Z ->
  well_timed D G last st x = true ->
  match what x with
  | Spawn now =>
      forallb (fun seg => (now - _started_at seg <? L)%Z) (_active st)
  | _ => true
  end = true ->
  on_schedule G (last_spawn last st x) (step st (what x))
  /\ (crowd (step st (what x)) <= ceil_div L G)%Z.
Proof.
  intros HG HL Hs Hc Hw Ht.
  pose proof (crowd_nonneg st) as H0.
  unfold last_spawn, well_timed in *.
  destruct (what x) as [| |b|b|d b|now|id r|id|tid]; simpl.
  - (* start *)
    destruct (running st) eqn:R.
    + unfold start. rewrite R. auto.
    + destruct (start_starts st R) as [A R'].
      assert (E : _active st = []).
      { unfold on_schedule in Hs. rewrite R in Hs. exact Hs. }
      split.
      * unfold on_schedule. rewrite R', A. exact E.
      * rewrite crowd_nil; [lia | congruence].
  - (* resume *)
    destruct (resume_cases st) as [E|(R & A & R')].
    + rewrite E. split; [|exact Hc].
      destruct (running st) eqn:R; auto.
      apply on_schedule_stopped; auto.
      unfold on_schedule in Hs. rewrite R in Hs. exact Hs.
    + rewrite R.
      assert (E : _active st = []).
      { unfold on_schedule in Hs. rewrite R in Hs. exact Hs. }
      split.
      * unfold on_schedule. rewrite R', A. exact E.
      * rewrite crowd_nil; [lia | congruence].
  - (* pause *)
    unfold pause. destruct (running st); [|auto].
    destruct (shutdown_stops true b st) as [A R].
    split; [apply on_schedule_stopped; auto | rewrite crowd_nil; auto; lia].
  - (* stop *)
    destruct (shutdown_stops false b st) as [A R].
    split; [apply on_schedule_stopped; auto | rewrite crowd_nil; auto; lia].
  - (* cancel *)
    destruct (cancel_stops d b st) as [A R].
    split; [apply on_schedule_stopped; auto | rewrite crowd_nil; auto; lia].
  - (* the scheduler spawns *)
    unfold schedule_spawn, spawning in *.
    destruct (running st && negb (_stop_all st)) eqn:Sp; [|auto].
    apply andb_true_iff in Hw. destruct Hw as [_ Hw].
    assert (R : running st = true).
    { apply andb_true_iff in Sp. apply Sp. }
    set (ts := map _started_at (_active st)).
    assert (Hsp : spaced G (ts ++ [now]) now).
    { unfold on_schedule in Hs. rewrite R in Hs. destruct last as [t|].
      - apply spaced_snoc with (t := t); [lia | exact Hs|].
        apply Z.leb_le. exact Hw.
      - unfold ts. rewrite Hs. apply spaced_single. }
    assert (Et : map _started_at (_active st ++ [new_segment (next_id st) now])
                 = ts ++ [now]).
    { rewrite map_app. reflexivity. }
    split.
    + unfold on_schedule. simpl.
      change (running (set_next_id (S (next_id st))
                (set_active (_active st ++ [new_segment (next_id st) now]) st)))
        with (running st).
      rewrite R, Et. exact Hsp.
    + unfold crowd. simpl.
      rewrite <- (length_map _started_at), Et.
      apply ceil_div_bound; [exact HG|].
      destruct Hsp as [S1 F1].
      replace (L - 1)%Z with (now - (now - L) - 1)%Z by lia.
      apply spaced_span; auto; [lia| |].
      * apply Forall_app. split.
        -- unfold ts. rewrite Forall_forall. intros s Hs'.
           apply in_map_iff in Hs'. destruct Hs' as (seg & <- & Hseg).
           rewrite forallb_forall in Ht. specialize (Ht seg Hseg).
           apply Z.ltb_lt in Ht. lia.
        -- constructor; [lia | constructor].
      * destruct ts; discriminate.
  - (* a block read *)
    destruct (segment_read_schedule id r st) as [E R].
    split.
    + eapply on_schedule_transfer; [exact R | | |exact Hs].
      * intros A. rewrite A in E. simpl in E.
        apply map_eq_nil in E. exact E.
      * intros t. rewrite E. auto.
    + unfold crowd in *.
      rewrite <- (length_map _started_at), E, length_map. exact Hc.
  - (* a watcher *)
    destruct (watch_segment_schedule id st) as [[A|A] R].
    + split.
      * eapply on_schedule_transfer; [exact R | | |exact Hs];
          rewrite A; auto.
      * unfold crowd in *. rewrite A. exact Hc.
    + split.
      * eapply on_schedule_transfer; [exact R | | |exact Hs]; rewrite A.
        -- intros ->. reflexivity.
        -- intros t. apply spaced_remove.
      * unfold crowd in *. rewrite A.
        pose proof (remove_segment_length id (_active st)). lia.
  - (* the worker *)
    destruct (worker_step_scheduler tid st) as [A R].
    split.
    + eapply on_schedule_transfer; [exact R | | |exact Hs]; rewrite A; auto.
    + unfold crowd in *. rewrite A. exact Hc.
Qed.

(** Along a punctual, timely run the invariant holds after every prefix. *)
Lemma run_on_schedule D G L :
  (0 < G)%Z -> (0 < L)%Z ->
  forall xs last clock st,
    on_schedule G last st -> (crowd st <= ceil_div L G)%Z ->
    punctual D G last clock st xs = true ->
    timely L st xs = true ->
    forall k,
      (crowd (exec st (map what (firstn k xs))) <= ceil_div L G)%Z.
Proof.
  intros HG HL. induction xs as [|x rest IH];
    intros last clock st Hs Hc Hp Ht k.
  - destruct k; exact Hc.
  - destruct k as [|k]; [exact Hc|].
    simpl in Hp, Ht.
    apply andb_true_iff in Hp. destruct Hp as [Hp Hrest].
    apply andb_true_iff in Hp. destruct Hp as [_ Hw].
    apply andb_true_iff in Ht. destruct Ht as [Hx Ht].
    destruct (@step_on_schedule D G L last st x HG HL Hs Hc Hw Hx)
      as [Hs' Hc'].
    simpl. unfold exec in *. simpl.
    exact (IH _ _ _ Hs' Hc' Hrest Ht k).
Qed.

Lemma init_on_schedule G client retries old :
  on_schedule G None (init client retries old).
Proof. reflexivity. Qed.

(** *** How long a segment stays in the active list *)

Lemma mark_read_fresh D J B W t id seg' : forall segs marks,
  (0 <= B)%Z ->
  Forall2 (fresh D J B) segs marks ->
  all_on_time B W t segs marks = true ->
  (forall seg,
     find (fun s => Nat.eqb (seg_id s) id) segs = Some seg ->
     _started_at seg' = _started_at seg
     /\ (seg_alive seg = false -> seg' = seg)
     /\ (seg_alive seg = true -> seg_alive seg' = true ->
         (t - _started_at seg < D + J)%Z)) ->
  Forall2 (fresh D J B) (replace_segment id seg' segs)
    (mark_read id t segs marks).
Proof.
  intros segs marks HB F. induction F as [|s m segs marks Hs F IH];
    intros Ht Hseg; simpl in *; [constructor|].
  apply andb_true_iff in Ht. destruct Ht as [Hsm Ht].
  destruct (Nat.eqb (seg_id s) id) eqn:E.
  - destruct (Hseg s eq_refl) as (Est & Hdead & Hlive).
    constructor; [|exact F].
    unfold fresh, on_time in *. rewrite Est.
    destruct (seg_alive s) eqn:A.
    + apply Z.leb_le in Hsm.
      destruct (seg_alive seg') eqn:A'; [apply Hlive; auto | lia].
    + rewrite (Hdead eq_refl), A. exact Hs.
  - constructor; [exact Hs|]. apply IH; auto.
Qed.

Lemma mark_remove_fresh D J B id : forall segs marks,
  Forall2 (fresh D J B) segs marks ->
  Forall2 (fresh D J B)
    (match find (fun s => Nat.eqb (seg_id s) id) segs with
     | Some seg => if seg_alive seg then segs else remove_segment id segs
     | None => segs
     end)
    (mark_remove id segs marks).
Proof.
  intros segs marks F. induction F as [|s m segs marks Hs F IH]; simpl;
    [constructor|].
  destruct (Nat.eqb (seg_id s) id) eqn:E.
  - destruct (seg_alive s); [constructor; auto | exact F].
  - destruct (find (fun s => Nat.eqb (seg_id s) id) segs) as [seg|];
      [destruct (seg_alive seg)|]; constructor; auto.
Qed.

(** A thread that is on time has been in the list for less than the
    duration and the lags. *)
Lemma on_time_young D J B W t : forall segs marks,
  (0 <= B)%Z -> (0 <= W)%Z ->
  Forall2 (fresh D J B) segs marks ->
  all_on_time B W t segs marks = true ->
  forallb (fun seg => (t - _started_at seg <? D + J + B + W)%Z) segs = true.
Proof.
  intros segs marks HB HW F. induction F as [|s m segs marks Hs F IH];
    intros Ht; simpl in *; [reflexivity|].
  apply andb_true_iff in Ht. destruct Ht as [Hsm Ht].
  apply andb_true_iff. split; [|auto].
  apply Z.ltb_lt. unfold fresh, on_time in *.
  destruct (seg_alive s); apply Z.leb_le in Hsm; lia.
Qed.

Lemma watch_segment_active id st :
  _active (_watch_segment id st)
  = match find_segment id st with
    | Some seg =>
        if seg_alive seg then _active st
        else remove_segment id (_active st)
    | None => _active st
    end.
Proof.
  unfold _watch_segment. destruct (find_segment id st) as [seg|];
    [|reflexivity].
  destruct (seg_alive seg); [reflexivity|].
  rewrite file_segment_shape. reflexivity.
Qed.

Lemma segment_iter_alive r seg st :
  (seg_alive seg = false -> fst (segment_iter r seg st) = seg)
  /\ (seg_alive seg = true ->
      seg_alive (fst (segment_iter r seg st)) = true ->
      r = Block false /\ stop_event seg = false).
Proof.
  unfold segment_iter, finalize. split.
  - intros ->. reflexivity.
  - intros ->. simpl. destruct (stop_event seg).
    + destruct (Nat.eqb (frames seg) 0); simpl; discriminate.
    + destruct r as [[|]|]; simpl; try discriminate; auto.
Qed.

(** One event keeps the marks no later than the code allows. *)
Lemma step_fresh D G J B W last marks st x :
  (0 < D)%Z -> (0 <= J)%Z -> (0 <= B)%Z ->
  Forall2 (fresh D J B) (_active st) marks ->
  well_timed D G last st x = true ->
  all_on_time B W (time_of x) (_active st) marks = true ->
  not_yet D J st x = true ->
  Forall2 (fresh D J B) (_active (step st (what x))) (marks_after marks st x).
Proof.
  intros HD HJ HB F Hw Ht Hn.
  unfold marks_after, not_yet, well_timed in *.
  destruct (what x) as [| |b|b|d b|now|id r|id|tid]; cbn [step].
  - destruct (running st) eqn:R.
    + unfold start. rewrite R. exact F.
    + destruct (start_starts st R) as [-> _]. exact F.
  - destruct (resume_cases st) as [->|(_ & -> & _)]; exact F.
  - unfold pause. destruct (running st); [|exact F].
    destruct (shutdown_stops true b st) as [-> _]. constructor.
  - unfold stop. destruct (shutdown_stops false b st) as [-> _].
    constructor.
  - destruct (cancel_stops d b st) as [-> _]. constructor.
  - unfold schedule_spawn, spawning.
    destruct (running st && negb (_stop_all st)); [|exact F]. simpl.
    apply Forall2_app; [exact F|].
    constructor; [|constructor]. unfold fresh. simpl. lia.
  - unfold segment_read.
    destruct (find_segment id st) as [seg|] eqn:Fs.
    + destruct (segment_iter_identity r seg st) as (Est & A & _).
      destruct (segment_iter_alive r seg st) as [Hdead Hlive].
      destruct (segment_iter r seg st) as [seg' st']. simpl in *.
      rewrite A.
      apply mark_read_fresh with (W := W); auto.
      intros seg0 F0. unfold find_segment in Fs. rewrite Fs in F0.
      inversion F0; subst seg0.
      split; [exact Est|]. split; [exact Hdead|].
      intros Al Al'. destruct (Hlive Al Al') as [-> Se].
      rewrite Al, Se in Hn. simpl in Hn. apply Z.ltb_lt in Hn. exact Hn.
    + assert (E : mark_read id (time_of x) (_active st) marks = marks).
      { unfold find_segment in Fs. clear - F Fs.
        induction F as [|s m segs marks Hs F IH]; simpl in *;
          [reflexivity|].
        destruct (Nat.eqb (seg_id s) id); [discriminate|].
        rewrite IH; auto. }
      rewrite E. exact F.
  - rewrite watch_segment_active. apply mark_remove_fresh, F.
  - destruct (worker_step_scheduler tid st) as [-> _]. exact F.
Qed.

(** The lifetime of a segment follows from the pace of the threads: in a
    run whose events come when the code allows and whose threads are on
    time, a segment is in the active list for less than
    [D + J + B + W]. *)
Lemma prompt_timely D G J B W :
  (0 < D)%Z -> (0 <= J)%Z -> (0 <= B)%Z -> (0 <= W)%Z ->
  forall xs last clock marks st,
    Forall2 (fresh D J B) (_active st) marks ->
    punctual D G last clock st xs = true ->
    prompt D J B W marks st xs = true ->
    timely (D + J + B + W) st xs = true.
Proof.
  intros HD HJ HB HW. induction xs as [|x rest IH];
    intros last clock marks st F Hp Hq; [reflexivity|].
  simpl in Hp, Hq. simpl.
  apply andb_true_iff in Hp. destruct Hp as [Hp Hrest].
  apply andb_true_iff in Hp. destruct Hp as [_ Hw].
  apply andb_true_iff in Hq. destruct Hq as [Hq Hqrest].
  apply andb_true_iff in Hq. destruct Hq as [Ht Hn].
  apply andb_true_iff. split.
  - destruct (what x) as [| |b|b|d b|now|id r|id|tid] eqn:E; auto.
    assert (En : now = time_of x).
    { unfold well_timed in Hw. rewrite E in Hw.
      apply andb_true_iff in Hw. destruct Hw as [Hw _].
      apply Z.eqb_eq in Hw. exact Hw. }
    rewrite En. eapply on_time_young; eauto.
  - eapply IH; [|exact Hrest|exact Hqrest].
    eapply step_fresh; eauto.
Qed.

Lemma ceil_div_slack D G L :
  (0 < G)%Z -> (L <= G * ceil_div D G)%Z ->
  (ceil_div L G <= ceil_div D G)%Z.
Proof.
  intros HG H. unfold ceil_div at 1.
  assert (E : ((L + G - 1) / G < ceil_div D G + 1)%Z).
  { apply Z.div_lt_upper_bound; lia. }
  lia.
Qed.

(** C9, as the code has it.  Take any run from the initial state whose
    events come at times the code allows: the scheduler spawns no sooner
    than [gapInterval] after its previous spawn, and a block read finds the
    time of its capture up only when [segmentDuration] has passed since the
    segment was created.  Let the threads of a capture be on time: [run()]
    takes its [start] no more than [J] after the segment was created, so
    that a read which does not find the time up comes less than
    [segmentDuration + J] after the creation; a capture in its loop
    finishes a block read at least every [B]; and the watcher of a capture
    that has ended removes it from the active list within [W].  Then,
    whenever the scheduler spawns, every segment still in the active list
    was created less than [segmentDuration + J + B + W] earlier; in every
    state of the run the active list holds at most
    [ceil((segmentDuration + J + B + W) / gapInterval)] segments; and it
    holds at most [ceil(segmentDuration / gapInterval)] when the lags fit
    into what is left of the last gap:
    [segmentDuration + J + B + W <= gapInterval * ceil(segmentDuration /
    gapInterval)]. *)
Theorem active_bounded_by_lifetime D G J B W client retries old t0 run k :
  (0 < G)%Z -> (0 < D)%Z -> (0 <= J)%Z -> (0 <= B)%Z -> (0 <= W)%Z ->
  punctual D G None t0 (init client retries old) run = true ->
  prompt D J B W [] (init client retries old) run = true ->
  let L := (D + J + B + W)%Z in
  let st := exec (init client retries old) (map what (firstn k run)) in
  timely L (init client retries old) run = true
  /\ (crowd st <= ceil_div L G)%Z
  /\ ((L <= G * ceil_div D G)%Z -> (crowd st <= ceil_div D G)%Z).
Proof.
  intros HG HD HJ HB HW Hp Hq L st.
  assert (Ht : timely L (init client retries old) run = true).
  { apply (@prompt_timely D G J B W HD HJ HB HW run None t0 []); auto. }
  assert (Hc : (crowd st <= ceil_div L G)%Z).
  { apply (@run_on_schedule D G L HG ltac:(unfold L; lia) run None t0);
      auto using init_on_schedule.
    unfold ceil_div. rewrite crowd_nil by reflexivity.
    apply Z.div_pos; unfold L; lia. }
  split; [exact Ht|]. split; [exact Hc|].
  intros Hs. pose proof (@ceil_div_slack D G L HG Hs). lia.
Qed.

Lemma active_bounded_by_lifetime_witness :
  let st := init Demo.two_words 3 None in
  punctual 15000 12000 None 0 st Demo.default_pace = true
  /\ prompt 15000 0 64 10 [] st Demo.default_pace = true
  /\ ceil_div 15000 12000 = 2%Z
  /\ (crowd (exec st (map what (firstn 428 Demo.default_pace))) <= 2)%Z.
Proof.
  intros st.
  assert (Hp : punctual 15000 12000 None 0 st Demo.default_pace = true)
    by (vm_compute; reflexivity).
  assert (Hq : prompt 15000 0 64 10 [] st Demo.default_pace = true)
    by (vm_compute; reflexivity).
  split; [exact Hp|]. split; [exact Hq|].
  split; [vm_compute; reflexivity|].
  destruct (@active_bounded_by_lifetime 15000 12000 0 64 10 Demo.two_words 3
              None 0 Demo.default_pace 428) as (_ & _ & H);
    [lia | lia | lia | lia | lia | exact Hp | exact Hq |].
  apply H. vm_compute. discriminate.
Defined.

(** C9, as stated, fails.  With a duration of 24 s and a gap of 12 s the
    bound [ceil(segmentDuration / gapInterval)] is 2.  The scheduler spawns
    at 0 s, 12.001 s and 24.002 s, each time after its wait of 12 s has
    timed out.  Every capture reads a block every 64 ms and [run()] takes
    its [start] at once; the read of the first capture at 23.946 s finds
    [time.time() - start < 24], and its next read comes at 24.010 s.  At
    24.002 s the scheduler appends the third segment while the first is
    still in the active list: three segments, which is the bound
    [ceil((24 + 0.064 + 0.010) / 12)] of a run that is on time. *)
Lemma three_active_with_double_gap :
  ~ (forall D G client retries old t0 run k,
       (0 < G)%Z -> (0 < D)%Z ->
       punctual D G None t0 (init client retries old) run = true ->
       prompt D 0 64 10 [] (init client retries old) run = true ->
       (crowd (exec (init client retries old) (map what (firstn k run)))
        <= ceil_div D G)%Z)
  /\ (let st := exec (init Demo.two_words 3 None)
                  (map what Demo.double_gap) in
      punctual 24000 12000 None 0 (init Demo.two_words 3 None)
        Demo.double_gap = true
      /\ prompt 24000 0 64 10 [] (init Demo.two_words 3 None)
           Demo.double_gap = true
      /\ running st = true
      /\ map _started_at (_active st) = [0; 12001; 24002]%Z
      /\ map seg_alive (_active st) = [true; true; true]
      /\ crowd st = 3%Z
      /\ ceil_div 24000 12000 = 2%Z
      /\ ceil_div (24000 + 0 + 64 + 10) 12000 = 3%Z).
Proof.
  split.
  - intros H.
    specialize (H 24000%Z 12000%Z Demo.two_words 3%Z None 0%Z
                  Demo.double_gap 566 ltac:(lia) ltac:(lia)
                  ltac:(vm_compute; reflexivity)
                  ltac:(vm_compute; reflexivity)).
    assert (E : crowd (exec (init Demo.two_words 3 None)
                         (map what (firstn 566 Demo.double_gap))) = 3%Z)
      by (vm_compute; reflexivity).
    assert (E' : ceil_div 24000 12000 = 2%Z) by (vm_compute; reflexivity).
    rewrite E, E' in H. lia.
  - vm_compute. repeat split; reflexivity.
Qed.

(* ================================================================= *)
(** * Further properties of the pipeline *)

(** ** A stopped session records nothing *)

Lemma schedule_spawn_running now st :
  running (schedule_spawn now st) = running st.
Proof. unfold schedule_spawn. destruct (_ && _); reflexivity. Qed.

Lemma step_idle st e :
  (running st = false -> _active st = []) ->
  running (step st e) = false -> _active (step st e) = [].
Proof.
  intros H. destruct e as [| |b|b|d b|now|id r|id|tid]; simpl.
  - destruct (running st) eqn:R.
    + unfold start. rewrite R, R. discriminate.
    + destruct (start_starts st R) as [_ R']. rewrite R'. discriminate.
  - destruct (resume_cases st) as [E|(_ & _ & R')].
    + rewrite E. exact H.
    + rewrite R'. discriminate.
  - unfold pause. destruct (running st) eqn:R; [|rewrite R; exact H].
    intros _. apply shutdown_stops.
  - intros _. apply shutdown_stops.
  - intros _. apply cancel_stops.
  - rewrite schedule_spawn_running. intros R. unfold schedule_spawn.
    rewrite R. simpl. auto.
  - destruct (segment_read_schedule id r st) as [E R]. rewrite R.
    intros R'. rewrite (H R') in E. apply map_eq_nil in E. exact E.
  - destruct (watch_segment_schedule id st) as [[A|A] R]; rewrite R, A;
      intros R'; rewrite (H R'); reflexivity.
  - destruct (worker_step_scheduler tid st) as [A R]. rewrite R, A. exact H.
Qed.

(** X4.  The scheduler is the only thread that adds to the active list, and it
    empties the list as it leaves: in every state the session reaches, no
    segment is in the active list unless the scheduler is alive. *)
Theorem idle_session_has_no_active_segment :
  forall client retries old (es : list event),
    let st := exec (init client retries old) es in
    running st = false -> _active st = [].
Proof.
  intros client retries old es. unfold exec. simpl.
  assert (G : forall st,
             (running st = false -> _active st = []) ->
             running (fold_left step es st) = false ->
             _active (fold_left step es st) = []).
  { induction es as [|e es IH]; intros st H; simpl; [exact H|].
    apply IH. apply step_idle, H. }
  apply G. reflexivity.
Qed.

Lemma idle_session_has_no_active_segment_witness :
  let st0 := exec (init Demo.two_words 3 None) Demo.mid_recording in
  let st := exec (init Demo.two_words 3 None)
              (Demo.mid_recording ++ [Pause 0]) in
  List.length (_active st0) = 2 /\ running st = false /\ _active st = [].
Proof.
  intros st0 st.
  split; [vm_compute; reflexivity|].
  assert (R : running st = false) by (vm_compute; reflexivity).
  split; [exact R|].
  exact (@idle_session_has_no_active_segment Demo.two_words 3 None
           (Demo.mid_recording ++ [Pause 0]) R).
Defined.

(** ** Tuples in the handoff queue *)

(** X6.  In every state the session reaches, an entry of the handoff queue is a
    path under a finite start time or the sentinel [(inf, None)].  Two
    entries with the same key are then both paths or both the sentinel: the
    queue never has to order a path against [None]. *)
Theorem handoff_items_comparable :
  forall client retries old (es : list event),
    let q := _pending_queue (exec (init client retries old) es) in
    queue_ok q
    /\ (forall a b, In a q -> In b q -> fst a = fst b ->
          (snd a = None <-> snd b = None)).
Proof.
  intros client retries old es q.
  assert (H : queue_ok q) by (apply exec_ok; constructor).
  split; [exact H|].
  intros a b Ha Hb E.
  unfold queue_ok in H. rewrite Forall_forall in H.
  pose proof (H _ Ha) as Oa. pose proof (H _ Hb) as Ob.
  destruct a as [ka [pa|]], b as [kb [pb|]]; simpl in *; subst kb;
    destruct ka; simpl in *; try contradiction;
    split; intros X; try discriminate X; reflexivity.
Qed.

(** ** What an idle worker takes from the queue *)

Lemma key_leb_inf k : key_leb Inf k = true -> k = Inf.
Proof. destruct k; simpl; [discriminate | reflexivity]. Qed.

(** X7.  An idle worker that polls a well-formed queue takes the artifact with
    the earliest start time, and it leaves its loop only when the queue
    holds no artifact at all: the sentinel [(inf, None)] is the last item to
    come out, however early it was put in.  On an empty queue the poll
    changes nothing. *)
Theorem worker_takes_earliest_and_leaves_last :
  forall tid st,
    worker_state tid st = Some None ->
    queue_ok (_pending_queue st) ->
    let st' := worker_take tid st in
    (forall k p, worker_state tid st' = Some (Some (k, p)) ->
       In (k, Some p) (_pending_queue st)
       /\ (forall y, In y (_pending_queue st) -> key_leb k (fst y) = true)
       /\ S (List.length (_pending_queue st'))
          = List.length (_pending_queue st))
    /\ (worker_alive tid st' = false ->
        forall p, ~ queued (_pending_queue st) p)
    /\ (_pending_queue st = [] -> st' = st).
Proof.
  intros tid st Hw Hq st'.
  assert (Ha : worker_alive tid st = true).
  { apply worker_alive_state. rewrite Hw. discriminate. }
  unfold st', worker_take. rewrite Hw.
  destruct (pq_get (_pending_queue st)) as [[[k [p|]] q']|] eqn:Hg.
  - destruct (pq_get_spec _ Hg) as (Hin & Hleast & _ & _ & Hlen).
    set (s1 := set_pending_queue q' st).
    assert (E : worker_state tid (set_worker tid (Some (k, p)) s1)
                = Some (Some (k, p))).
    { apply worker_state_set_worker.
      change (worker_state tid s1) with (worker_state tid st).
      rewrite Hw. discriminate. }
    split; [|split].
    + intros k' p' E'. rewrite E in E'. inversion E'; subst.
      split; [exact Hin|]. split; [exact Hleast | exact Hlen].
    + rewrite worker_alive_set_worker.
      change (worker_alive tid s1) with (worker_alive tid st).
      rewrite Ha. discriminate.
    + intros Eq. rewrite Eq in Hg. discriminate.
  - destruct (pq_get_spec _ Hg) as (Hin & Hleast & _).
    unfold queue_ok in Hq. rewrite Forall_forall in Hq.
    assert (Ek : k = Inf) by (apply item_ok_sentinel, (Hq _ Hin)).
    subst k.
    split; [|split].
    + intros k' p' E'.
      assert (D : worker_alive tid (end_worker tid (set_pending_queue q' st))
                  = false) by apply worker_alive_end_worker.
      assert (N : worker_alive tid (end_worker tid (set_pending_queue q' st))
                  = true).
      { apply worker_alive_state. rewrite E'. discriminate. }
      rewrite D in N. discriminate.
    + intros _ p (k' & Hp).
      pose proof (Hleast _ Hp) as L. simpl in L.
      apply key_leb_inf in L. subst k'.
      exact (Hq _ Hp).
    + intros Eq. rewrite Eq in Hg. discriminate.
  - split; [|split].
    + intros k p E. rewrite Hw in E. discriminate.
    + rewrite Ha. discriminate.
    + reflexivity.
Qed.

Lemma worker_takes_earliest_and_leaves_last_witness :
  let st := exec (init Demo.two_words 3 None)
              [ Start; Spawn 0; Spawn 12; Read 2 (Block true); Watch 2;
                Read 1 (Block true); Watch 1 ] in
  _pending_queue st = [(Fin 12, Some 0); (Fin 0, Some 1)]
  /\ worker_state 0 (worker_take 0 st) = Some (Some (Fin 0, 1))
  /\ In (Fin 0, Some 1) (_pending_queue st).
Proof.
  intros st.
  assert (Hw : worker_state 0 st = Some None) by (vm_compute; reflexivity).
  assert (Hq : queue_ok (_pending_queue st)) by (apply exec_ok; constructor).
  assert (Ht : worker_state 0 (worker_take 0 st) = Some (Some (Fin 0, 1)))
    by (vm_compute; reflexivity).
  split; [vm_compute; reflexivity|]. split; [exact Ht|].
  destruct (@worker_takes_earliest_and_leaves_last 0 st Hw Hq) as (H & _ & _).
  apply (H (Fin 0) 1 Ht).
Defined.

(** ** Time spent asleep between attempts *)

Lemma attempts_sleep n : forall a p st,
  (a + Z.of_nat n = max_retries st + 1)%Z ->
  0 < n ->
  let st' := snd (transcribe_attempts n a p st) in
  let c := (Z.of_nat (List.length (llm_calls st'))
            - Z.of_nat (List.length (llm_calls st)))%Z in
  (1 <= c <= Z.of_nat n)%Z
  /\ (c - 1 <= slept st' - slept st <= 5 * (c - 1))%Z.
Proof.
  induction n as [|n IH]; intros a p st Ha Hn; [lia|]. simpl.
  set (st1 := set_llm_calls (llm_calls st ++ [p]) st).
  assert (L1 : List.length (llm_calls st1) = S (List.length (llm_calls st))).
  { simpl. rewrite length_app. simpl. lia. }
  assert (Hone :
    (1 <= Z.of_nat (List.length (llm_calls st1))
          - Z.of_nat (List.length (llm_calls st)) <= Z.of_nat (S n))%Z
    /\ (Z.of_nat (List.length (llm_calls st1))
        - Z.of_nat (List.length (llm_calls st)) - 1
        <= slept st1 - slept st
        <= 5 * (Z.of_nat (List.length (llm_calls st1))
                - Z.of_nat (List.length (llm_calls st)) - 1))%Z).
  { rewrite L1. simpl slept. lia. }
  assert (Hrec : forall d, (1 <= d <= 5)%Z ->
    (a =? max_retries st)%Z = false ->
    let X := snd (transcribe_attempts n (a + 1) p (sleep d st1)) in
    (1 <= Z.of_nat (List.length (llm_calls X))
          - Z.of_nat (List.length (llm_calls st)) <= Z.of_nat (S n))%Z
    /\ (Z.of_nat (List.length (llm_calls X))
        - Z.of_nat (List.length (llm_calls st)) - 1
        <= slept X - slept st
        <= 5 * (Z.of_nat (List.length (llm_calls X))
                - Z.of_nat (List.length (llm_calls st)) - 1))%Z).
  { intros d Hd Hne X. apply Z.eqb_neq in Hne.
    assert (Hn' : 0 < n) by lia.
    destruct (IH (a + 1)%Z p (sleep d st1)) as [C S]; [simpl; lia | exact Hn' |].
    fold X in C, S.
    change (llm_calls (sleep d st1)) with (llm_calls st1) in C, S.
    change (slept (sleep d st1)) with (slept st + d)%Z in S.
    rewrite L1 in C, S. lia. }
  destruct (llm st (List.length (llm_calls st)) p); simpl; [exact Hone| |];
    destruct (a =? max_retries st)%Z eqn:E; simpl;
    try exact Hone; apply Hrec; auto; lia.
Qed.

(** X9.  [_transcribe_single] with a retry budget that is not negative makes
    between one and [max_retries + 1] requests and sleeps only between two
    requests, one second after a failure and five after a rate limit: with
    [c] requests made, between [c - 1] and [5 * (c - 1)] seconds, and so at
    most [5 * max_retries] seconds in all.  Nothing is slept after the last
    request. *)
Theorem transcription_sleeps_between_attempts :
  forall p st,
    (0 <= max_retries st)%Z ->
    let st' := snd (_transcribe_single p st) in
    let c := (Z.of_nat (List.length (llm_calls st'))
              - Z.of_nat (List.length (llm_calls st)))%Z in
    (1 <= c <= max_retries st + 1)%Z
    /\ (c - 1 <= slept st' - slept st <= 5 * (c - 1))%Z
    /\ (slept st' - slept st <= 5 * max_retries st)%Z.
Proof.
  intros p st Hm st' c.
  destruct (@attempts_sleep (Z.to_nat (max_retries st + 1)) 0%Z p st)
    as [C S]; [lia | lia |].
  fold (_transcribe_single p st) in C, S. fold st' in C, S. fold c in C, S.
  rewrite Z2Nat.id in C by lia.
  split; [exact C|]. split; [exact S|]. lia.
Qed.

Lemma transcription_sleeps_between_attempts_witness :
  let st := init Demo.flaky 3 None in
  let st' := snd (_transcribe_single 0 st) in
  llm_calls st' = [0; 0; 0; 0] /\ slept st' = 7%Z
  /\ (slept st' - slept st <= 5 * max_retries st)%Z.
Proof.
  intros st st'.
  split; [vm_compute; reflexivity|]. split; [vm_compute; reflexivity|].
  apply (@transcription_sleeps_between_attempts 0 st).
  vm_compute. discriminate.
Defined.

(** X10.  With a negative [max_retries] the range of attempts is empty: the
    worker asks the client for nothing, records nothing and sleeps for
    nothing, and still deletes the artifact it holds. *)
Theorem negative_retry_budget_drops_audio :
  forall tid k p st,
    worker_state tid st = Some (Some (k, p)) ->
    (max_retries st < 0)%Z ->
    let st' := worker_process tid st in
    llm_calls st' = llm_calls st /\ slept st' = slept st
    /\ same_text st' st
    /\ ~ In p (files st')
    /\ worker_state tid st' = Some None.
Proof.
  intros tid k p st Hw Hm st'.
  assert (E : _transcribe_single p st = ([], st)).
  { unfold _transcribe_single.
    replace (Z.to_nat (max_retries st + 1)) with 0 by lia. reflexivity. }
  assert (Ep : process_item k p st = unlink p st).
  { unfold process_item. rewrite E. reflexivity. }
  assert (Ex : process_item_raises k p st = false).
  { unfold process_item_raises. rewrite E. reflexivity. }
  assert (Est : st' = set_worker tid None (unlink p st)).
  { unfold st', worker_process. rewrite Hw, Ep, Ex. reflexivity. }
  rewrite Est. split; [|split; [|split; [|split]]].
  - simpl. unfold unlink. destruct (file_exists p st); reflexivity.
  - simpl. unfold unlink. destruct (file_exists p st); reflexivity.
  - eapply same_text_trans; [apply set_worker_text | apply unlink_text].
  - simpl. intros H. apply unlink_files in H. destruct H as [_ N].
    apply N. reflexivity.
  - apply worker_state_set_worker.
    unfold worker_state, unlink. destruct (file_exists p st); simpl;
      fold (worker_state tid st); rewrite Hw; discriminate.
Qed.

Lemma negative_retry_budget_drops_audio_witness :
  let st := exec (init Demo.two_words (-1) None) Demo.one_taken in
  let st' := worker_process 0 st in
  files st = [0] /\ files st' = [] /\ llm_calls st' = [] /\ _results st' = [].
Proof.
  intros st st'.
  assert (Hw : worker_state 0 st = Some (Some (Fin 0, 0)))
    by (vm_compute; reflexivity).
  assert (Hm : (max_retries st < 0)%Z) by (vm_compute; reflexivity).
  destruct (@negative_retry_budget_drops_audio 0 (Fin 0) 0 st Hw Hm)
    as (C & _ & [R _] & _).
  fold st' in C, R.
  split; [vm_compute; reflexivity|]. split; [vm_compute; reflexivity|].
  split; [rewrite C | rewrite R]; vm_compute; reflexivity.
Defined.

Lemma worker_process_deletes_witness :
  let st := exec (init Demo.down 3 None) Demo.one_taken in
  let st' := worker_process 0 st in
  files st = [0] /\ llm_calls st' = [0; 0; 0; 0] /\ _results st' = []
  /\ ~ In 0 (files st') /\ deleted st' = [0].
Proof.
  intros st st'.
  assert (Hw : worker_state 0 st = Some (Some (Fin 0, 0)))
    by (vm_compute; reflexivity).
  destruct (@worker_process_deletes 0 (Fin 0) 0 st Hw) as (_ & H & _).
  destruct H as (N & D & _); [vm_compute; reflexivity|].
  fold st' in N, D.
  split; [vm_compute; reflexivity|]. split; [vm_compute; reflexivity|].
  split; [vm_compute; reflexivity|]. split; [exact N|].
  rewrite D. vm_compute. reflexivity.
Defined.

(** ** How a capture ends *)

Lemma run_dead script : forall seg st,
  seg_alive seg = false ->
  run script seg st = (set_stop_event true seg, st).
Proof.
  induction script as [|r script IH]; intros seg st D; simpl.
  - unfold stop_and_join. simpl. rewrite D. reflexivity.
  - unfold segment_iter. rewrite D. simpl. apply IH, D.
Qed.

Lemma run_blocks n : forall script seg st,
  seg_alive seg = true -> stop_event seg = false ->
  run (repeat (Block false) n ++ script) seg st
  = run script (set_frames (n + frames seg) seg) st.
Proof.
  induction n as [|n IH]; intros script seg st A E; simpl.
  - destruct seg; reflexivity.
  - unfold segment_iter. rewrite A, E. simpl.
    rewrite IH by (simpl; assumption). simpl.
    replace (n + S (frames seg)) with (S (n + frames seg)) by lia.
    reflexivity.
Qed.

(** X2.  A capture that reads [n] blocks and then finds the device failing
    leaves without an artifact, whatever it had stored: the [n] blocks are
    lost, storage is untouched, and nothing that is read afterwards
    counts. *)
Theorem device_error_loses_capture :
  forall n rest id now st,
    run (repeat (Block false) n ++ DeviceError :: rest)
        (new_segment id now) st
    = (mkSegment id now true n false None, st).
Proof.
  intros n rest id now st.
  rewrite run_blocks by reflexivity. simpl.
  rewrite run_dead by reflexivity. simpl.
  rewrite Nat.add_0_r. reflexivity.
Qed.

(** X1.  A capture ends at the first block read that finds [max_duration]
    elapsed: the artifact, under a fresh name, holds the blocks read up to
    and including that one, and none of a later read.  A capture that is
    stopped after [n] blocks, none of which found the time up, writes an
    artifact of these [n] blocks when [n] is positive and none when no block
    was read. *)
Theorem capture_ends_at_first_expiry :
  forall n rest id now st,
    let p := next_tmp st in
    let stored := set_next_tmp (S p) (set_files (p :: files st) st) in
    run (repeat (Block false) n ++ Block true :: rest) (new_segment id now) st
    = (mkSegment id now true (S n) false (Some p), stored)
    /\ run (repeat (Block false) (S n)) (new_segment id now) st
       = (mkSegment id now true (S n) false (Some p), stored)
    /\ run [] (new_segment id now) st
       = (mkSegment id now true 0 false None, st).
Proof.
  intros n rest id now st p stored. split; [|split].
  - rewrite run_blocks by reflexivity. simpl.
    unfold segment_iter, finalize. simpl.
    rewrite run_dead by reflexivity. simpl.
    rewrite Nat.add_0_r. reflexivity.
  - rewrite <- (app_nil_r (repeat (Block false) (S n))).
    rewrite run_blocks by reflexivity.
    cbn [run]. unfold stop_and_join, finalize. simpl.
    rewrite Nat.add_0_r. reflexivity.
  - reflexivity.
Qed.

(** ** [resume()] needs a [pause()] *)

Lemma shutdown_paused f budget st : _paused (_shutdown f budget st) = f.
Proof.
  unfold _shutdown. cbv zeta.
  rewrite join_transcriber_shape. cbv zeta. simpl.
  unfold _stop_active_segments. rewrite flush_segments_shape. simpl.
  unfold join_scheduler, schedule_exit.
  destruct (_ && _); [|reflexivity].
  simpl. unfold _stop_active_segments. rewrite flush_segments_shape.
  reflexivity.
Qed.

(** X16.  [resume()] restarts a session only when [pause()] has stopped it.
    After [stop()], after [cancel()], on a manager that has not been
    started, and on a session that is recording, it returns the state it
    was given; after a [pause()] that took effect it starts the scheduler
    again. *)
Theorem resume_needs_a_pause :
  (forall budget st, resume (stop budget st) = stop budget st)
  /\ (forall during budget st,
        resume (cancel during budget st) = cancel during budget st)
  /\ (forall client retries old,
        resume (init client retries old) = init client retries old)
  /\ (forall st, running st = true -> resume st = st)
  /\ (forall budget st, running st = true ->
        running (pause budget st) = false
        /\ running (resume (pause budget st)) = true).
Proof.
  split; [|split; [|split; [|split]]].
  - intros budget st. unfold resume, stop.
    destruct (shutdown_stops false budget st) as [_ R]. rewrite R.
    rewrite shutdown_paused. reflexivity.
  - intros during budget st. unfold resume.
    destruct (cancel_stops during budget st) as [_ R]. rewrite R.
    unfold cancel. reflexivity.
  - reflexivity.
  - intros st R. unfold resume. rewrite R. reflexivity.
  - intros budget st R. unfold pause. rewrite R.
    destruct (shutdown_stops true budget st) as [_ R'].
    split; [exact R'|].
    unfold resume. rewrite R', shutdown_paused. cbv zeta.
    reflexivity.
Qed.

(** ** Every artifact is handed over once *)

Lemma cnt_app p l1 l2 : cnt p (l1 ++ l2) = cnt p l1 + cnt p l2.
Proof. apply count_occ_app. Qed.

Lemma cnt_opt p o : cnt p (opt_list o) <= 1.
Proof.
  destruct o as [q|]; simpl; [|lia].
  unfold cnt. simpl. destruct (Nat.eq_dec q p); lia.
Qed.

Lemma cnt_some p q : cnt p [q] = if Nat.eq_dec q p then 1 else 0.
Proof. unfold cnt. simpl. destruct (Nat.eq_dec q p); reflexivity. Qed.

Lemma refs_split p st :
  refs p st = cnt p (seg_paths (_active st))
              + cnt p (queue_paths (_pending_queue st))
              + cnt p (held_paths (workers st)).
Proof. unfold refs, claims. rewrite cnt_app, cnt_app. lia. Qed.

Lemma cnt_seg_cons p s l :
  cnt p (seg_paths (s :: l))
  = cnt p (opt_list (file_path s)) + cnt p (seg_paths l).
Proof. unfold seg_paths. simpl. apply cnt_app. Qed.

Lemma cnt_queue_cons p it q :
  cnt p (queue_paths (it :: q))
  = cnt p (opt_list (snd it)) + cnt p (queue_paths q).
Proof. unfold queue_paths. simpl. apply cnt_app. Qed.

Lemma cnt_held_cons p w ws :
  cnt p (held_paths (w :: ws))
  = cnt p (opt_list (option_map snd (snd w))) + cnt p (held_paths ws).
Proof. unfold held_paths. simpl. apply cnt_app. Qed.

Lemma cnt_queue_snoc p q it :
  cnt p (queue_paths (q ++ [it]))
  = cnt p (queue_paths q) + cnt p (opt_list (snd it)).
Proof.
  unfold queue_paths. rewrite flat_map_app, cnt_app. simpl.
  rewrite app_nil_r. reflexivity.
Qed.

Lemma cnt_seg_snoc p l s :
  cnt p (seg_paths (l ++ [s]))
  = cnt p (seg_paths l) + cnt p (opt_list (file_path s)).
Proof.
  unfold seg_paths. rewrite flat_map_app, cnt_app. simpl.
  rewrite app_nil_r. reflexivity.
Qed.

Lemma cnt_held_snoc p ws w :
  cnt p (held_paths (ws ++ [w]))
  = cnt p (held_paths ws) + cnt p (opt_list (option_map snd (snd w))).
Proof.
  unfold held_paths. rewrite flat_map_app, cnt_app. simpl.
  rewrite app_nil_r. reflexivity.
Qed.

Lemma cnt_replace_segment p id seg seg' l :
  find (fun s => Nat.eqb (seg_id s) id) l = Some seg ->
  cnt p (seg_paths (replace_segment id seg' l))
  + cnt p (opt_list (file_path seg))
  = cnt p (seg_paths l) + cnt p (opt_list (file_path seg')).
Proof.
  induction l as [|x l IH]; cbn [find replace_segment];
    [discriminate|].
  destruct (Nat.eqb (seg_id x) id).
  - intros E. inversion E; subst. rewrite !cnt_seg_cons. lia.
  - intros E. rewrite !cnt_seg_cons. specialize (IH E). lia.
Qed.

Lemma cnt_remove_segment p id seg l :
  find (fun s => Nat.eqb (seg_id s) id) l = Some seg ->
  cnt p (seg_paths (remove_segment id l)) + cnt p (opt_list (file_path seg))
  = cnt p (seg_paths l).
Proof.
  induction l as [|x l IH]; cbn [find remove_segment];
    [discriminate|].
  destruct (Nat.eqb (seg_id x) id).
  - intros E. inversion E; subst. rewrite !cnt_seg_cons. lia.
  - intros E. rewrite !cnt_seg_cons. specialize (IH E). lia.
Qed.

Lemma cnt_remove_first p m q :
  In m q ->
  cnt p (queue_paths (remove_first m q)) + cnt p (opt_list (snd m))
  = cnt p (queue_paths q).
Proof.
  induction q as [|y q IH]; cbn [In remove_first]; [contradiction|].
  destruct (item_eqb m y) eqn:E.
  - apply item_eqb_eq in E. subst y. intros _. rewrite cnt_queue_cons. lia.
  - intros [H|H].
    + subst y. assert (X : item_eqb m m = true) by (apply item_eqb_eq; auto).
      rewrite X in E. discriminate.
    + rewrite !cnt_queue_cons. specialize (IH H). lia.
Qed.

Lemma cnt_pq_get p q m q' :
  pq_get q = Some (m, q') ->
  cnt p (queue_paths q') + cnt p (opt_list (snd m)) = cnt p (queue_paths q).
Proof.
  intros H. destruct (pq_get_spec _ H) as (Hin & _).
  destruct q as [|x q0]; [discriminate|].
  unfold pq_get in H. inversion H; subst.
  exact (@cnt_remove_first p (pq_min x q0) (x :: q0) Hin).
Qed.

Lemma once_with_transfer segs segs' st st' :
  (forall p, cnt p (seg_paths segs') + refs p st'
             <= cnt p (seg_paths segs) + refs p st) ->
  next_tmp st <= next_tmp st' ->
  once_with segs st -> once_with segs' st'.
Proof.
  intros H N [A B]. split; intros p.
  - specialize (H p). specialize (A p). lia.
  - intros L. specialize (H p). specialize (B p ltac:(lia)). lia.
Qed.

Lemma once_with_fresh segs segs' st st' :
  (forall p, cnt p (seg_paths segs') + refs p st'
             <= cnt p (seg_paths segs) + refs p st + cnt p [next_tmp st]) ->
  next_tmp st' = S (next_tmp st) ->
  once_with segs st -> once_with segs' st'.
Proof.
  intros H N [A B]. split; intros p.
  - specialize (H p). rewrite cnt_some in H.
    destruct (Nat.eq_dec (next_tmp st) p) as [E|E].
    + specialize (B p ltac:(lia)). lia.
    + specialize (A p). lia.
  - intros L. specialize (H p). rewrite cnt_some in H.
    destruct (Nat.eq_dec (next_tmp st) p) as [E|E]; [lia|].
    specialize (B p ltac:(lia)). lia.
Qed.

Lemma refs_same p st st' :
  _active st' = _active st -> _pending_queue st' = _pending_queue st ->
  workers st' = workers st -> refs p st' = refs p st.
Proof. intros A Q W. rewrite !refs_split, A, Q, W. reflexivity. Qed.

Lemma handed_once_same st st' :
  _active st' = _active st -> _pending_queue st' = _pending_queue st ->
  workers st' = workers st -> next_tmp st' = next_tmp st ->
  next_id st' = next_id st ->
  handed_once st -> handed_once st'.
Proof.
  intros A Q W T I [O [N F]]. split.
  - apply once_with_transfer with (segs := []) (st := st); auto; [|lia].
    intros p. rewrite (@refs_same p _ _ A Q W). lia.
  - unfold workers_distinct. rewrite W, I. split; assumption.
Qed.

(** *** The capture side *)

Lemma finalize_capture seg st : capture_step seg st (finalize seg st).
Proof.
  unfold capture_step, finalize.
  destruct (Nat.eqb (frames seg) 0); simpl; repeat split; auto.
Qed.

Lemma stop_and_join_capture seg st :
  capture_step seg st (stop_and_join seg st).
Proof.
  unfold stop_and_join. destruct (seg_alive (set_stop_event true seg)).
  - apply (finalize_capture (set_stop_event true seg) st).
  - unfold capture_step. simpl. repeat split; auto.
Qed.

Lemma segment_iter_capture r seg st :
  capture_step seg st (segment_iter r seg st).
Proof.
  unfold segment_iter.
  destruct (negb (seg_alive seg));
    [unfold capture_step; simpl; repeat split; auto|].
  destruct (stop_event seg); [apply finalize_capture|].
  destruct r as [[|]|].
  - apply (finalize_capture (set_frames (S (frames seg)) seg) st).
  - unfold capture_step. simpl. repeat split; auto.
  - unfold capture_step. simpl. repeat split; auto.
Qed.

Lemma file_segment_refs p seg st :
  refs p (file_segment seg st) <= refs p st + cnt p (opt_list (file_path seg)).
Proof.
  unfold file_segment. destruct (file_path seg) as [q|]; [|lia].
  destruct (file_exists q st); [|lia].
  rewrite !refs_split. unfold put. simpl. rewrite cnt_queue_snoc. simpl. lia.
Qed.

Lemma file_segment_next seg st :
  next_tmp (file_segment seg st) = next_tmp st.
Proof.
  unfold file_segment. destruct (file_path seg) as [q|]; [|reflexivity].
  destruct (file_exists q st); reflexivity.
Qed.

Lemma unlink_refs p q st : refs p (unlink q st) = refs p st.
Proof.
  apply refs_same; unfold unlink; destruct (file_exists q st); reflexivity.
Qed.

Lemma unlink_next q st : next_tmp (unlink q st) = next_tmp st.
Proof. unfold unlink; destruct (file_exists q st); reflexivity. Qed.

Lemma flush_segments_once segs : forall st,
  once_with segs st -> once_with [] (flush_segments segs st).
Proof.
  induction segs as [|seg rest IH]; intros st O; simpl; [exact O|].
  pose proof (stop_and_join_capture seg st) as C.
  destruct (stop_and_join seg st) as [seg' st1].
  destruct C as (A & Q & W & _ & C). simpl in *.
  apply IH.
  pose proof (fun p => file_segment_refs p seg' st1) as R.
  pose proof (file_segment_next seg' st1) as T.
  destruct C as [[E N]|[E N]].
  - apply once_with_transfer with (segs := seg :: rest) (st := st);
      [|lia|exact O].
    intros p. specialize (R p). rewrite (@refs_same p _ _ A Q W) in R.
    rewrite cnt_seg_cons. rewrite E in R. lia.
  - apply once_with_fresh with (segs := seg :: rest) (st := st);
      [|lia|exact O].
    intros p. specialize (R p). rewrite (@refs_same p _ _ A Q W) in R.
    rewrite cnt_seg_cons. rewrite E in R.
    change (opt_list (Some (next_tmp st))) with [next_tmp st] in R. lia.
Qed.

Lemma discard_segments_once segs : forall st,
  once_with segs st -> once_with [] (discard_segments segs st).
Proof.
  induction segs as [|seg rest IH]; intros st O; simpl; [exact O|].
  pose proof (stop_and_join_capture seg st) as C.
  destruct (stop_and_join seg st) as [seg' st1].
  destruct C as (A & Q & W & _ & C). simpl in *.
  apply IH.
  set (st2 := match file_path seg' with
              | Some p => if file_exists p st1 then unlink p st1 else st1
              | None => st1
              end).
  assert (R : forall p, refs p st2 = refs p st).
  { intros p. rewrite <- (@refs_same p _ _ A Q W). unfold st2.
    destruct (file_path seg') as [q|]; [|reflexivity].
    destruct (file_exists q st1); [apply unlink_refs | reflexivity]. }
  assert (T : next_tmp st2 = next_tmp st1).
  { unfold st2. destruct (file_path seg') as [q|]; [|reflexivity].
    destruct (file_exists q st1); [apply unlink_next | reflexivity]. }
  apply once_with_transfer with (segs := seg :: rest) (st := st);
    [| destruct C as [[_ N]|[_ N]]; lia | exact O].
  intros p. rewrite R, cnt_seg_cons. lia.
Qed.

Lemma once_with_active st :
  once_with [] st -> once_with (_active st) (set_active [] st).
Proof.
  apply once_with_transfer; [|simpl; lia].
  intros p. rewrite !refs_split. simpl. lia.
Qed.

Lemma stop_active_segments_once st :
  once_with [] st -> once_with [] (_stop_active_segments st).
Proof.
  intros O. unfold _stop_active_segments.
  apply flush_segments_once, once_with_active, O.
Qed.

Lemma workers_distinct_same st st' :
  workers st' = workers st -> next_id st <= next_id st' ->
  workers_distinct st -> workers_distinct st'.
Proof.
  intros W I [N F]. unfold workers_distinct. rewrite W. split; [exact N|].
  eapply Forall_impl; [|exact F]. simpl. intros tid. lia.
Qed.

Lemma stop_active_segments_handed st :
  handed_once st -> handed_once (_stop_active_segments st).
Proof.
  intros [O D]. split; [apply stop_active_segments_once, O|].
  apply workers_distinct_same with (st := st); auto.
  - unfold _stop_active_segments. rewrite flush_segments_shape. reflexivity.
  - unfold _stop_active_segments. rewrite flush_segments_shape. simpl. lia.
Qed.

Lemma schedule_exit_handed st : handed_once st -> handed_once (schedule_exit st).
Proof.
  intros H. unfold schedule_exit. destruct (_ && _); [|exact H].
  apply handed_once_same with (st := _stop_active_segments st);
    try reflexivity.
  apply stop_active_segments_handed, H.
Qed.

Lemma segment_read_handed id r st :
  handed_once st -> handed_once (segment_read id r st).
Proof.
  intros [O D]. unfold segment_read, find_segment.
  destruct (find _ (_active st)) as [seg|] eqn:F; [|split; assumption].
  pose proof (segment_iter_capture r seg st) as C.
  destruct (segment_iter r seg st) as [seg' st1].
  destruct C as (A & Q & W & I & C). simpl in *.
  split.
  - assert (R : forall p,
      refs p (set_active (replace_segment id seg' (_active st1)) st1)
      + cnt p (opt_list (file_path seg))
      = refs p st + cnt p (opt_list (file_path seg'))).
    { intros p. rewrite !refs_split. simpl. rewrite A, Q, W.
      pose proof (@cnt_replace_segment p id seg seg' _ F). lia. }
    destruct C as [[E N]|[E N]].
    + apply once_with_transfer with (segs := []) (st := st);
        [|simpl; lia|exact O].
      intros p. specialize (R p). rewrite E in R. lia.
    + apply once_with_fresh with (segs := []) (st := st);
        [|simpl; lia|exact O].
      intros p. specialize (R p). rewrite E in R.
      change (opt_list (Some (next_tmp st))) with [next_tmp st] in R. lia.
  - apply workers_distinct_same with (st := st); simpl; auto. lia.
Qed.

Lemma watch_segment_handed id st :
  handed_once st -> handed_once (_watch_segment id st).
Proof.
  intros [O D]. unfold _watch_segment, find_segment.
  destruct (find _ (_active st)) as [seg|] eqn:F; [|split; assumption].
  destruct (seg_alive seg); [split; assumption|].
  set (st1 := set_active (remove_segment id (_active st)) st).
  split.
  - apply once_with_transfer with (segs := []) (st := st); [| |exact O].
    + intros p. pose proof (file_segment_refs p seg st1) as R.
      assert (E : refs p st1 + cnt p (opt_list (file_path seg)) = refs p st).
      { rewrite !refs_split. simpl.
        pose proof (@cnt_remove_segment p id seg _ F). lia. }
      lia.
    + rewrite file_segment_next. simpl. lia.
  - apply workers_distinct_same with (st := st); auto.
    + rewrite file_segment_shape. reflexivity.
    + rewrite file_segment_shape. simpl. lia.
Qed.

Lemma schedule_spawn_handed now st :
  handed_once st -> handed_once (schedule_spawn now st).
Proof.
  intros [O D]. unfold schedule_spawn. destruct (_ && _); [|split; assumption].
  split.
  - apply once_with_transfer with (segs := []) (st := st);
      [|simpl; lia|exact O].
    intros p. rewrite !refs_split. simpl. rewrite cnt_seg_snoc. simpl. lia.
  - apply workers_distinct_same with (st := st); simpl; auto.
Qed.

(** *** The worker side *)

Lemma set_worker_absent tid h (ws : list (nat * option (key * path))) :
  ~ In tid (map fst ws) ->
  map (fun w => if Nat.eqb (fst w) tid then (tid, h) else w) ws = ws.
Proof.
  induction ws as [|w ws IH]; intros N; cbn [map]; [reflexivity|].
  destruct (Nat.eqb (fst w) tid) eqn:E.
  - apply Nat.eqb_eq in E. exfalso. apply N. left. exact E.
  - rewrite IH; [reflexivity|]. intros H. apply N. right. exact H.
Qed.

Lemma set_worker_ids tid h (ws : list (nat * option (key * path))) :
  map fst (map (fun w => if Nat.eqb (fst w) tid then (tid, h) else w) ws)
  = map fst ws.
Proof.
  induction ws as [|w ws IH]; cbn [map]; [reflexivity|].
  rewrite IH. destruct (Nat.eqb (fst w) tid) eqn:E; [|reflexivity].
  apply Nat.eqb_eq in E. simpl. rewrite E. reflexivity.
Qed.

Lemma cnt_set_worker p tid h h' (ws : list (nat * option (key * path))) :
  NoDup (map fst ws) ->
  option_map snd (find (fun w => Nat.eqb (fst w) tid) ws) = Some h ->
  cnt p (held_paths
           (map (fun w => if Nat.eqb (fst w) tid then (tid, h') else w) ws))
  + cnt p (opt_list (option_map snd h))
  = cnt p (held_paths ws) + cnt p (opt_list (option_map snd h')).
Proof.
  induction ws as [|w ws IH]; cbn [map find]; [discriminate|].
  intros N F. inversion N as [|? ? Nw N']; subst.
  destruct (Nat.eqb (fst w) tid) eqn:E.
  - apply Nat.eqb_eq in E. simpl in F. inversion F; subst.
    rewrite set_worker_absent by exact Nw.
    rewrite !cnt_held_cons. simpl. lia.
  - rewrite !cnt_held_cons. specialize (IH N' F). lia.
Qed.

Lemma cnt_end_worker p tid (ws : list (nat * option (key * path))) :
  cnt p (held_paths (filter (fun w => negb (Nat.eqb (fst w) tid)) ws))
  <= cnt p (held_paths ws).
Proof.
  induction ws as [|w ws IH]; cbn [filter]; [lia|].
  destruct (negb (Nat.eqb (fst w) tid)); rewrite ?cnt_held_cons; lia.
Qed.

Lemma end_worker_ids tid (ws : list (nat * option (key * path))) i :
  In i (map fst (filter (fun w => negb (Nat.eqb (fst w) tid)) ws)) ->
  In i (map fst ws).
Proof.
  intros H. apply in_map_iff in H. destruct H as (w & E & H).
  apply filter_In in H. apply in_map_iff. exists w. tauto.
Qed.

Lemma end_worker_nodup tid (ws : list (nat * option (key * path))) :
  NoDup (map fst ws) ->
  NoDup (map fst (filter (fun w => negb (Nat.eqb (fst w) tid)) ws)).
Proof.
  induction ws as [|w ws IH]; cbn [filter map]; intros N; [constructor|].
  inversion N as [|? ? Nw N']; subst.
  destruct (negb (Nat.eqb (fst w) tid)); [|auto].
  cbn [map]. constructor; [|auto].
  intros H. apply Nw. eapply end_worker_ids, H.
Qed.

Lemma set_worker_handed tid h h' st :
  worker_state tid st = Some h ->
  (forall p, cnt p (opt_list (option_map snd h'))
             <= cnt p (opt_list (option_map snd h))) ->
  handed_once st -> handed_once (set_worker tid h' st).
Proof.
  intros Hw Hle [O [N F]]. split.
  - apply once_with_transfer with (segs := []) (st := st);
      [|simpl; lia|exact O].
    intros p. rewrite !refs_split. unfold set_worker. simpl.
    pose proof (@cnt_set_worker p tid h h' _ N Hw). specialize (Hle p). lia.
  - unfold workers_distinct, set_worker. simpl. rewrite set_worker_ids.
    split; assumption.
Qed.

Lemma end_worker_handed tid st :
  handed_once st -> handed_once (end_worker tid st).
Proof.
  intros [O [N F]]. split.
  - apply once_with_transfer with (segs := []) (st := st);
      [|simpl; lia|exact O].
    intros p. rewrite !refs_split. unfold end_worker. simpl.
    pose proof (cnt_end_worker p tid (workers st)). lia.
  - unfold workers_distinct, end_worker. simpl.
    split; [apply end_worker_nodup, N|].
    rewrite Forall_forall in *. intros i H. apply F.
    eapply end_worker_ids, H.
Qed.

Lemma worker_take_handed tid st :
  handed_once st -> handed_once (worker_take tid st).
Proof.
  intros H. unfold worker_take.
  destruct (worker_state tid st) as [[|]|] eqn:Hw; try exact H.
  destruct (pq_get (_pending_queue st)) as [[[k [p|]] q]|] eqn:Hg;
    [| |exact H].
  - destruct H as [O [N F]]. split.
    + apply once_with_transfer with (segs := []) (st := st);
        [|simpl; lia|exact O].
      intros x. rewrite !refs_split. unfold set_worker. simpl.
      pose proof (@cnt_pq_get x _ _ _ Hg) as Q. simpl in Q.
      pose proof (@cnt_set_worker x tid None (Some (k, p)) _ N Hw) as W.
      simpl in W. lia.
    + unfold workers_distinct, set_worker. simpl. rewrite set_worker_ids.
      split; assumption.
  - apply end_worker_handed.
    destruct H as [O D]. split.
    + apply once_with_transfer with (segs := []) (st := st);
        [|simpl; lia|exact O].
      intros x. rewrite !refs_split. simpl.
      pose proof (@cnt_pq_get x _ _ _ Hg) as Q. lia.
    + exact D.
Qed.

Lemma process_item_handed k p st :
  handed_once st -> handed_once (process_item k p st).
Proof.
  pose proof (process_item_shape k p st) as E. cbv zeta in E.
  apply handed_once_same; rewrite E; reflexivity.
Qed.

Lemma worker_process_handed tid st :
  handed_once st -> handed_once (worker_process tid st).
Proof.
  intros H. unfold worker_process.
  destruct (worker_state tid st) as [[[k p]|]|] eqn:Hw; try exact H.
  destruct (process_item_raises k p st);
    [apply end_worker_handed, process_item_handed, H|].
  apply set_worker_handed with (h := Some (k, p)).
  - unfold worker_state. rewrite process_item_workers. exact Hw.
  - intros x. simpl. lia.
  - apply process_item_handed, H.
Qed.

Lemma worker_step_handed tid st :
  handed_once st -> handed_once (worker_step tid st).
Proof.
  intros H. unfold worker_step.
  destruct (worker_state tid st) as [[|]|];
    auto using worker_process_handed, worker_take_handed.
Qed.

Lemma join_worker_handed budget : forall tid st,
  handed_once st -> handed_once (join_worker budget tid st).
Proof.
  induction budget as [|b IH]; intros tid st H; simpl; auto.
  destruct (worker_alive tid st); auto using worker_step_handed.
Qed.

Lemma join_transcriber_handed budget st :
  handed_once st -> handed_once (join_transcriber budget st).
Proof.
  intros H. unfold join_transcriber.
  destruct (_transcriber_thread st) as [tid|]; [|exact H].
  apply handed_once_same with (st := join_worker budget tid st);
    try reflexivity.
  apply join_worker_handed, H.
Qed.

Lemma spawn_worker_handed st : handed_once st -> handed_once (spawn_worker st).
Proof.
  intros [O [N F]]. split.
  - apply once_with_transfer with (segs := []) (st := st);
      [|simpl; lia|exact O].
    intros p. rewrite !refs_split. unfold spawn_worker. simpl.
    rewrite cnt_held_snoc. simpl. lia.
  - unfold workers_distinct, spawn_worker. simpl. rewrite map_app. simpl.
    split.
    + apply NoDup_app; [exact N | repeat constructor; simpl; tauto |].
      intros i Hi [<-|[]]. rewrite Forall_forall in F.
      specialize (F _ Hi). lia.
    + apply Forall_app. split.
      * eapply Forall_impl; [|exact F]. simpl. intros i. lia.
      * repeat constructor.
Qed.

(** *** The controller *)

Lemma take_item_handed q st :
  (forall p, cnt p (queue_paths q) <= cnt p (queue_paths (_pending_queue st))) ->
  handed_once st -> handed_once (set_pending_queue q st).
Proof.
  intros Hq [O D]. split.
  - apply once_with_transfer with (segs := []) (st := st);
      [|simpl; lia|exact O].
    intros p. rewrite !refs_split. simpl. specialize (Hq p). lia.
  - exact D.
Qed.

Lemma pq_get_handed q m st :
  pq_get (_pending_queue st) = Some (m, q) ->
  handed_once st -> handed_once (set_pending_queue q st).
Proof.
  intros Hg. apply take_item_handed. intros p.
  pose proof (@cnt_pq_get p _ _ _ Hg). lia.
Qed.

Lemma unlink_handed p st : handed_once st -> handed_once (unlink p st).
Proof.
  apply handed_once_same; unfold unlink; destruct (file_exists p st);
    reflexivity.
Qed.

Lemma drain_queue_handed fuel : forall st,
  handed_once st -> handed_once (drain_queue fuel st).
Proof.
  induction fuel as [|f IH]; intros st H; simpl; [exact H|].
  destruct (pq_get (_pending_queue st)) as [[[k [p|]] q]|] eqn:Hg;
    [| |exact H]; apply IH.
  - apply unlink_handed. eapply pq_get_handed; eauto.
  - eapply pq_get_handed; eauto.
Qed.

Lemma discard_queue_handed fuel : forall st,
  handed_once st -> handed_once (discard_queue fuel st).
Proof.
  induction fuel as [|f IH]; intros st H; simpl; [exact H|].
  destruct (pq_get (_pending_queue st)) as [[m q]|] eqn:Hg; [|exact H].
  apply IH. eapply pq_get_handed; eauto.
Qed.

Lemma put_sentinel_handed st :
  handed_once st -> handed_once (put (Inf, None) st).
Proof.
  intros [O D]. split; [|exact D].
  apply once_with_transfer with (segs := []) (st := st);
    [|simpl; lia|exact O].
  intros p. rewrite !refs_split. unfold put. simpl.
  rewrite cnt_queue_snoc. simpl. lia.
Qed.

Lemma clear_transcript_handed st :
  handed_once st -> handed_once (clear_transcript st).
Proof.
  apply handed_once_same; unfold clear_transcript;
    destruct (transcript_file st); reflexivity.
Qed.

Lemma shutdown_handed f budget st :
  handed_once st -> handed_once (_shutdown f budget st).
Proof.
  intros H. unfold _shutdown, join_scheduler. cbv zeta.
  apply join_transcriber_handed, put_sentinel_handed.
  apply stop_active_segments_handed, schedule_exit_handed.
  apply handed_once_same with (st := st); try reflexivity. exact H.
Qed.

Lemma discard_segments_handed st :
  handed_once st ->
  handed_once (discard_segments (_active st) (set_active [] st)).
Proof.
  intros [O D]. split.
  - apply discard_segments_once, once_with_active, O.
  - apply workers_distinct_same with (st := st); auto.
    + rewrite discard_segments_shape. reflexivity.
    + rewrite discard_segments_shape. simpl. lia.
Qed.

Lemma cancel_handed during budget st :
  handed_once st -> handed_once (cancel during budget st).
Proof.
  intros H0. apply cancel_with_workers.
  { apply schedule_exit_handed.
    apply handed_once_same with (st := st); try reflexivity. exact H0. }
  { apply worker_step_handed. }
  clear H0 st. intros st H.
  rewrite cancel_quiet. unfold join_scheduler. cbv zeta.
  match goal with
  | |- handed_once (set_paused false (clear_transcript (set_results [] ?X))) =>
      assert (HX : handed_once X)
  end.
  { apply join_transcriber_handed, put_sentinel_handed, drain_queue_handed.
    apply discard_segments_handed, schedule_exit_handed.
    apply handed_once_same with (st := st); try reflexivity. exact H. }
  match goal with
  | |- handed_once (set_paused false (clear_transcript ?Y)) =>
      apply handed_once_same with (st := clear_transcript Y);
        try reflexivity
  end.
  apply clear_transcript_handed.
  match goal with
  | |- handed_once (set_results [] ?X) =>
      apply handed_once_same with (st := X); try reflexivity
  end.
  exact HX.
Qed.

Lemma start_handed st : handed_once st -> handed_once (start st).
Proof.
  intros H. unfold start. destruct (running st); [exact H|]. cbv zeta.
  match goal with
  | |- handed_once (set_scheduler _ ?X) =>
      apply handed_once_same with (st := X); try reflexivity
  end.
  apply spawn_worker_handed, discard_queue_handed.
  match goal with
  | |- handed_once (set_results [] ?X) =>
      apply handed_once_same with (st := X); try reflexivity
  end.
  apply clear_transcript_handed.
  apply handed_once_same with (st := st); try reflexivity. exact H.
Qed.

Lemma resume_handed st : handed_once st -> handed_once (resume st).
Proof.
  intros H. unfold resume. destruct (running st); [exact H|].
  destruct (negb (_paused st)); [exact H|]. cbv zeta.
  set (st1 := set_stop_all false (set_paused false st)).
  assert (H1 : handed_once st1).
  { apply handed_once_same with (st := st); try reflexivity. exact H. }
  match goal with
  | |- handed_once (set_scheduler _ ?X) =>
      apply handed_once_same with (st := X); try reflexivity
  end.
  destruct (_transcriber_thread st1) as [tid|];
    [destruct (worker_alive tid st1)|];
    auto using spawn_worker_handed.
Qed.

Lemma step_handed st e : handed_once st -> handed_once (step st e).
Proof.
  intros H. destruct e; simpl.
  - apply start_handed, H.
  - apply resume_handed, H.
  - unfold pause. destruct (running st); [apply shutdown_handed|]; exact H.
  - apply shutdown_handed, H.
  - apply cancel_handed, H.
  - apply schedule_spawn_handed, H.
  - apply segment_read_handed, H.
  - apply watch_segment_handed, H.
  - apply worker_step_handed, H.
Qed.

Lemma exec_handed es : forall st, handed_once st -> handed_once (exec st es).
Proof.
  induction es as [|e es IH]; intros st H; simpl; [exact H|].
  apply IH, step_handed, H.
Qed.

Lemma init_handed client retries old : handed_once (init client retries old).
Proof.
  split; [split|split]; simpl; intros; try constructor; reflexivity.
Qed.

(** X8.  In every state the session reaches, no artifact is referred to twice:
    the artifacts of the segments in the active list, of the handoff items
    and of the items that workers hold are all different, and each bears a
    name that [mkstemp] has handed out.  So no artifact is in the queue
    twice, none is both queued and in a worker's hands, and no two workers
    hold the same one.  The worker threads are distinct. *)
Theorem every_artifact_handed_over_once :
  forall client retries old (es : list event),
    let st := exec (init client retries old) es in
    NoDup (claims st)
    /\ Forall (fun p => p < next_tmp st) (claims st)
    /\ NoDup (map fst (workers st)).
Proof.
  intros client retries old es st.
  destruct (@exec_handed es _ (init_handed client retries old))
    as [[A B] [N _]].
  fold st in A, B, N.
  split; [|split; [|exact N]].
  - apply (NoDup_count_occ Nat.eq_dec). intros p.
    specialize (A p). simpl in A. exact A.
  - apply Forall_forall. intros p Hp.
    destruct (Nat.lt_ge_cases p (next_tmp st)) as [L|L]; [exact L|].
    specialize (B p L). simpl in B.
    apply (count_occ_In Nat.eq_dec) in Hp. unfold refs, cnt in B. lia.
Qed.

(** ** A segment with an artifact has left its loop *)






(** ** Who answers for an artifact when [cancel()] is called *)


Lemma held_claimed p st : held (workers st) p -> In p (claims st).
Proof.
  intros (t & k & H). unfold claims, held_paths.
  apply in_or_app. right. apply in_or_app. right.
  apply in_flat_map. exists (t, Some (k, p)). split; [exact H|].
  left. reflexivity.
Qed.






Section Accounting.
Variable U : path -> Prop.
Variable st : State.










End Accounting.




(** ** C2 *)





(** ** What [_stop_active_segments] saves of a capture under way *)





(** ** What [start()] does with the handoff queue *)

Lemma discard_queue_empties fuel : forall st,
  List.length (_pending_queue st) <= fuel ->
  _pending_queue (discard_queue fuel st) = [].
Proof.
  induction fuel as [|f IH]; intros st L; simpl.
  - destruct (_pending_queue st); [reflexivity | simpl in L; lia].
  - destruct (pq_get (_pending_queue st)) as [[m q]|] eqn:Hg.
    + apply IH. simpl.
      destruct (pq_get_spec _ Hg) as (_ & _ & _ & _ & Hl). lia.
    + apply pq_get_none, Hg.
Qed.

Lemma discard_queue_storage fuel : forall st,
  files (discard_queue fuel st) = files st
  /\ deleted (discard_queue fuel st) = deleted st.
Proof.
  induction fuel as [|f IH]; intros st; simpl; [auto|].
  destruct (pq_get (_pending_queue st)) as [[m q]|]; [|auto].
  destruct (IH (set_pending_queue q st)) as [-> ->]. auto.
Qed.

(** X15.  [start()] on a session that is not running empties the handoff queue
    and deletes nothing: storage and the log of deletions are what they
    were.  An artifact that was waiting in the queue is still on storage
    afterwards, and no longer queued. *)
Theorem start_drops_queue_keeps_files :
  forall st,
    running st = false ->
    _pending_queue (start st) = []
    /\ files (start st) = files st
    /\ deleted (start st) = deleted st
    /\ (forall k p, In (k, Some p) (_pending_queue st) -> In p (files st) ->
          In p (files (start st)) /\ ~ queued (_pending_queue (start st)) p).
Proof.
  intros st R.
  assert (Q : _pending_queue (start st) = []).
  { unfold start. rewrite R. cbv zeta.
    match goal with
    | |- _pending_queue (set_scheduler _ (spawn_worker ?X)) = _ =>
        change (_pending_queue X = [])
    end.
    apply discard_queue_empties. apply Nat.le_refl. }
  assert (F : files (start st) = files st /\ deleted (start st) = deleted st).
  { unfold start. rewrite R. cbv zeta. simpl.
    match goal with
    | |- files (discard_queue ?f ?X) = _ /\ _ =>
        destruct (discard_queue_storage f X) as [-> ->]
    end.
    unfold clear_transcript. simpl.
    destruct (transcript_file st); auto. }
  destruct F as [F D].
  split; [exact Q|]. split; [exact F|]. split; [exact D|].
  intros k p _ Hf. split; [rewrite F; exact Hf|].
  rewrite Q. intros [k' []].
Qed.

Lemma start_drops_queue_keeps_files_witness :
  let st := stop 0 (exec (init Demo.two_words 3 None) Demo.one_queued) in
  files st = [1; 0]
  /\ _pending_queue st = [(Fin 0, Some 0); (Fin 12, Some 1); (Inf, None)]
  /\ _pending_queue (start st) = []
  /\ files (start st) = [1; 0].
Proof.
  intros st.
  assert (R : running st = false) by (vm_compute; reflexivity).
  assert (F : files st = [1; 0]) by (vm_compute; reflexivity).
  destruct (@start_drops_queue_keeps_files st R) as (Q & F' & _).
  split; [exact F|]. split; [vm_compute; reflexivity|].
  split; [exact Q|]. rewrite F'. exact F.
Defined.

(** ** The callbacks and the recorder *)



Lemma resume_flags st :
  running st = false -> _paused st = true ->
  running (resume st) = true /\ _paused (resume st) = false.
Proof.
  intros R P. unfold resume. rewrite R, P. cbv zeta. simpl.
  split; [reflexivity|].
  destruct (_transcriber_thread st) as [tid|]; simpl;
    [destruct (worker_alive tid _)|]; reflexivity.
Qed.

Lemma cancel_flags during budget st :
  running (cancel during budget st) = false
  /\ _paused (cancel during budget st) = false.
Proof.
  destruct (cancel_stops during budget st) as [_ R]. split; [exact R|].
  unfold cancel. reflexivity.
Qed.

Lemma thread_step_flags st e :
  match e with
  | Spawn _ | Read _ _ | Watch _ | Work _ => True
  | _ => False
  end ->
  running (step st e) = running st /\ _paused (step st e) = _paused st.
Proof.
  destruct e as [| |b|b|d b|now|id r|id|tid]; simpl; try contradiction;
    intros _.
  - split; [apply schedule_spawn_running|].
    unfold schedule_spawn. destruct (_ && _); reflexivity.
  - split; [apply segment_read_schedule|].
    unfold segment_read. destruct (find_segment id st) as [seg|];
      [|reflexivity].
    pose proof (segment_iter_shape r seg st) as E.
    destruct (segment_iter r seg st) as [seg' st1]. simpl in *.
    rewrite E. reflexivity.
  - split; [apply watch_segment_schedule|].
    unfold _watch_segment. destruct (find_segment id st) as [seg|];
      [|reflexivity].
    destruct (seg_alive seg); [reflexivity|].
    rewrite file_segment_shape. reflexivity.
  - split; [apply worker_step_scheduler|].
    rewrite worker_step_shape. reflexivity.
Qed.

(** Every path through [stop_and_process] on a recording session stops the
    recorder and leaves the same flags behind. *)
Lemma stop_and_process_status budget a :
  status_recording a = true ->
  let a' := stop_and_process budget a in
  recorder a' = stop budget (recorder a)
  /\ status_recording a' = false /\ status_paused a' = false
  /\ status_mode a' = "transcribe"%string
  /\ exists mid, shown a' = shown a ++ "processing"%string :: mid
                 /\ last (shown a') ""%string = "idle"%string.
Proof.
  intros R a'. unfold a', stop_and_process. rewrite R. cbv zeta. simpl.
  destruct (truthy _); simpl.
  - destruct (String.eqb (status_mode a) "prompt");
      match goal with
      | |- context [match ?r with Formatted _ => _ | _ => _ end] =>
          destruct r as [f| |]
      end; try destruct (encodable f); simpl; repeat split; auto;
      exists ["idle"%string];
      (split; [rewrite <- app_assoc; reflexivity | apply last_last]).
  - repeat split; auto.
    exists ["idle"%string].
    split; [rewrite <- app_assoc; reflexivity | apply last_last].
Qed.

Lemma act_agrees a x : agrees a -> agrees (act a x).
Proof.
  intros (H1 & H2 & H3).
  destruct x as [mode|b|b|d b|now|id r|id|tid]; cbn [act].
  - unfold start_recording.
    destruct (status_recording a) eqn:R, (status_paused a) eqn:P;
      cbn -[running resume start].
    + destruct (H2 eq_refl) as (_ & Rn & Pa).
      destruct (resume_flags _ Rn Pa) as [Rn' Pa'].
      split; [|split]; cbn -[running resume start]; intros;
        [exact Rn' | congruence | congruence].
    + unfold agrees. rewrite R, P. auto.
    + destruct (H3 eq_refl) as (Pf & _). discriminate.
    + destruct (H3 eq_refl) as (_ & Rn & _).
      destruct (start_starts _ Rn) as [_ Rn'].
      split; [|split]; cbn -[running resume start]; intros;
        [exact Rn' | congruence | congruence].
  - unfold pause_recording.
    destruct (status_recording a) eqn:R; cbn -[running pause];
      [|unfold agrees; rewrite R; auto].
    destruct (status_paused a) eqn:P; cbn -[running pause];
      [unfold agrees; rewrite R, P; auto|].
    pose proof (H1 eq_refl eq_refl) as Rn.
    split; [|split]; cbn -[running pause]; intros; try congruence.
    split; [exact R|]. unfold pause. rewrite Rn.
    destruct (shutdown_stops true b (recorder a)) as [_ Rn'].
    split; [exact Rn' | apply shutdown_paused].
  - destruct (status_recording a) eqn:R.
    + destruct (stop_and_process_status b a R) as (Er & Sr & Sp & Sm & _).
      split; [|split]; intros; try congruence.
      split; [exact Sp|]. split; [|exact Sm].
      rewrite Er. apply shutdown_stops.
    + unfold stop_and_process. rewrite R. simpl.
      unfold agrees. rewrite R. auto.
  - unfold cancel_all.
    destruct (status_recording a) eqn:R, (status_paused a) eqn:P;
      cbn -[running cancel];
      try (split; [|split]; cbn -[running cancel]; intros;
           try congruence;
           split; [reflexivity|];
           split; [apply cancel_flags | reflexivity]).
    unfold agrees. rewrite R, P. auto.
  - destruct (@thread_step_flags (recorder a) (Spawn now) I) as [Rn Pa].
    unfold agrees. cbn -[running step]. rewrite Rn, Pa. auto.
  - destruct (@thread_step_flags (recorder a) (Read id r) I) as [Rn Pa].
    unfold agrees. cbn -[running step]. rewrite Rn, Pa. auto.
  - destruct (@thread_step_flags (recorder a) (Watch id) I) as [Rn Pa].
    unfold agrees. cbn -[running step]. rewrite Rn, Pa. auto.
  - destruct (@thread_step_flags (recorder a) (Work tid) I) as [Rn Pa].
    unfold agrees. cbn -[running step]. rewrite Rn, Pa. auto.
Qed.

Lemma session_agrees xs : forall a, agrees a -> agrees (session a xs).
Proof.
  induction xs as [|x xs IH]; intros a H; simpl; [exact H|].
  apply IH, act_agrees, H.
Qed.



Lemma boot_agrees client old fmt gen ins :
  agrees (boot client old fmt gen ins).
Proof. split; [|split]; simpl; intros; auto; discriminate. Qed.


(** X20.  However [stop_and_process] ends on a recording session (no transcript,
    a formatted text, a rate limit, any other failure of the formatter) the
    recorder has been stopped, no segment is active, [status] says neither
    recording nor paused, the mode is ["transcribe"] again, and the last
    status shown, after ["processing"], is ["idle"]. *)
Theorem stop_and_process_always_ends_idle :
  forall budget a,
    status_recording a = true ->
    let a' := stop_and_process budget a in
    status_recording a' = false /\ status_paused a' = false
    /\ status_mode a' = "transcribe"%string
    /\ recorder a' = stop budget (recorder a)
    /\ running (recorder a') = false /\ _active (recorder a') = []
    /\ (exists mid, shown a' = shown a ++ "processing"%string :: mid)
    /\ last (shown a') ""%string = "idle"%string.
Proof.
  intros budget a R a'.
  destruct (stop_and_process_status budget a R)
    as (Er & Sr & Sp & Sm & mid & Es & El).
  fold a' in Er, Sr, Sp, Sm, Es, El.
  destruct (shutdown_stops false budget (recorder a)) as [A Rn].
  repeat split; auto; try (rewrite Er; assumption).
  exists mid. exact Es.
Qed.

Lemma stop_and_process_always_ends_idle_witness :
  let a := session (boot Demo.hello_world None Demo.refuse Demo.refuse
                      (fun _ => None)) Demo.dictated in
  let a' := stop_and_process 5 a in
  status_recording a = true
  /\ read_transcript (recorder a') = lit "hello"
  /\ shown a' = ["recording"; "processing"; "idle"]%string
  /\ status_recording a' = false /\ running (recorder a') = false.
Proof.
  intros a a'.
  assert (R : status_recording a = true) by (vm_compute; reflexivity).
  destruct (@stop_and_process_always_ends_idle 5 a R)
    as (Sr & _ & _ & _ & Rn & _).
  split; [exact R|]. split; [vm_compute; reflexivity|].
  split; [vm_compute; reflexivity|]. split; [exact Sr | exact Rn].
Defined.



Lemma resume_storage st :
  files (resume st) = files st
  /\ _pending_queue (resume st) = _pending_queue st
  /\ _active (resume st) = _active st.
Proof.
  unfold resume. destruct (running st); [auto|].
  destruct (negb (_paused st)); [auto|]. cbv zeta.
  destruct (_transcriber_thread _) as [tid|]; simpl;
    [destruct (worker_alive _ _)|]; auto.
Qed.

(** X22.  [start_recording] on a paused session resumes it and starts nothing
    anew: the recorder's scheduler is alive again, the result set, the
    transcript, storage and the handoff queue are what they were, and the
    mode stays what it was when the recording began, whatever mode the
    hotkey or button asks for. *)
Theorem start_while_paused_resumes :
  forall mode a,
    agrees a -> status_paused a = true ->
    let a' := start_recording mode a in
    status_mode a' = status_mode a
    /\ status_recording a' = true /\ status_paused a' = false
    /\ recorder a' = resume (recorder a)
    /\ running (recorder a') = true
    /\ same_text (recorder a') (recorder a)
    /\ files (recorder a') = files (recorder a)
    /\ _pending_queue (recorder a') = _pending_queue (recorder a).
Proof.
  intros mode a (_ & H2 & _) P a'.
  destruct (H2 P) as (R & Rn & Pa).
  assert (E : a' = update_status
                     (String.append "recording"
                        (if String.eqb (status_mode a) "prompt"
                         then " prompt" else ""))
                     (set_status_paused false
                        (set_recorder (resume (recorder a)) a))).
  { unfold a', start_recording. rewrite R, P. reflexivity. }
  destruct (resume_flags _ Rn Pa) as [Rn' _].
  destruct (resume_storage (recorder a)) as (F & Q & _).
  rewrite E. cbn -[resume running].
  repeat split; auto; apply resume_text.
Qed.

Lemma start_while_paused_resumes_witness :
  let a := session (boot Demo.hello_world None Demo.polish Demo.polish
                      (fun _ => None))
             (Demo.dictated ++ [PauseRecording 5]) in
  let a' := start_recording "prompt" a in
  status_paused a = true /\ status_mode a' = "transcribe"%string
  /\ running (recorder a') = true
  /\ read_transcript (recorder a') = lit "hello".
Proof.
  intros a a'.
  assert (P : status_paused a = true) by (vm_compute; reflexivity).
  assert (Ag : agrees a) by apply session_agrees, boot_agrees.
  destruct (@start_while_paused_resumes "prompt"%string a Ag P)
    as (M & _ & _ & _ & Rn & _).
  fold a' in M, Rn.
  split; [exact P|]. split; [rewrite M; vm_compute; reflexivity|].
  split; [exact Rn | vm_compute; reflexivity].
Defined.

(** ** What the worker stores of an answer *)

Lemma lstrip_spaces s : forallb is_space s = true -> lstrip s = [].
Proof.
  induction s as [|c s IH]; simpl; [reflexivity|].
  intros H. apply andb_true_iff in H. destruct H as [C S].
  rewrite C. apply IH, S.
Qed.

Lemma lstrip_idem s : lstrip (lstrip s) = lstrip s.
Proof.
  induction s as [|c s IH]; simpl; [reflexivity|].
  destruct (is_space c) eqn:C; [exact IH|]. simpl. rewrite C. reflexivity.
Qed.

Lemma lstrip_head s : lstrip s = [] \/ exists c r,
  lstrip s = c :: r /\ is_space c = false.
Proof.
  induction s as [|c s IH]; simpl; [auto|].
  destruct (is_space c) eqn:C; [exact IH|]. right. exists c, s. auto.
Qed.

Lemma lstrip_suffix s : exists sp, s = sp ++ lstrip s.
Proof.
  induction s as [|c s [sp IH]]; simpl; [exists []; reflexivity|].
  destruct (is_space c).
  - exists (c :: sp). simpl. rewrite <- IH. reflexivity.
  - exists []. reflexivity.
Qed.

Lemma strip_idem s : strip (strip s) = strip s.
Proof.
  unfold strip. set (x := lstrip s).
  assert (L : lstrip (rstrip x) = rstrip x).
  { unfold rstrip.
    destruct (lstrip_suffix (rev x)) as [sp E].
    assert (Ex : x = rev (lstrip (rev x)) ++ rev sp).
    { rewrite <- rev_app_distr, <- E, rev_involutive. reflexivity. }
    destruct (rev (lstrip (rev x))) as [|d y] eqn:Y; [reflexivity|].
    destruct (lstrip_head s) as [H|(c & r & H & C)]; fold x in H.
    - rewrite H in Ex. discriminate.
    - rewrite H in Ex. simpl in Ex. inversion Ex; subst.
      simpl. rewrite C. reflexivity. }
  rewrite L. unfold rstrip. rewrite rev_involutive, lstrip_idem.
  reflexivity.
Qed.

(** A worker whose first request for the item it holds is answered with a
    text that is not empty. *)
Lemma worker_process_answer tid k p st t :
  worker_state tid st = Some (Some (k, p)) ->
  (0 <= max_retries st)%Z ->
  llm st (List.length (llm_calls st)) p = Text (Some t) ->
  t <> [] ->
  _results (worker_process tid st) = _results st ++ [(k, strip t)]
  /\ transcript_file (worker_process tid st)
     = Some (written (transcript_of (_results st ++ [(k, strip t)])))
  /\ process_item_raises k p st
     = negb (encodable (transcript_of (_results st ++ [(k, strip t)]))).
Proof.
  intros Hw Hm Ht Hne.
  destruct (@worker_process_text tid k p st Hw) as [-> ->].
  assert (Tr : truthy t = true) by (destruct t; [contradiction|reflexivity]).
  assert (E1 : fst (_transcribe_single p st) = t).
  { unfold _transcribe_single.
    destruct (@attempts_recover 0 (Z.to_nat (max_retries st + 1)) 0%Z p st
                (Some t)) as [E _]; try lia.
    - rewrite Nat.add_0_r. exact Ht.
    - rewrite E. simpl. rewrite Tr. reflexivity. }
  split; [|split].
  - rewrite process_item_results. cbv zeta. rewrite E1, Tr. reflexivity.
  - rewrite process_item_transcript. cbv zeta. rewrite E1, Tr. reflexivity.
  - rewrite process_item_raises_spec. cbv zeta. rewrite E1, Tr. reflexivity.
Qed.

(** X11.  The worker tests the client's answer as it came and stores it
    stripped.  For an answer that is not empty the entry [(start_ts,
    text.strip())] joins the result set and the transcript is written
    anew: it is the sorted join of the result set when UTF-8 can encode
    that, and otherwise it is left empty by a write that raises and ends
    the worker thread.  The stored text has no white space left at either
    end.  So an answer of white space only, which passes the test, leaves
    an entry with an empty text, and as the first entry of a session it
    makes the transcript file exist with nothing in it. *)
Theorem answer_is_tested_raw_and_stored_stripped :
  forall tid k p st t,
    worker_state tid st = Some (Some (k, p)) ->
    (0 <= max_retries st)%Z ->
    llm st (List.length (llm_calls st)) p = Text (Some t) ->
    t <> [] ->
    let st' := worker_process tid st in
    _results st' = _results st ++ [(k, strip t)]
    /\ (encodable (transcript_of (_results st')) = true ->
        transcript_file st' = Some (transcript_of (_results st'))
        /\ worker_state tid st' = Some None)
    /\ (encodable (transcript_of (_results st')) = false ->
        transcript_file st' = Some []
        /\ worker_state tid st' = None)
    /\ strip (strip t) = strip t
    /\ (forallb is_space t = true ->
        strip t = []
        /\ (_results st = [] -> transcript_file st' = Some [])).
Proof.
  intros tid k p st t Hw Hm Ht Hne st'.
  destruct (@worker_process_answer tid k p st t Hw Hm Ht Hne)
    as (Hr & Hf & Hx).
  fold st' in Hr, Hf. rewrite <- Hr in Hf, Hx.
  assert (Hst : st' = if process_item_raises k p st
                      then end_worker tid (process_item k p st)
                      else set_worker tid None (process_item k p st)).
  { unfold st', worker_process. rewrite Hw. reflexivity. }
  split; [exact Hr|].
  split; [|split; [|split; [apply strip_idem|]]].
  - intros E. rewrite E in Hx. unfold written in Hf. rewrite E in Hf.
    split; [exact Hf|]. rewrite Hst, Hx.
    apply worker_state_set_worker.
    rewrite (worker_state_workers tid (process_item k p st) st);
      [rewrite Hw; discriminate | apply process_item_workers].
  - intros E. rewrite E in Hx. unfold written in Hf. rewrite E in Hf.
    split; [exact Hf|]. rewrite Hst, Hx. apply worker_state_end_worker.
  - intros Sp.
    assert (S0 : strip t = []).
    { unfold strip. rewrite (lstrip_spaces t Sp). reflexivity. }
    split; [exact S0|].
    intros E0. rewrite Hf, Hr, E0, S0. reflexivity.
Qed.

Lemma answer_is_tested_raw_and_stored_stripped_witness :
  let blank_answer := fun (_ : nat) (_ : path) => Text (Some (lit "  ")) in
  let st := exec (init blank_answer 3 None) Demo.one_taken in
  let st' := worker_process 0 st in
  transcript_file st = None
  /\ _results st' = [(Fin 0, [])] /\ transcript_file st' = Some [].
Proof.
  intros blank_answer st st'.
  assert (Hw : worker_state 0 st = Some (Some (Fin 0, 0)))
    by (vm_compute; reflexivity).
  assert (Hm : (0 <= max_retries st)%Z) by (vm_compute; discriminate).
  assert (Ht : llm st (List.length (llm_calls st)) 0 = Text (Some (lit "  ")))
    by (vm_compute; reflexivity).
  assert (Hne : lit "  " <> []) by (vm_compute; discriminate).
  destruct (@answer_is_tested_raw_and_stored_stripped 0 (Fin 0) 0 st
              (lit "  ") Hw Hm Ht Hne) as (R & _ & _ & _ & W).
  destruct (W ltac:(vm_compute; reflexivity)) as (S0 & F).
  fold st' in R, F.
  split; [vm_compute; reflexivity|].
  split; [rewrite R, S0; vm_compute; reflexivity|].
  apply F. vm_compute. reflexivity.
Defined.

(** ** What [stop()] leaves on storage *)





(** ** A worker that outlives its join *)

Lemma start_pool st :
  running st = false ->
  llm (start st) = llm st /\ max_retries (start st) = max_retries st
  /\ llm_calls (start st) = llm_calls st
  /\ workers (start st) = workers st ++ [(next_id st, None)]
  /\ _transcriber_thread (start st) = Some (next_id st).
Proof.
  intros R. unfold start. rewrite R. cbv zeta. unfold spawn_worker. simpl.
  rewrite discard_queue_shape. simpl.
  unfold clear_transcript. simpl. destruct (transcript_file st); simpl;
    repeat split; reflexivity.
Qed.

Lemma resume_pool st :
  running st = false -> _paused st = true -> _transcriber_thread st = None ->
  workers (resume st) = workers st ++ [(next_id st, None)]
  /\ _transcriber_thread (resume st) = Some (next_id st).
Proof.
  intros R P T. unfold resume. rewrite R, P. cbv zeta. simpl.
  rewrite T. split; reflexivity.
Qed.

Lemma worker_alive_app tid st (ws : list (nat * option (key * path))) st' :
  workers st' = workers st ++ ws ->
  worker_alive tid st = true -> worker_alive tid st' = true.
Proof.
  unfold worker_alive. intros -> H. rewrite existsb_app, H. reflexivity.
Qed.


Lemma worker_alive_id tid st :
  worker_alive tid st = true -> In tid (map fst (workers st)).
Proof.
  unfold worker_alive. intros H. apply existsb_exists in H.
  destruct H as (w & Hin & E). apply Nat.eqb_eq in E. subst tid.
  apply in_map, Hin.
Qed.

Lemma fresh_worker_alive st st' :
  workers st' = workers st ++ [(next_id st, None)] ->
  worker_alive (next_id st) st' = true.
Proof.
  unfold worker_alive. intros ->. rewrite existsb_app. simpl.
  rewrite Nat.eqb_refl. apply orb_true_iff. right. reflexivity.
Qed.

(** X17.  A worker that is still alive when the join of [pause()] or of [stop()]
    has timed out is not waited for again: the handle is dropped, and the
    next [resume()] or [start()] starts another worker beside it.  Two
    [_transcriber_loop] threads then take from the same queue. *)
Theorem join_timeout_leaves_two_workers :
  forall budget st tid,
    handed_once st ->
    (running st = true ->
     worker_alive tid (pause budget st) = true ->
     let st2 := resume (pause budget st) in
     exists fresh,
       fresh <> tid /\ _transcriber_thread st2 = Some fresh
       /\ worker_alive fresh st2 = true /\ worker_alive tid st2 = true)
    /\ (worker_alive tid (stop budget st) = true ->
        let st2 := start (stop budget st) in
        exists fresh,
          fresh <> tid /\ _transcriber_thread st2 = Some fresh
          /\ worker_alive fresh st2 = true /\ worker_alive tid st2 = true).
Proof.
  intros budget st tid H.
  assert (Fresh : forall f st1, st1 = _shutdown f budget st ->
            worker_alive tid st1 = true -> next_id st1 <> tid).
  { intros f st1 -> Ha.
    destruct (@shutdown_handed f budget st H) as [_ [_ F]].
    rewrite Forall_forall in F.
    specialize (F tid (worker_alive_id _ _ Ha)). lia. }
  split.
  - intros R Ha. unfold pause in *. rewrite R in *. cbv zeta.
    set (st1 := _shutdown true budget st) in *.
    destruct (shutdown_fields true budget st R) as (_ & P & _ & T & _).
    fold st1 in P, T.
    destruct (shutdown_stops true budget st) as [_ Rn]. fold st1 in Rn.
    destruct (resume_pool st1 Rn P T) as [W T'].
    exists (next_id st1).
    split; [apply (Fresh true); auto|]. split; [exact T'|].
    split; [eapply fresh_worker_alive; eauto|].
    eapply worker_alive_app; eauto.
  - intros Ha. unfold stop in *. cbv zeta.
    set (st1 := _shutdown false budget st) in *.
    destruct (shutdown_stops false budget st) as [_ Rn]. fold st1 in Rn.
    destruct (start_pool st1 Rn) as (_ & _ & _ & W & T').
    exists (next_id st1).
    split; [apply (Fresh false); auto|]. split; [exact T'|].
    split; [eapply fresh_worker_alive; eauto|].
    eapply worker_alive_app; eauto.
Qed.

Lemma join_timeout_leaves_two_workers_witness :
  let st := exec (init Demo.flaky 3 None) Demo.in_hand in
  let st2 := resume (pause 0 st) in
  workers st = [(0, Some (Fin 0, 0))]
  /\ exists fresh,
       fresh <> 0 /\ _transcriber_thread st2 = Some fresh
       /\ worker_alive fresh st2 = true /\ worker_alive 0 st2 = true.
Proof.
  intros st st2.
  split; [vm_compute; reflexivity|].
  destruct (@join_timeout_leaves_two_workers 0 st 0) as [P _].
  - apply exec_handed, init_handed.
  - apply P; vm_compute; reflexivity.
Defined.



(** ** The segments of the active list start a gap apart *)

Lemma step_spaced D G last st x :
  (0 <= G)%Z ->
  on_schedule G last st ->
  well_timed D G last st x = true ->
  on_schedule G (last_spawn last st x) (step st (what x)).
Proof.
  intros HG Hs Hw.
  unfold last_spawn, well_timed in *.
  destruct (what x) as [| |b|b|d b|now|id r|id|tid]; simpl.
  - destruct (running st) eqn:R.
    + unfold start. rewrite R. exact Hs.
    + destruct (start_starts st R) as [A R'].
      unfold on_schedule in *. rewrite R in Hs. rewrite R', A. exact Hs.
  - destruct (resume_cases st) as [E|(R & A & R')].
    + rewrite E. destruct (running st) eqn:R; auto.
      apply on_schedule_stopped; auto.
      unfold on_schedule in Hs. rewrite R in Hs. exact Hs.
    + rewrite R. unfold on_schedule in *. rewrite R in Hs.
      rewrite R', A. exact Hs.
  - unfold pause. destruct (running st); [|exact Hs].
    destruct (shutdown_stops true b st) as [A R].
    apply on_schedule_stopped; auto.
  - destruct (shutdown_stops false b st) as [A R].
    apply on_schedule_stopped; auto.
  - destruct (cancel_stops d b st) as [A R].
    apply on_schedule_stopped; auto.
  - unfold schedule_spawn, spawning in *.
    destruct (running st && negb (_stop_all st)) eqn:Sp; [|exact Hs].
    apply andb_true_iff in Hw. destruct Hw as [_ Hw].
    assert (R : running st = true).
    { apply andb_true_iff in Sp. apply Sp. }
    unfold on_schedule in *. simpl.
    change (running (set_next_id (S (next_id st))
              (set_active (_active st ++ [new_segment (next_id st) now]) st)))
      with (running st).
    rewrite R in *. rewrite map_app. simpl.
    destruct last as [t|].
    + apply spaced_snoc with (t := t); [lia | exact Hs|].
      apply Z.leb_le. exact Hw.
    + rewrite Hs. apply spaced_single.
  - destruct (segment_read_schedule id r st) as [E R].
    eapply on_schedule_transfer; [exact R | | |exact Hs].
    + intros A. rewrite A in E. simpl in E.
      apply map_eq_nil in E. exact E.
    + intros t. rewrite E. auto.
  - destruct (watch_segment_schedule id st) as [[A|A] R].
    + eapply on_schedule_transfer; [exact R | | |exact Hs];
        rewrite A; auto.
    + eapply on_schedule_transfer; [exact R | | |exact Hs]; rewrite A.
      * intros ->. reflexivity.
      * intros t. apply spaced_remove.
  - destruct (worker_step_scheduler tid st) as [A R].
    eapply on_schedule_transfer; [exact R | | |exact Hs]; rewrite A; auto.
Qed.

Lemma run_spaced D G :
  (0 <= G)%Z ->
  forall xs last clock st,
    on_schedule G last st ->
    punctual D G last clock st xs = true ->
    forall k, exists last',
      on_schedule G last' (exec st (map what (firstn k xs))).
Proof.
  intros HG. induction xs as [|x rest IH]; intros last clock st Hs Hp k.
  - exists last. destruct k; exact Hs.
  - destruct k as [|k]; [exists last; exact Hs|].
    simpl in Hp.
    apply andb_true_iff in Hp. destruct Hp as [Hp Hrest].
    apply andb_true_iff in Hp. destruct Hp as [_ Hw].
    pose proof (@step_spaced D G last st x HG Hs Hw) as Hs'.
    simpl. unfold exec in *. simpl.
    exact (IH _ _ _ Hs' Hrest k).
Qed.

(** X3.  In a run whose events come at times the code allows, the segments of
    the active list are in the order in which the scheduler created them,
    and each was created at least [gapInterval] after the one before it:
    the scheduler waits out [self._stop_all.wait(self.segment_gap)] between
    two spawns, and a scheduler that is started afresh finds the list
    empty. *)
Theorem active_segments_start_a_gap_apart :
  forall D G client retries old t0 run k,
    (0 <= G)%Z ->
    punctual D G None t0 (init client retries old) run = true ->
    let st := exec (init client retries old) (map what (firstn k run)) in
    StronglySorted (fun a b => a + G <= b)%Z (map _started_at (_active st)).
Proof.
  intros D G client retries old t0 run k HG Hp st.
  destruct (@run_spaced D G HG run None t0 (init client retries old)
              (init_on_schedule G client retries old) Hp k) as [last' H].
  fold st in H. unfold on_schedule in H.
  destruct (running st).
  - destruct last' as [t|]; [apply H|]. rewrite H. constructor.
  - rewrite H. constructor.
Qed.

Lemma active_segments_start_a_gap_apart_witness :
  let st := exec (init Demo.two_words 3 None)
              (map what (firstn 428 Demo.default_pace)) in
  map _started_at (_active st) = [12001; 24002]%Z
  /\ StronglySorted (fun a b => a + 12000 <= b)%Z
       (map _started_at (_active st)).
Proof.
  intros st.
  split; [vm_compute; reflexivity|].
  apply (@active_segments_start_a_gap_apart 15000 12000 Demo.two_words 3
           None 0 Demo.default_pace 428); [lia|].
  vm_compute. reflexivity.
Defined.
